(** * blog-automate: the article store, the matcher, the category resolver,
      the generation client, the pipeline and the publisher

    A shallow embedding of the TypeScript sources.  JavaScript strings are
    sequences of UTF-16 code units; they are modelled as [list N].  The file
    system is reduced to the one file an operation touches: [None] when the
    path does not exist, [Some content] otherwise, where [content] is the
    decoded text that [fs.readFileSync(path, 'utf-8')] returns.  Exceptions
    are modelled by the [result] type; network calls and other outside
    events by explicit outcome arguments and event traces. *)

From stdpp Require Import base list option numbers strings.
From Stdlib Require Import Ascii.

Local Open Scope N_scope.

(** ** JavaScript built-ins used by the sources *)

Module JS.

(** A string is a list of UTF-16 code units. *)
Abbreviation str := (list N).

(** Source literals are written as Rocq strings (UTF-8 bytes) and decoded. *)
Fixpoint utf16_of_utf8 (bs : list N) : str :=
  match bs with
  | [] => []
  | b0 :: r0 =>
    if b0 <? 128 then b0 :: utf16_of_utf8 r0
    else if b0 <? 224 then
      match r0 with
      | b1 :: r1 => ((b0 mod 32) * 64 + b1 mod 64) :: utf16_of_utf8 r1
      | _ => []
      end
    else if b0 <? 240 then
      match r0 with
      | b1 :: b2 :: r2 =>
        ((b0 mod 16) * 4096 + (b1 mod 64) * 64 + b2 mod 64) :: utf16_of_utf8 r2
      | _ => []
      end
    else
      match r0 with
      | b1 :: b2 :: b3 :: r3 =>
        let cp := (b0 mod 8) * 262144 + (b1 mod 64) * 4096
                  + (b2 mod 64) * 64 + b3 mod 64 - 65536 in
        (55296 + cp / 1024) :: (56320 + cp mod 1024) :: utf16_of_utf8 r3
      | _ => []
      end
  end.

Definition lit (s : string) : str :=
  utf16_of_utf8 (map N_of_ascii (String.list_ascii_of_string s)).

Definition COMMA : N := 44.
Definition QUOTE : N := 34.
Definition LF : N := 10.
Definition HYPHEN : N := 45.
Definition LBRACE : N := 123.
Definition RBRACE : N := 125.

(** Truthiness of a string: it is not empty. *)
Definition nonEmpty (s : str) : bool :=
  match s with
  | [] => false
  | _ => true
  end.

(** [s.includes(c)] for a one-character needle. *)
Fixpoint includes (c : N) (s : str) : bool :=
  match s with
  | [] => false
  | x :: r => (x =? c) || includes c r
  end.

(** WhiteSpace and LineTerminator code points, the set that [trim] and
    [parseInt] strip. *)
Definition isWhiteSpace (c : N) : bool :=
  ((9 <=? c) && (c <=? 13)) || (c =? 32) || (c =? 160) || (c =? 5760)
  || ((8192 <=? c) && (c <=? 8202)) || (c =? 8232) || (c =? 8233)
  || (c =? 8239) || (c =? 8287) || (c =? 12288) || (c =? 65279).

Fixpoint trimStart (s : str) : str :=
  match s with
  | [] => []
  | c :: r => if isWhiteSpace c then trimStart r else s
  end.

Fixpoint trimEnd (s : str) : str :=
  match s with
  | [] => []
  | c :: r =>
    match trimEnd r with
    | [] => if isWhiteSpace c then [] else [c]
    | r' => c :: r'
    end
  end.

Definition trim (s : str) : str := trimEnd (trimStart s).

(** [s.split(sep)] for a one-character separator: the pieces between the
    occurrences of [sep]; [cur] is the piece being read. *)
Fixpoint splitFrom (sep : N) (s : str) (cur : str) : list str :=
  match s with
  | [] => [cur]
  | c :: r => if c =? sep then cur :: splitFrom sep r [] else splitFrom sep r (cur ++ [c])
  end.

Definition split (sep : N) (s : str) : list str := splitFrom sep s [].

(** [parts.join(sep)]. *)
Fixpoint join (sep : str) (parts : list str) : str :=
  match parts with
  | [] => []
  | [p] => p
  | p :: rest => p ++ sep ++ join sep rest
  end.

(** Numbers.  The sources handle numbers as identifiers: they read them
    with [parseInt], compare them, add one and print them.  The doubles that
    these operations give are NaN, the two infinities and integers; [Int z]
    is the double whose value is the integer [z], which therefore has at
    most 53 significant bits and lies below 2^1024.  The negative zero that
    [parseInt("-0")] returns is identified with 0, from which no operation
    used here tells it apart.  A fraction that a caller puts into an [id]
    has no counterpart here. *)
Inductive number := NaN | Int (z : Z) | Infinity (negative : bool).

Global Instance number_eq_dec : EqDecision number.
Proof. solve_decision. Defined.

(** Truthiness of [n], as in [!n], [n || x], [n && x]. *)
Definition truthy (n : number) : bool :=
  match n with
  | NaN => false
  | Int z => negb (z =? 0)%Z
  | Infinity _ => true
  end.

(** [a === b] on numbers: NaN equals nothing. *)
Definition strictEq (a b : number) : bool :=
  match a, b with
  | Int x, Int y => (x =? y)%Z
  | Infinity x, Infinity y => bool_decide (x = y)
  | _, _ => false
  end.

(** [a > b] *)
Definition greater (a b : number) : bool :=
  match a, b with
  | Int x, Int y => (y <? x)%Z
  | Int _, Infinity negative => negative
  | Infinity negative, Int _ => negb negative
  | Infinity x, Infinity y => negb x && y
  | _, _ => false
  end.

(** The double nearest to the positive integer [m], a tie going to the even
    significand; [None] beyond the largest double. *)
Definition nearestDouble (m : Z) : option Z :=
  let bits := (Z.log2 m + 1)%Z in
  if (bits <=? 53)%Z then Some m
  else
    let shift := (bits - 53)%Z in
    let q := Z.shiftr m shift in
    let r := (m - Z.shiftl q shift)%Z in
    let half := Z.shiftl 1 (shift - 1) in
    let q := if (half <? r)%Z || ((r =? half)%Z && Z.odd q) then (q + 1)%Z else q in
    let v := Z.shiftl q shift in
    if (Z.shiftl 1 1024 <=? v)%Z then None else Some v.

(** The number for the mathematical integer [z]. *)
Definition fromInteger (z : Z) : number :=
  if (z =? 0)%Z then Int 0
  else
    match nearestDouble (Z.abs z) with
    | Some v => Int (Z.sgn z * v)
    | None => Infinity (z <? 0)%Z
    end.

(** [n + 1] *)
Definition addOne (n : number) : number :=
  match n with
  | Int z => fromInteger (z + 1)
  | _ => n
  end.

Definition isDigit (c : N) : bool := (48 <=? c) && (c <=? 57).

(** Value of the longest prefix of decimal digits, continuing from [acc]. *)
Fixpoint parseDigits (s : str) (acc : Z) : Z :=
  match s with
  | [] => acc
  | c :: r => if isDigit c then parseDigits r (10 * acc + Z.of_N (c - 48))%Z else acc
  end.

Definition startsWithDigit (s : str) : bool :=
  match s with
  | c :: _ => isDigit c
  | [] => false
  end.

(** [parseInt(s, 10)]: leading white space is skipped, an optional sign is
    read, then the longest digit prefix; NaN when there is no digit.  The
    result is the double nearest to the integer that the digits write, as
    V8 computes it. *)
Definition parseInt (s : str) : number :=
  match trimStart s with
  | [] => NaN
  | c :: r =>
    if c =? 45 then (if startsWithDigit r then fromInteger (- parseDigits r 0) else NaN)
    else if c =? 43 then (if startsWithDigit r then fromInteger (parseDigits r 0) else NaN)
    else if isDigit c then fromInteger (parseDigits (c :: r) 0)
    else NaN
  end.

(** Decimal digits of [n], most significant first; [fuel] bounds the number
    of digits. *)
Fixpoint digitsOf (fuel : nat) (n : N) : str :=
  match fuel with
  | O => []
  | S f => (if n <? 10 then [] else digitsOf f (n / 10)) ++ [48 + n mod 10]
  end.

Definition decimal (n : N) : str := digitsOf (S (N.to_nat (N.log2 n))) n.

(** The decimal of [k] significant digits that is nearest to [v], if it
    rounds to [v]; [n] is the number of digits of [v].  Returns the value of
    the decimal, which is an integer. *)
Definition shortestWith (v n k : Z) : option Z :=
  let p := (10 ^ (n - k))%Z in
  let lo := (v / p * p)%Z in
  let hi := (lo + p)%Z in
  let okLo := bool_decide (nearestDouble lo = Some v) in
  let okHi := bool_decide (nearestDouble hi = Some v) in
  if okLo && okHi then
    Some (if (v - lo <? hi - v)%Z then lo
          else if (hi - v <? v - lo)%Z then hi
          else if Z.even (v / p) then lo else hi)
  else if okLo then Some lo
  else if okHi then Some hi
  else None.

(** The decimal with the fewest significant digits that rounds to [v],
    tried from [k] digits on; 17 digits always do. *)
Fixpoint shortestFrom (fuel : nat) (v n k : Z) : Z :=
  match fuel with
  | O => v
  | S fuel =>
    match shortestWith v n k with
    | Some w => w
    | None => shortestFrom fuel v n (k + 1)
    end
  end.

Fixpoint dropZeros (reversed : str) : str :=
  match reversed with
  | c :: r => if c =? 48 then dropZeros r else reversed
  | [] => []
  end.

(** The text of a double of magnitude [m], an integer.  Below 2^53 every
    integer is a double and the text is its decimal digits.  From there on
    it is the shortest decimal that rounds to [m], with zeros up to 21
    digits and with an exponent beyond. *)
Definition magnitudeToString (m : Z) : str :=
  if (m <? 2 ^ 53)%Z then decimal (Z.to_N m)
  else
    let digits := decimal (Z.to_N (shortestFrom 17 m (Z.of_nat (length (decimal (Z.to_N m)))) 1)) in
    if (length digits <=? 21)%nat then digits
    else
      match rev (dropZeros (rev digits)) with
      | [] => digits
      | [d] => [d] ++ lit "e+" ++ decimal (N.of_nat (length digits - 1))
      | d :: more => [d] ++ lit "." ++ more ++ lit "e+" ++ decimal (N.of_nat (length digits - 1))
      end.

(** [String(n)], also what [join] and template literals apply to a number. *)
Definition numberToString (n : number) : str :=
  match n with
  | NaN => lit "NaN"
  | Int z => if (z <? 0)%Z then HYPHEN :: magnitudeToString (- z) else magnitudeToString z
  | Infinity negative => if negative then lit "-Infinity" else lit "Infinity"
  end.

(** Thrown values.  [AxiosError] carries what the sources read from it:
    [message], [code] and, when the server answered, the status and the
    [message] key of the response body.  [NonError] is a thrown value that
    is not an [Error]; [text] is what [String(value)] gives. *)
Record AxiosResponse := {
  response_status : Z;
  response_message : option str;
}.

Inductive exn :=
  | Error (message : str)
  | TypeError (message : str)
  | SyntaxError (message : str)
  | AxiosError (message : str) (code : option str) (response : option AxiosResponse)
  | NonError (text : str).

(** [error instanceof Error ? error.message : String(error)] *)
Definition getErrorMessage (error : exn) : str :=
  match error with
  | Error m | TypeError m | SyntaxError m | AxiosError m _ _ => m
  | NonError t => t
  end.

Inductive result (A : Type) :=
  | Return (a : A)
  | Throw (e : exn).
Global Arguments Return {A} a.
Global Arguments Throw {A} e.

Global Instance result_ret : MRet result := fun A a => Return a.

Global Instance result_bind : MBind result := fun A B k r =>
  match r with
  | Return a => k a
  | Throw e => Throw e
  end.

(** [l.map(f)] when [f] may throw: the first exception aborts the map. *)
Fixpoint mapM {A B} (f : A -> result B) (l : list A) : result (list B) :=
  match l with
  | [] => Return []
  | x :: r => y ← f x; ys ← mapM f r; Return (y :: ys)
  end.

End JS.

Export JS.

(** ** types/article.ts *)

Module Article.

(** [ArticleData].  [id] is optional in the source.  The string fields are
    [undefined] at run time when [parseCSVLine] reads a row with too few
    columns, hence the options.  [category_id] is [string | number] in the
    source; every value that reaches the store is a string (the pipeline
    stores [categoryId.toString()], the parser returns strings).  [status]
    is a string at run time: the parser stores whatever the column holds. *)
Record ArticleData := {
  id : option number;
  category_id : option str;
  title : option str;
  body : option str;
  slug : option str;
  status : str;
  meta_title : option str;
  meta_description : option str;
  api_posted : bool;
}.

(** [Partial<ArticleData>]: [None] when the key is absent from the object. *)
Record PartialArticleData := {
  upd_id : option (option number);
  upd_category_id : option (option str);
  upd_title : option (option str);
  upd_body : option (option str);
  upd_slug : option (option str);
  upd_status : option str;
  upd_meta_title : option (option str);
  upd_meta_description : option (option str);
  upd_api_posted : option bool;
}.

Record PersonaData := {
  Category : str;
  Persona_Detail : str;
  Worry_Description : str;
  Tone_Instruction : str;
  Context_Scenario : str;
}.

Record SeoKeywordData := {
  ID : str;
  keyword_Category : str;
  Main_Keyword : str;
  Sub_Keywords : str;
  User_Intent : str;
  Title_Idea : str;
}.

Record ArticleGenerationInput := {
  persona : PersonaData;
  seoKeyword : SeoKeywordData;
}.

End Article.

Export Article.

(** ** util/csvWriter.ts: the article store *)

Module CsvWriter.

(** The state of the file at [filePath]. *)
Abbreviation file := (option str).

Definition withId (article : ArticleData) (i : option number) : ArticleData :=
  {| id := i; category_id := category_id article; title := title article;
     body := body article; slug := slug article; status := status article;
     meta_title := meta_title article;
     meta_description := meta_description article;
     api_posted := api_posted article |}.

(** The message V8 gives the TypeError for [undefined.includes]. *)
Definition undefinedIncludes : str :=
  lit "Cannot read properties of undefined (reading 'includes')".

(** A field that includes a comma, a line feed or a double quote is wrapped
    in double quotes, its own quotes doubled.  Calling [includes] on
    [undefined] raises a TypeError. *)
Definition escapeCSVField (field : option str) : result str :=
  match field with
  | None => Throw (TypeError undefinedIncludes)
  | Some field =>
    if includes COMMA field || includes LF field || includes QUOTE field
    then Return ([QUOTE] ++ flat_map (fun c => if c =? QUOTE then [QUOTE; QUOTE] else [c]) field
                  ++ [QUOTE])
    else Return field
  end.

(** How [Array.prototype.join] renders an element: [undefined] is empty. *)
Definition joinText (field : option str) : str := default [] field.

Definition flagText (b : bool) : str := if b then lit "1" else lit "0".

(** The row built by [appendArticleToCSV]. *)
Definition appendLine (article : ArticleData) : result str :=
  t ← escapeCSVField (title article);
  b ← escapeCSVField (body article);
  mt ← escapeCSVField (meta_title article);
  md ← escapeCSVField (meta_description article);
  Return (join [COMMA]
    [ joinText (numberToString <$> id article); joinText (category_id article); t; b;
      joinText (slug article); status article; mt; md; flagText (api_posted article) ]).

(** The row built by [updateArticleInCSV], with [article.id || '']. *)
Definition updateLine (article : ArticleData) : result str :=
  t ← escapeCSVField (title article);
  b ← escapeCSVField (body article);
  mt ← escapeCSVField (meta_title article);
  md ← escapeCSVField (meta_description article);
  Return (join [COMMA]
    [ match id article with
      | Some n => if truthy n then numberToString n else []
      | None => []
      end;
      joinText (category_id article); t; b;
      joinText (slug article); status article; mt; md; flagText (api_posted article) ]).

(** The loop of [parseCSVLine]: [line] is what remains from index [i] on;
    on a doubled quote inside quotes the loop skips the next character. *)
Fixpoint parseFields (line : str) (currentField : str) (insideQuotes : bool)
    (fields : list str) : list str :=
  match line with
  | [] => fields ++ [currentField]
  | char :: rest =>
    if char =? QUOTE then
      match insideQuotes, rest with
      | true, nextChar :: rest' =>
        if nextChar =? QUOTE
        then parseFields rest' (currentField ++ [QUOTE]) insideQuotes fields
        else parseFields rest currentField (negb insideQuotes) fields
      | _, _ => parseFields rest currentField (negb insideQuotes) fields
      end
    else if (char =? COMMA) && negb insideQuotes then
      parseFields rest [] insideQuotes (fields ++ [currentField])
    else parseFields rest (currentField ++ [char]) insideQuotes fields
  end.

Definition parseCSVLine (line : str) : ArticleData :=
  let fields := parseFields line [] false [] in
  {| id := match fields !! 0%nat with
           | Some f => if nonEmpty f then Some (parseInt f) else None
           | None => None
           end;
     category_id := fields !! 1%nat;
     title := fields !! 2%nat;
     body := fields !! 3%nat;
     slug := fields !! 4%nat;
     status := match fields !! 5%nat with
               | Some f => if nonEmpty f then f else lit "draft"
               | None => lit "draft"
               end;
     meta_title := fields !! 6%nat;
     meta_description := fields !! 7%nat;
     api_posted := bool_decide (fields !! 8%nat = Some (lit "1")) |}.

Definition quoteCount (s : str) : nat :=
  length (filter (fun c => c = QUOTE) s).

(** The loop of [readArticlesFromCSV] that joins physical lines into
    records: a record is complete when it holds an even number of quotes. *)
Fixpoint joinRecords (lines : list str) (currentRecord : str) (records : list str)
    : list str :=
  match lines with
  | [] => if nonEmpty currentRecord then records ++ [currentRecord] else records
  | line :: rest =>
    let currentRecord :=
      (if nonEmpty currentRecord then currentRecord ++ [LF] else currentRecord) ++ line in
    let insideQuotes := negb (quoteCount currentRecord mod 2 =? 0)%nat in
    if insideQuotes then joinRecords rest currentRecord records
    else joinRecords rest [] (records ++ [currentRecord])
  end.

Definition readArticlesFromCSV (f : file) : list ArticleData :=
  match f with
  | None => []
  | Some content =>
    let lines := split LF (trim content) in
    if (length lines <=? 1)%nat then []
    else map parseCSVLine (joinRecords (tail lines) [] [])
  end.

(** [existingArticles.reduce((max, a) => (a.id && a.id > max ? a.id : max), 0)] *)
Definition maxId (existingArticles : list ArticleData) : number :=
  foldl (fun max a =>
           match id a with
           | Some n => if truthy n && greater n max then n else max
           | None => max
           end) (Int 0) existingArticles.

(** [!article.id] *)
Definition idMissing (article : ArticleData) : bool :=
  match id article with
  | Some n => negb (truthy n)
  | None => true
  end.

(** [fs.appendFileSync] creates the file when it does not exist. *)
Definition appendFileSync (f : file) (data : str) : file :=
  Some (default [] f ++ data).

(** Returns the outcome and the file afterwards.  The source assigns the
    identifier on the caller's object and returns that same object. *)
Definition appendArticleToCSV (f : file) (article : ArticleData)
    : result ArticleData * file :=
  let article :=
    if idMissing article
    then withId article (Some (addOne (maxId (readArticlesFromCSV f))))
    else article in
  match appendLine article with
  | Throw e => (Throw e, f)
  | Return csvLine => (Return article, appendFileSync f (csvLine ++ [LF]))
  end.

(** [{ ...article, ...updates }] *)
Definition merge (article : ArticleData) (updates : PartialArticleData) : ArticleData :=
  {| id := default (id article) (upd_id updates);
     category_id := default (category_id article) (upd_category_id updates);
     title := default (title article) (upd_title updates);
     body := default (body article) (upd_body updates);
     slug := default (slug article) (upd_slug updates);
     status := default (status article) (upd_status updates);
     meta_title := default (meta_title article) (upd_meta_title updates);
     meta_description := default (meta_description article) (upd_meta_description updates);
     api_posted := default (api_posted article) (upd_api_posted updates) |}.

Definition header : str := Eval vm_compute in
  lit "id,category_id,title,body,slug,status,meta_title,meta_description,api_posted".

(** [article.id === articleId] *)
Definition idIs (articleId : number) (article : ArticleData) : bool :=
  match id article with
  | Some n => strictEq n articleId
  | None => false
  end.

Definition notFoundMessage (articleId : number) : str :=
  lit "Article with id " ++ numberToString articleId ++ lit " not found in CSV".

(** What [updateArticleInCSV] writes for the in-memory sequence. *)
Definition rewriteFile (articles : list ArticleData) : result str :=
  lines ← mapM updateLine articles;
  Return (header ++ [LF] ++ join [LF] lines ++ [LF]).

Definition updateArticleInCSV (f : file) (articleId : number)
    (updates : PartialArticleData) : result unit * file :=
  let articles := readArticlesFromCSV f in
  match list_find (fun article => idIs articleId article) articles with
  | None => (Throw (Error (notFoundMessage articleId)), f)
  | Some (index, article) =>
    let articles := <[index := merge article updates]> articles in
    match rewriteFile articles with
    | Throw e => (Throw e, f)
    | Return content => (Return (), Some content)
    end
  end.

End CsvWriter.

(** ** util/csvReader.ts: the matcher *)

Module CsvReader.

Record MatchData := {
  match_persona : PersonaData;
  match_keyword : SeoKeywordData;
}.

(** [personas.find((p) => p.Category === keyword.Category)] *)
Definition findPersona (personas : list PersonaData) (keyword : SeoKeywordData)
    : option PersonaData :=
  snd <$> list_find (fun p => Category p = keyword_Category keyword) personas.

Definition matchPersonaWithKeywords (personas : list PersonaData)
    (keywords : list SeoKeywordData) : list MatchData :=
  foldl (fun matches keyword =>
           match findPersona personas keyword with
           | Some matchingPersona =>
             matches ++ [{| match_persona := matchingPersona; match_keyword := keyword |}]
           | None => matches
           end) [] keywords.

End CsvReader.

(** ** util/categoryMapper.ts: the category resolver *)

Module CategoryMapper.

Record ArticleCategory := {
  category_number : Z;   (* id *)
  name : str;
  category_slug : str;   (* slug *)
}.

(** The object literal, as its entries in insertion order. *)
Definition PERSONA_TO_CATEGORY_NAME : list (str * str) :=
  [ (lit "現役施設介護士", lit "お仕事の相談");
    (lit "潜在有資格者", lit "介護資格");
    (lit "収入・条件重視", lit "訪問介護") ].

(** ARTICLE_CATEGORIES.json is not part of the sources: the catalog is an
    argument, [None] when the file does not exist, otherwise the array that
    [JSON.parse] returns for its content. *)
Abbreviation catalog := (option (list ArticleCategory)).

Definition loadArticleCategories (categoriesPath : str) (c : catalog)
    : result (list ArticleCategory) :=
  match c with
  | None =>
    Throw (Error (lit "ARTICLE_CATEGORIES.json not found at " ++ categoriesPath
                  ++ lit ". Please create this file."))
  | Some categories => Return categories
  end.

(** [mapping[key] = value] on a plain object, kept as its own entries in
    insertion order. *)
Fixpoint setProperty (mapping : list (str * Z)) (key : str) (value : Z) : list (str * Z) :=
  match mapping with
  | [] => [(key, value)]
  | (k, v) :: rest =>
    if bool_decide (k = key) then (k, value) :: rest
    else (k, v) :: setProperty rest key value
  end.

Definition categoryNameMissing (categoryName personaCategory : str) : str :=
  lit "Category name " ++ [QUOTE] ++ categoryName ++ [QUOTE]
  ++ lit " not found in ARTICLE_CATEGORIES.json for persona "
  ++ [QUOTE] ++ personaCategory ++ [QUOTE].

(** The loop over [Object.entries(PERSONA_TO_CATEGORY_NAME)]. *)
Fixpoint fillMapping (categories : list ArticleCategory) (entries : list (str * str))
    (mapping : list (str * Z)) : result (list (str * Z)) :=
  match entries with
  | [] => Return mapping
  | (personaCategory, categoryName) :: rest =>
    match list_find (fun cat => name cat = categoryName) categories with
    | None => Throw (Error (categoryNameMissing categoryName personaCategory))
    | Some (_, category) =>
      fillMapping categories rest (setProperty mapping personaCategory (category_number category))
    end
  end.

Definition getPersonaCategoryMapping (categoriesPath : str) (c : catalog)
    : result (list (str * Z)) :=
  categories ← loadArticleCategories categoriesPath c;
  fillMapping categories PERSONA_TO_CATEGORY_NAME [].

(** The names every plain object inherits from [Object.prototype]. *)
Definition objectPrototypeKeys : list str :=
  map lit [ "constructor"; "__defineGetter__"; "__defineSetter__"; "hasOwnProperty";
            "__lookupGetter__"; "__lookupSetter__"; "isPrototypeOf";
            "propertyIsEnumerable"; "toString"; "valueOf"; "__proto__";
            "toLocaleString" ]%string.

(** What [mapping[key]] evaluates to: a number stored in the object itself,
    or the member of [Object.prototype] of that name. *)
Inductive property :=
  | Own (value : Z)
  | Inherited (key : str).

Definition ownProperty (key : str) (mapping : list (str * Z)) : option Z :=
  snd <$> (snd <$> list_find (fun entry => entry.1 = key) mapping).

(** [key in mapping]: the operator also searches the prototype chain. *)
Definition hasProperty (key : str) (mapping : list (str * Z)) : bool :=
  bool_decide (is_Some (ownProperty key mapping))
  || bool_decide (key ∈ objectPrototypeKeys).

Definition getProperty (key : str) (mapping : list (str * Z)) : property :=
  match ownProperty key mapping with
  | Some value => Own value
  | None => Inherited key
  end.

Definition personaCategoryMissing (personaCategory : str) (keys : list str) : str :=
  lit "Persona category " ++ [QUOTE] ++ personaCategory ++ [QUOTE]
  ++ lit " not found. Available categories: " ++ join (lit ", ") keys.

Definition getCategoryIdFromPersona (categoriesPath : str) (c : catalog)
    (personaCategory : str) : result property :=
  mapping ← getPersonaCategoryMapping categoriesPath c;
  if negb (hasProperty personaCategory mapping)
  then Throw (Error (personaCategoryMissing personaCategory (map fst mapping)))
  else Return (getProperty personaCategory mapping).

End CategoryMapper.

(** ** services/article/articleGenerator.ts: the generation client *)

Module ArticleGenerator.

Record ArticleGenerationResponse := {
  draft_title : str;
  draft_body : str;
  draft_slug : str;
}.

(** The object that [JSON.parse] returns, read at the type the source gives
    it: a key is [None] when the object does not have it. *)
Record parsedDraft := {
  parsed_title : option str;
  parsed_body : option str;
  parsed_slug : option str;
}.

Fixpoint fromFirst (c : N) (s : str) : option str :=
  match s with
  | [] => None
  | x :: r => if x =? c then Some s else fromFirst c r
  end.

(** The longest prefix of [s] that ends with [c]. *)
Fixpoint uptoLast (c : N) (s : str) : option str :=
  match s with
  | [] => None
  | x :: r =>
    match uptoLast c r with
    | Some p => Some (x :: p)
    | None => if x =? c then Some [x] else None
    end
  end.

(** [generatedText.match(/\{[\s\S]*\}/)]: the leftmost opening brace, then
    greedily everything up to the last closing brace. *)
Definition jsonMatch (generatedText : str) : option str :=
  match fromFirst LBRACE generatedText with
  | Some (brace :: rest) => cons brace <$> uptoLast RBRACE rest
  | _ => None
  end.

(** [toLowerCase] on one code unit.  Only the mappings whose image meets the
    slug alphabet are written out (A-Z, the Kelvin sign, and the dotted
    capital I, which becomes i followed by a combining dot); every other
    code unit is kept: it and its lower-case form both lie outside the slug
    alphabet, so [generateSlug] does not tell them apart. *)
Definition toLowerCase (s : str) : str :=
  flat_map (fun c =>
    if (65 <=? c) && (c <=? 90) then [c + 32]
    else if c =? 8490 then [107]
    else if c =? 304 then [105; 775]
    else [c]) s.

(** The class of the regular expression: a-z, 0-9, and the code units
    U+3040 to U+309F, U+30A0 to U+30FF and U+4E00 to U+9FAF. *)
Definition slugChar (c : N) : bool :=
  ((97 <=? c) && (c <=? 122)) || ((48 <=? c) && (c <=? 57))
  || ((12352 <=? c) && (c <=? 12447)) || ((12448 <=? c) && (c <=? 12543))
  || ((19968 <=? c) && (c <=? 40879)).

(** [.replace(/[^...]+/g, '-')]: every maximal run of other characters
    becomes one hyphen; [inRun] tells that the run has been replaced. *)
Fixpoint replaceRuns (s : str) (inRun : bool) : str :=
  match s with
  | [] => []
  | c :: r =>
    if slugChar c then c :: replaceRuns r false
    else if inRun then replaceRuns r true
    else HYPHEN :: replaceRuns r true
  end.

Fixpoint dropLastHyphen (s : str) : str :=
  match s with
  | [] => []
  | [c] => if c =? HYPHEN then [] else [c]
  | c :: r => c :: dropLastHyphen r
  end.

(** [.replace(/^-|-$/g, '')]: one hyphen at the start and one at the end. *)
Definition trimHyphens (s : str) : str :=
  dropLastHyphen
    match s with
    | c :: r => if c =? HYPHEN then r else s
    | [] => []
    end.

Definition generateSlug (title : str) : str :=
  take 100 (trimHyphens (replaceRuns (toLowerCase title) false)).

(** [!value] on an optional string. *)
Definition blank (value : option str) : bool :=
  match value with
  | Some (_ :: _) => false
  | _ => true
  end.

Section Generator.

(** [JSON.parse], with the message of the SyntaxError on the left. *)
Variable JSON_parse : str -> str + parsedDraft.

(** What [generateArticleDraft] does with the reply text. *)
Definition parseReply (generatedText : str) : result ArticleGenerationResponse :=
  match jsonMatch generatedText with
  | None => Throw (Error (lit "Failed to parse JSON from model response"))
  | Some json =>
    match JSON_parse json with
    | inl message => Throw (Error (lit "Failed to parse JSON: " ++ message))
    | inr parsed =>
      if blank (parsed_title parsed) || blank (parsed_body parsed)
      then Throw (Error (lit "Generated article is missing required fields (title or body)"))
      else
        let title := default [] (parsed_title parsed) in
        Return {| draft_title := title;
                  draft_body := default [] (parsed_body parsed);
                  draft_slug := if blank (parsed_slug parsed) then generateSlug title
                                else default [] (parsed_slug parsed) |}
    end
  end.

(** [reply] is the outcome of the POST to the model service: the [response]
    text of the body, or the error axios rejects with, which the catch
    block logs and throws again. *)
Definition generateArticleDraft (reply : result str) : result ArticleGenerationResponse :=
  match reply with
  | Throw error => Throw error
  | Return generatedText => parseReply generatedText
  end.

End Generator.

End ArticleGenerator.

(** ** services/article/articlePipeline.ts: the batch driver *)

Module ArticlePipeline.

Inductive logType := info | success | warn | error.

(** What the driver does to the outside, in order: a line on the console,
    a call of [generateArticle] (the [index]-th of the batch), a pause. *)
Inductive event :=
  | outputConsole (type : logType) (message : str)
  | generateArticleCall (index : nat) (input : ArticleGenerationInput)
  | sleep (ms : Z).

Definition count (n : nat) : str := decimal (N.of_nat n).

Section Batch.

(** [generateArticle] calls two model services; its outcome on the
    [index]-th call is an argument. *)
Variable generateArticle : nat -> ArticleGenerationInput -> result ArticleData.

(** The body of the for loop, from index [i] on; [len] is [inputs.length]. *)
Fixpoint generateLoop (len i : nat) (inputs : list ArticleGenerationInput)
    (articles : list ArticleData) (trace : list event)
    : list ArticleData * list event :=
  match inputs with
  | [] => (articles, trace)
  | input :: rest =>
    let trace :=
      trace ++ [ outputConsole info ([LF] ++ lit "[" ++ count (i + 1) ++ lit "/" ++ count len ++ lit "] 処理中...");
                 generateArticleCall i input ] in
    match generateArticle i input with
    | Return article =>
      let articles := articles ++ [article] in
      if (i <? len - 1)%nat
      then generateLoop len (S i) rest articles (trace ++ [sleep 2000])
      else generateLoop len (S i) rest articles trace
    | Throw e =>
      generateLoop len (S i) rest articles
        (trace ++ [outputConsole error (lit "記事生成に失敗: " ++ getErrorMessage e)])
    end
  end.

Definition generateMultipleArticles (inputs : list ArticleGenerationInput)
    : list ArticleData * list event :=
  let len := length inputs in
  let '(articles, trace) :=
    generateLoop len 0 inputs []
      [outputConsole info (count len ++ lit "件の記事を生成します")] in
  (articles,
   trace ++ [outputConsole success
               ([LF] ++ lit "全体完了: " ++ count (length articles) ++ lit "/" ++ count len
                ++ lit "件の記事を生成しました")]).

End Batch.

End ArticlePipeline.

(** ** services/laravel/articlePublisher.ts: the publisher *)

Module ArticlePublisher.

Record ArticlePublishResponse := {
  publish_success : bool;            (* success *)
  articleId : option Z;
  publish_message : option str;      (* message *)
}.

(** [config.laravel] *)
Record LaravelConfig := {
  store : str;       (* endpoints.store *)
  apiToken : str;
}.

(** The [article] key of a response body: missing or otherwise falsy, or an
    object with the [id] it carries, if it carries one. *)
Inductive ArticleKey := NoArticle | ArticleObject (article_id : option Z).

(** The outcome of [axios.post]: a response with its status and body, or a
    rejection.  [response_data] is [None] when the body is [null];
    otherwise it holds the [article] key of the body.  The body is looked at
    only when the status is 201. *)
Record PostResponse := {
  post_status : Z;
  response_data : option ArticleKey;
}.

Definition statusText (response : option AxiosResponse) : str :=
  match response with
  | Some r => if (response_status r =? 0)%Z then lit "N/A"
              else numberToString (Int (response_status r))
  | None => lit "N/A"
  end.

(** [a || b || 'Unknown error'] *)
Definition firstNonEmpty (a : option str) (b : str) : str :=
  match a with
  | Some (c :: r) => c :: r
  | _ => match b with
         | [] => lit "Unknown error"
         | _ => b
         end
  end.

(** The message V8 gives the TypeError for reading [article] off [null]. *)
Definition nullArticle : str :=
  lit "Cannot read properties of null (reading 'article')".

Definition publishArticleToLaravel (mockMode : bool) (random : Z)
    (config : LaravelConfig) (post : result PostResponse) (article : ArticleData)
    : result ArticlePublishResponse :=
  if mockMode then
    Return {| publish_success := true; articleId := Some random;
              publish_message := Some (lit "Mock mode: Article published successfully") |}
  else if negb (nonEmpty (store config)) then
    Throw (Error (lit "Laravel API store endpoint is not configured"))
  else if negb (nonEmpty (apiToken config)) then
    Throw (Error (lit "Laravel API token is not configured"))
  else
    let attempt : result ArticlePublishResponse :=
      response ← post;
      if (post_status response =? 201)%Z then
        match response_data response with
        | None => Throw (TypeError nullArticle)
        | Some (ArticleObject article_id) =>
          Return {| publish_success := true; articleId := article_id;
                    publish_message := Some (lit "Article published successfully") |}
        | Some NoArticle =>
          Return {| publish_success := false; articleId := None;
                    publish_message := Some (lit "Failed to publish article") |}
        end
      else
        Return {| publish_success := false; articleId := None;
                  publish_message := Some (lit "Failed to publish article") |} in
    match attempt with
    | Return r => Return r
    | Throw (AxiosError message code response) =>
      let errorMessage := firstNonEmpty (response ≫= response_message) message in
      Return {| publish_success := false; articleId := None;
                publish_message :=
                  Some (lit "API Error (" ++ statusText response ++ lit "): " ++ errorMessage) |}
    | Throw e =>
      Return {| publish_success := false; articleId := None;
                publish_message := Some (lit "Unexpected error: " ++ getErrorMessage e) |}
    end.

End ArticlePublisher.

(** ** Notions the properties are stated with *)

Module Notions.

Import CsvWriter CsvReader ArticleGenerator.

(** A literal in which the apostrophe stands for the double quote. *)
Definition litq (s : string) : str :=
  map (fun c => if c =? 39 then QUOTE else c) (lit s).

(** No comma, no line feed, no double quote: the text that
    [escapeCSVField] leaves as it is. *)
Definition plain (s : str) : bool :=
  negb (includes COMMA s || includes LF s || includes QUOTE s).

Definition plainField (field : option str) : bool :=
  match field with
  | Some s => plain s
  | None => false
  end.

Definition present (field : option str) : bool :=
  match field with
  | Some _ => true
  | None => false
  end.

(** [Number.isSafeInteger]: the integers of magnitude below 2^53, which
    are doubles each and are printed with all their digits. *)
Definition safeInteger (n : number) : bool :=
  match n with
  | Int z => (Z.abs z <? 2 ^ 53)%Z
  | _ => false
  end.

(** The records that the store writes and reads back unchanged: all nine
    columns are there, the identifier is absent or a non-zero safe integer,
    and the three columns that are written as they are ([category_id],
    [slug], [status]) are plain, [status] not being empty.  Nothing is asked
    of [title], [body], [meta_title] and [meta_description]. *)
Definition storable (a : ArticleData) : bool :=
  match id a with
  | None => true
  | Some n => truthy n && safeInteger n
  end
  && plainField (category_id a) && present (title a) && present (body a)
  && plainField (slug a) && plain (status a) && nonEmpty (status a)
  && present (meta_title a) && present (meta_description a).

(** The integer identifiers of a sequence of records. *)
Definition existingIds (articles : list ArticleData) : list Z :=
  omap (fun a => match id a with
                 | Some (Int z) => Some z
                 | _ => None
                 end) articles.

(** The largest of [ids], and 0 when there is none; identifiers are positive
    integers. *)
Definition largest (ids : list Z) : Z := foldr Z.max 0%Z ids.

(** Standard CSV, as the spec asks of the article file: a field is either
    bare, without comma, quote or line feed, or enclosed in double quotes
    with every quote inside doubled; fields are separated by commas and
    records by line feeds, the last of which may be followed by one. *)
Fixpoint quotedField (s : str) (field : str) : option (str * str) :=
  match s with
  | [] => None
  | c :: r =>
    if c =? QUOTE then
      match r with
      | c' :: r' => if c' =? QUOTE then quotedField r' (field ++ [QUOTE]) else Some (field, r)
      | [] => Some (field, [])
      end
    else quotedField r (field ++ [c])
  end.

Fixpoint bareField (s : str) (field : str) : option (str * str) :=
  match s with
  | [] => Some (field, [])
  | c :: r =>
    if (c =? COMMA) || (c =? LF) then Some (field, s)
    else if c =? QUOTE then None
    else bareField r (field ++ [c])
  end.

Definition standardField (s : str) : option (str * str) :=
  match s with
  | c :: r => if c =? QUOTE then quotedField r [] else bareField s []
  | [] => Some ([], [])
  end.

Fixpoint standardRecords (fuel : nat) (s : str) (fields : list str)
    (records : list (list str)) : option (list (list str)) :=
  match fuel with
  | O => None
  | S fuel =>
    '(field, rest) ← standardField s;
    match rest with
    | [] => Some (records ++ [fields ++ [field]])
    | c :: rest' =>
      if c =? COMMA then standardRecords fuel rest' (fields ++ [field]) records
      else if c =? LF then
        match rest' with
        | [] => Some (records ++ [fields ++ [field]])
        | _ => standardRecords fuel rest' [] (records ++ [fields ++ [field]])
        end
      else None
    end
  end.

Definition positiveInteger (s : str) : bool :=
  nonEmpty s && forallb isDigit s && negb (forallb (fun c => c =? 48) s).

(** A well-formed article file: standard CSV, the header row, then rows of
    nine columns with a positive integer [id], a [status] that is draft or
    published and an [api_posted] that is 0 or 1. *)
Definition wellFormedRow (row : list str) : bool :=
  match row with
  | [i; _; _; _; _; st; _; _; posted] =>
    positiveInteger i
    && (bool_decide (st = lit "draft") || bool_decide (st = lit "published"))
    && (bool_decide (posted = lit "0") || bool_decide (posted = lit "1"))
  | _ => false
  end.

Definition wellFormedArticleFile (content : str) : bool :=
  match standardRecords (S (length content)) content [] [] with
  | Some (h :: rows) =>
    bool_decide (h = split COMMA header) && forallb wellFormedRow rows
  | _ => false
  end.

(** [p] is the first of [personas] whose Category is [c]. *)
Definition firstWithCategory (personas : list PersonaData) (c : str) (p : PersonaData)
    : Prop :=
  ∃ before after, personas = before ++ p :: after ∧ Category p = c
    ∧ Forall (fun q => Category q ≠ c) before.

(** The spec's words for the extraction of the generation client: the first
    balanced brace-delimited substring.  [closeBalanced s depth] reads up to
    the brace that closes the object, [depth] inner objects being open. *)
Fixpoint closeBalanced (s : str) (depth : nat) : option str :=
  match s with
  | [] => None
  | c :: r =>
    if c =? RBRACE then
      match depth with
      | O => Some [c]
      | S d => cons c <$> closeBalanced r d
      end
    else if c =? LBRACE then cons c <$> closeBalanced r (S depth)
    else cons c <$> closeBalanced r depth
  end.

Fixpoint firstBalanced (s : str) : option str :=
  match s with
  | [] => None
  | c :: r =>
    if c =? LBRACE then
      match closeBalanced r 0 with
      | Some object => Some (c :: object)
      | None => firstBalanced r
      end
    else firstBalanced r
  end.

End Notions.

(** ** Auxiliary functions of the proofs about the store *)

Module StoreAux.

Import CsvWriter Notions.

Definition doubled (s : str) : str :=
  flat_map (fun c => if c =? QUOTE then [QUOTE; QUOTE] else [c]) s.

(** The text that [escapeCSVField] returns for a string. *)
Definition escaped (s : str) : str :=
  if plain s then s else [QUOTE] ++ doubled s ++ [QUOTE].

(** The identifier column as [updateArticleInCSV] writes it. *)
Definition idText (i : option number) : str :=
  match i with
  | Some n => if truthy n then numberToString n else []
  | None => []
  end.

(** The row of a record whose columns are all there. *)
Definition rowOf (i c t b s st mt md flag : str) : str :=
  join [COMMA] [i; c; escaped t; escaped b; s; st; escaped mt; escaped md; flag].

(** [quoteCount s] is odd. *)
Definition oddQuotes (s : str) : bool := negb (quoteCount s mod 2 =? 0)%nat.

(** Reads [s] from a position where the number of quotes seen is odd or
    not ([odd]); fails on a line feed met at an even count, otherwise
    returns the parity at the end. *)
Fixpoint recordScan (s : str) (odd : bool) : option bool :=
  match s with
  | [] => Some odd
  | c :: r =>
    if c =? QUOTE then recordScan r (negb odd)
    else if c =? LF then (if odd then recordScan r odd else None)
    else recordScan r odd
  end.

(** [currentRecord] after a further line has been added to it. *)
Definition extend (currentRecord line : str) : str :=
  (if nonEmpty currentRecord then currentRecord ++ [LF] else currentRecord) ++ line.

(** The first field that [parseFields] completes, without what
    [currentField] already holds. *)
Fixpoint firstField (line : str) (insideQuotes : bool) : str :=
  match line with
  | [] => []
  | char :: rest =>
    if char =? QUOTE then
      match insideQuotes, rest with
      | true, nextChar :: rest' =>
        if nextChar =? QUOTE then QUOTE :: firstField rest' insideQuotes
        else firstField rest (negb insideQuotes)
      | _, _ => firstField rest (negb insideQuotes)
      end
    else if (char =? COMMA) && negb insideQuotes then []
    else char :: firstField rest insideQuotes
  end.

(** The row of a record, absent columns being empty. *)
Definition rowOfArticle (a : ArticleData) : str :=
  rowOf (idText (id a)) (default [] (category_id a)) (default [] (title a))
    (default [] (body a)) (default [] (slug a)) (status a)
    (default [] (meta_title a)) (default [] (meta_description a))
    (flagText (api_posted a)).

(** The file that [updateArticleInCSV] writes for a sequence of records. *)
Definition storeFile (articles : list ArticleData) : str :=
  header ++ [LF] ++ join [LF] (map rowOfArticle articles) ++ [LF].

(** The updates that keep a storable record storable. *)
Definition keepsStorable (updates : PartialArticleData) : bool :=
  match upd_id updates with
  | Some (Some n) => truthy n && safeInteger n
  | _ => true
  end
  && from_option plainField true (upd_category_id updates)
  && from_option present true (upd_title updates)
  && from_option present true (upd_body updates)
  && from_option plainField true (upd_slug updates)
  && from_option (fun st => plain st && nonEmpty st) true (upd_status updates)
  && from_option present true (upd_meta_title updates)
  && from_option present true (upd_meta_description updates).

(** The spec's words for an update: a field that the partial record holds
    has the given value afterwards, any other field the value it had. *)
Definition targeted {A} (given : option A) (before after : A) : Prop :=
  match given with
  | Some value => after = value
  | None => after = before
  end.

Definition changesOnly (updates : PartialArticleData) (before after : ArticleData) : Prop :=
  targeted (upd_id updates) (id before) (id after)
  ∧ targeted (upd_category_id updates) (category_id before) (category_id after)
  ∧ targeted (upd_title updates) (title before) (title after)
  ∧ targeted (upd_body updates) (body before) (body after)
  ∧ targeted (upd_slug updates) (slug before) (slug after)
  ∧ targeted (upd_status updates) (status before) (status after)
  ∧ targeted (upd_meta_title updates) (meta_title before) (meta_title after)
  ∧ targeted (upd_meta_description updates) (meta_description before) (meta_description after)
  ∧ targeted (upd_api_posted updates) (api_posted before) (api_posted after).

(** The four columns that [escapeCSVField] is applied to are strings, as
    the type of [ArticleData] has it. *)
Definition typed (a : ArticleData) : bool :=
  present (title a) && present (body a) && present (meta_title a)
  && present (meta_description a).

End StoreAux.

(** ** Records and files used as examples *)

Module Examples.

Import CsvWriter Notions.

Definition noUpdates : PartialArticleData :=
  {| upd_id := None; upd_category_id := None; upd_title := None; upd_body := None;
     upd_slug := None; upd_status := None; upd_meta_title := None;
     upd_meta_description := None; upd_api_posted := None |}.

(** [{ api_posted: true }], the update the batch drivers apply. *)
Definition markPosted : PartialArticleData :=
  {| upd_id := None; upd_category_id := None; upd_title := None; upd_body := None;
     upd_slug := None; upd_status := None; upd_meta_title := None;
     upd_meta_description := None; upd_api_posted := Some true |}.

(** A record without identifier whose body holds commas, quotes and line
    feeds. *)
Definition draft : ArticleData :=
  {| id := None; category_id := Some (lit "3"); title := Some (lit "Care work, part 1");
     body := Some (litq "She said 'rest', then
left, smiling.");
     slug := Some (lit "care-work-1"); status := lit "draft";
     meta_title := Some (lit "Care work"); meta_description := Some (lit "About care, work");
     api_posted := false |}.

(** The header row alone. *)
Definition emptyStore : file := Some (header ++ [LF]).

(** The store after [draft] has been appended twice. *)
Definition twoArticles : file :=
  (appendArticleToCSV (appendArticleToCSV emptyStore draft).2 draft).2.

(** A standard CSV file whose first row has a quoted slug with a comma. *)
Definition quotedSlug : str :=
  header ++ [LF] ++ litq "1,3,T,B,'a,b',draft,MT,MD,0" ++ [LF]
  ++ litq "2,3,T2,B2,s2,draft,MT2,MD2,0" ++ [LF].

End Examples.

(** ** Further examples *)

Module MoreExamples.

Import CsvReader CategoryMapper ArticleGenerator ArticlePipeline ArticlePublisher Notions.

Definition personaOf (c : str) : PersonaData :=
  {| Category := c; Persona_Detail := []; Worry_Description := [];
     Tone_Instruction := []; Context_Scenario := [] |}.

Definition keywordOf (i c : str) : SeoKeywordData :=
  {| ID := i; keyword_Category := c; Main_Keyword := []; Sub_Keywords := [];
     User_Intent := []; Title_Idea := [] |}.

Definition inputOf (i c : str) : ArticleGenerationInput :=
  {| persona := personaOf c; seoKeyword := keywordOf i c |}.

(** A catalog that holds the three names of the static table. *)
Definition threeCategories : catalog :=
  Some [ {| category_number := 1; name := lit "訪問介護"; category_slug := lit "visit" |};
         {| category_number := 2; name := lit "介護資格"; category_slug := lit "license" |};
         {| category_number := 3; name := lit "お仕事の相談"; category_slug := lit "work" |} ].

Definition categoriesPath : str := lit "/app/src/data/ARTICLE_CATEGORIES.json".

(** The reply of the spec's example and the object in it. *)
Definition objectText : str := litq "{'title':'T','body':'B'}".
Definition sureReply : str := lit "Sure! " ++ objectText.

(** A stand-in for [JSON.parse] that knows [objectText] only. *)
Definition parseObjectText (s : str) : str + parsedDraft :=
  if bool_decide (s = objectText)
  then inr {| parsed_title := Some (lit "T"); parsed_body := Some (lit "B");
              parsed_slug := None |}
  else inl (lit "Unexpected token").

(** Two objects in one reply. *)
Definition twoObjects : str := objectText ++ lit " {}".

Definition secondArticle : ArticleData :=
  {| id := None; category_id := Some (lit "3"); title := Some (lit "second");
     body := Some (lit "B"); slug := Some (lit "second"); status := lit "draft";
     meta_title := Some (lit "MT"); meta_description := Some (lit "MD");
     api_posted := false |}.

(** The first call is rejected, the second one succeeds. *)
Definition firstFails (index : nat) (input : ArticleGenerationInput) : result ArticleData :=
  match index with
  | O => Throw (Error (lit "First article failed"))
  | _ => Return secondArticle
  end.

Definition configured : LaravelConfig :=
  {| store := lit "http://localhost:9000/api/articles"; apiToken := lit "token" |}.

Definition timeout : exn :=
  AxiosError (lit "timeout of 30000ms exceeded") (Some (lit "ECONNABORTED")) None.

End MoreExamples.

(** ** Auxiliary functions of the proofs about the other components *)

Module MatcherAux.

Import CsvReader.

(** The task that a keyword gives, if any. *)
Definition taskOf (personas : list PersonaData) (keyword : SeoKeywordData)
    : option MatchData :=
  (fun p => {| match_persona := p; match_keyword := keyword |}) <$> findPersona personas keyword.

End MatcherAux.

Module ResolverAux.

Import CategoryMapper.

(** The labels of the static table. *)
Definition labels : list str := PERSONA_TO_CATEGORY_NAME.*1.

(** The id of the first catalog entry of a name. *)
Definition idOfName (categories : list ArticleCategory) (categoryName : str) : option Z :=
  category_number <$> (snd <$> list_find (fun cat => name cat = categoryName) categories).

End ResolverAux.

Module PipelineAux.

Import ArticlePipeline.

Section Batch.

Variable generateArticle : nat -> ArticleGenerationInput -> result ArticleData.

(** The record that the [i]-th call gives, if it succeeds. *)
Definition generated (i : nat) (input : ArticleGenerationInput) : option ArticleData :=
  match generateArticle i input with
  | Return article => Some article
  | Throw _ => None
  end.

(** What one turn of the loop does to the outside. *)
Definition turn (len i : nat) (input : ArticleGenerationInput) : list event :=
  [ outputConsole info ([LF] ++ lit "[" ++ count (i + 1) ++ lit "/" ++ count len
                        ++ lit "] 処理中...");
    generateArticleCall i input ]
  ++ match generateArticle i input with
     | Return _ => if (i <? len - 1)%nat then [sleep 2000] else []
     | Throw e => [outputConsole error (lit "記事生成に失敗: " ++ getErrorMessage e)]
     end.

Fixpoint turns (len i : nat) (inputs : list ArticleGenerationInput) : list event :=
  match inputs with
  | [] => []
  | input :: rest => turn len i input ++ turns len (S i) rest
  end.

Fixpoint successes (i : nat) (inputs : list ArticleGenerationInput) : list ArticleData :=
  match inputs with
  | [] => []
  | input :: rest =>
    match generated i input with
    | Some article => article :: successes (S i) rest
    | None => successes (S i) rest
    end
  end.

End Batch.

End PipelineAux.

(** ** util/csvReader.ts: the persona and keyword files *)

Module CsvReaderFiles.

Import CsvWriter.

(** The objects that the two readers build.  A key is [None] ([undefined])
    when the row has fewer columns than the key's index. *)
Record PersonaRow := {
  row_Category : option str;
  row_Persona_Detail : option str;
  row_Worry_Description : option str;
  row_Tone_Instruction : option str;
  row_Context_Scenario : option str;
}.

Record SeoKeywordRow := {
  row_ID : option str;
  row_keyword_Category : option str;
  row_Main_Keyword : option str;
  row_Sub_Keywords : option str;
  row_User_Intent : option str;
  row_Title_Idea : option str;
}.

(** The message Node gives the error of [fs.readFileSync] on a missing
    path. *)
Definition noSuchFile (filePath : str) : str :=
  lit "ENOENT: no such file or directory, open '" ++ filePath ++ lit "'".

Definition parseCSV (filePath : str) (f : file) : result (list (list str)) :=
  match f with
  | None => Throw (Error (noSuchFile filePath))
  | Some content => Return (map (split COMMA) (split LF (trim content)))
  end.

Definition readPersonaCSV (filePath : str) (f : file) : result (list PersonaRow) :=
  rows ← parseCSV filePath f;
  Return (map (fun row =>
                 {| row_Category := row !! 0%nat;
                    row_Persona_Detail := row !! 1%nat;
                    row_Worry_Description := row !! 2%nat;
                    row_Tone_Instruction := row !! 3%nat;
                    row_Context_Scenario := row !! 4%nat |}) (tail rows)).

Definition readSeoKeywordCSV (filePath : str) (f : file) : result (list SeoKeywordRow) :=
  rows ← parseCSV filePath f;
  Return (map (fun row =>
                 {| row_ID := row !! 0%nat;
                    row_keyword_Category := row !! 1%nat;
                    row_Main_Keyword := row !! 2%nat;
                    row_Sub_Keywords := row !! 3%nat;
                    row_User_Intent := row !! 4%nat;
                    row_Title_Idea := row !! 5%nat |}) (tail rows)).

End CsvReaderFiles.

(** ** services/article/seoOptimizer.ts: the optimizer *)

Module SeoOptimizer.

Import ArticleGenerator.

Record SeoOptimizedArticle := {
  seo_title : str;
  seo_body : str;
  seo_slug : str;
  seo_meta_title : str;
  seo_meta_description : str;
}.

(** The object that [JSON.parse] returns, read at the type the source gives
    it. *)
Record parsedOptimized := {
  optimized_title : option str;
  optimized_body : option str;
  optimized_slug : option str;
  optimized_meta_title : option str;
  optimized_meta_description : option str;
}.

Section Optimizer.

Variable JSON_parse : str -> str + parsedOptimized.

(** What [optimizeArticleForSEO] does with the reply text. *)
Definition parseOptimized (draft : ArticleGenerationResponse) (generatedText : str)
    : result SeoOptimizedArticle :=
  match jsonMatch generatedText with
  | None => Throw (Error (lit "Failed to parse JSON from SEO model response"))
  | Some json =>
    match JSON_parse json with
    | inl message => Throw (Error (lit "Failed to parse JSON: " ++ message))
    | inr parsed =>
      if blank (optimized_title parsed) || blank (optimized_body parsed)
         || blank (optimized_meta_title parsed) || blank (optimized_meta_description parsed)
      then Throw (Error (lit "SEO optimized article is missing required fields (title, body, meta_title, or meta_description)"))
      else
        Return {| seo_title := default [] (optimized_title parsed);
                  seo_body := default [] (optimized_body parsed);
                  seo_slug := if blank (optimized_slug parsed) then draft_slug draft
                              else default [] (optimized_slug parsed);
                  seo_meta_title := default [] (optimized_meta_title parsed);
                  seo_meta_description := default [] (optimized_meta_description parsed) |}
    end
  end.

(** [reply] is the outcome of the POST to the model service; the catch
    block logs the error and throws it again. *)
Definition optimizeArticleForSEO (draft : ArticleGenerationResponse) (reply : result str)
    : result SeoOptimizedArticle :=
  match reply with
  | Throw error => Throw error
  | Return generatedText => parseOptimized draft generatedText
  end.

End Optimizer.

End SeoOptimizer.

(** ** services/article/articlePipeline.ts: one article *)

Module PipelineStages.

Import CategoryMapper ArticleGenerator SeoOptimizer ArticlePipeline.

(** [categoryId.toString()] and the text a template literal gives it.
    [inheritedText key] is the text of the member of [Object.prototype] of
    that name, which depends on the engine. *)
Definition propertyText (inheritedText : str -> str) (p : property) : str :=
  match p with
  | Own value => numberToString (Int value)
  | Inherited key => inheritedText key
  end.

Section Stages.

Variable JSON_parse_draft : str -> str + parsedDraft.
Variable JSON_parse_seo : str -> str + parsedOptimized.
Variable inheritedText : str -> str.
Variable categoriesPath : str.
Variable c : catalog.

(** [draftReply] and [seoReply] are the outcomes of the two model calls; the
    second call is made only when the first stage has returned. *)
Definition generateArticle (draftReply seoReply : result str) (input : ArticleGenerationInput)
    : result ArticleData * list event :=
  let trace :=
    [ outputConsole info (lit "記事生成開始: " ++ Title_Idea (seoKeyword input));
      outputConsole info (lit "  ステップ1: 記事生成モデルで初稿を作成中...") ] in
  match generateArticleDraft JSON_parse_draft draftReply with
  | Throw e => (Throw e, trace)
  | Return draft =>
    let trace :=
      trace ++ [ outputConsole success (lit "  ✓ 初稿完成: " ++ draft_title draft);
                 outputConsole info (lit "  ステップ2: SEOモデルで最適化中...") ] in
    match optimizeArticleForSEO JSON_parse_seo draft seoReply with
    | Throw e => (Throw e, trace)
    | Return optimized =>
      let trace :=
        trace ++ [outputConsole success (lit "  ✓ SEO最適化完了: " ++ seo_title optimized)] in
      match getCategoryIdFromPersona categoriesPath c (Category (persona input)) with
      | Throw e => (Throw e, trace)
      | Return categoryId =>
        let article :=
          {| id := None;
             category_id := Some (propertyText inheritedText categoryId);
             title := Some (seo_title optimized);
             body := Some (seo_body optimized);
             slug := Some (seo_slug optimized);
             status := lit "draft";
             meta_title := Some (seo_meta_title optimized);
             meta_description := Some (seo_meta_description optimized);
             api_posted := false |} in
        (Return article,
         trace ++ [outputConsole success (lit "記事生成完了: " ++ seo_title optimized)])
      end
    end
  end.

End Stages.

End PipelineStages.

(** ** What the two batch scripts share *)

Module Scripts.

Import CsvWriter ArticlePipeline.

(** What a script does to the outside, in order: a line printed with
    [outputConsole], a call of [generateArticle] or of
    [publishArticleToLaravel] (for the [index]-th item of the batch), a
    pause.  What the called functions print themselves is not recorded. *)
Inductive effect :=
  | console (type : logType) (message : str)
  | generating (index : nat) (input : ArticleGenerationInput)
  | publishing (index : nat) (article : ArticleData)
  | sleeping (ms : Z).

(** The article file, the counters and the effects so far. *)
Record state (Stats : Type) := {
  articleFile : file;
  stats : Stats;
  effects : list effect;
}.
Global Arguments articleFile {Stats} _.
Global Arguments stats {Stats} _.
Global Arguments effects {Stats} _.

Definition emit {Stats} (e : effect) (s : state Stats) : state Stats :=
  {| articleFile := articleFile s; stats := stats s; effects := effects s ++ [e] |}.

Definition setFile {Stats} (f : file) (s : state Stats) : state Stats :=
  {| articleFile := f; stats := stats s; effects := effects s |}.

Definition setStats {Stats} (st : Stats) (s : state Stats) : state Stats :=
  {| articleFile := articleFile s; stats := st; effects := effects s |}.

(** The text that a template literal gives an optional string. *)
Definition templateText (field : option str) : str := default (lit "undefined") field.

(** The text that a template literal gives an optional number. *)
Definition templateNumber (n : option number) : str :=
  from_option numberToString (lit "undefined") n.

(** [updateArticleInCSV(articlePath, article.id!, updates)].  The assertion
    is erased at run time: for a record without identifier the function
    receives [undefined], which is strictly equal to the [id] of a stored
    record that has none, and which the message prints as undefined. *)
Definition updateArticleOf (f : file) (articleId : option number)
    (updates : PartialArticleData) : result unit * file :=
  match articleId with
  | Some articleId => updateArticleInCSV f articleId updates
  | None =>
    let articles := readArticlesFromCSV f in
    match list_find (fun article => bool_decide (id article = None)) articles with
    | None => (Throw (Error (lit "Article with id undefined not found in CSV")), f)
    | Some (index, article) =>
      let articles := <[index := merge article updates]> articles in
      match rewriteFile articles with
      | Throw e => (Throw e, f)
      | Return content => (Return (), Some content)
      end
    end
  end.

(** [if (result.articleId)]: the line is printed for a non-zero id. *)
Definition articleIdLine (articleId : option Z) : list effect :=
  match articleId with
  | Some z => if (z =? 0)%Z then []
              else [console success (lit "    Laravel記事ID: " ++ numberToString (Int z))]
  | None => []
  end.

(** The line that opens the turn of item [i] of [len]. *)
Definition turnLine (i len : nat) (doing : str) : effect :=
  console info ([LF] ++ lit "[" ++ count (i + 1) ++ lit "/" ++ count len ++ lit "] " ++ doing).

End Scripts.

(** ** scripts/generateArticles.ts: generate, store and publish *)

Module GenerateArticles.

Import CsvWriter CsvReader ArticlePipeline ArticlePublisher Scripts.

Record ProcessingStats := {
  successCount : nat;
  failureCount : nat;
  publishedCount : nat;
  publishFailureCount : nat;
}.

Definition countSuccess (st : ProcessingStats) : ProcessingStats :=
  {| successCount := S (successCount st); failureCount := failureCount st;
     publishedCount := publishedCount st; publishFailureCount := publishFailureCount st |}.

Definition countFailure (st : ProcessingStats) : ProcessingStats :=
  {| successCount := successCount st; failureCount := S (failureCount st);
     publishedCount := publishedCount st; publishFailureCount := publishFailureCount st |}.

Definition countPublished (st : ProcessingStats) : ProcessingStats :=
  {| successCount := successCount st; failureCount := failureCount st;
     publishedCount := S (publishedCount st); publishFailureCount := publishFailureCount st |}.

Definition countPublishFailure (st : ProcessingStats) : ProcessingStats :=
  {| successCount := successCount st; failureCount := failureCount st;
     publishedCount := publishedCount st; publishFailureCount := S (publishFailureCount st) |}.

Section Script.

(** The outcome of the [index]-th call of [generateArticle]. *)
Variable generateArticle : nat -> ArticleGenerationInput -> result ArticleData.

(** The publisher's surroundings: the mode, the settings, and for the
    [index]-th item the random identifier of mock mode and the outcome of
    the POST. *)
Variable mockMode : bool.
Variable config : LaravelConfig.
Variable random : nat -> Z.
Variable post : nat -> result PostResponse.

Definition publishAndUpdateArticle (index : nat) (article : ArticleData)
    (s : state ProcessingStats) : state ProcessingStats :=
  let s := emit (publishing index article) s in
  match publishArticleToLaravel mockMode (random index) config (post index) article with
  | Return publishResult =>
    if publish_success publishResult then
      match updateArticleOf (articleFile s) (id article) Examples.markPosted with
      | (Return _, f) =>
        let s := emit (console success (lit "  ✓ Laravel投稿成功")) (setFile f s) in
        let s := foldl (fun s e => emit e s) s (articleIdLine (articleId publishResult)) in
        setStats (countPublished (stats s)) s
      | (Throw publishError, _) =>
        let s := emit (console error (lit "  Laravel投稿エラー: "
                                      ++ getErrorMessage publishError)) s in
        setStats (countPublishFailure (stats s)) s
      end
    else
      let s := emit (console warn (lit "  Laravel投稿失敗: "
                                   ++ templateText (publish_message publishResult))) s in
      setStats (countPublishFailure (stats s)) s
  | Throw publishError =>
    let s := emit (console error (lit "  Laravel投稿エラー: " ++ getErrorMessage publishError)) s in
    setStats (countPublishFailure (stats s)) s
  end.

Definition failed (e : exn) (s : state ProcessingStats) : state ProcessingStats :=
  let s := emit (console error (lit "  ✗ 生成失敗: " ++ getErrorMessage e)) s in
  setStats (countFailure (stats s)) s.

Definition processArticle (index : nat) (match_ : MatchData) (isLaravelHealthy : bool)
    (s : state ProcessingStats) : state ProcessingStats :=
  let input := {| persona := match_persona match_; seoKeyword := match_keyword match_ |} in
  let s := emit (generating index input) s in
  match generateArticle index input with
  | Throw e => failed e s
  | Return article =>
    let s := emit (console success (lit "  ✓ 記事生成完了: " ++ templateText (title article))) s in
    match appendArticleToCSV (articleFile s) article with
    | (Throw e, _) => failed e s
    | (Return savedArticle, f) =>
      let s := emit (console success (lit "  ✓ CSV保存完了 (ID: "
                                      ++ templateNumber (id savedArticle) ++ lit ")"))
                 (setFile f s) in
      let s := setStats (countSuccess (stats s)) s in
      if isLaravelHealthy then publishAndUpdateArticle index savedArticle s else s
    end
  end.

(** The body of the for loop, from index [i] on; [len] is
    [matches.length]. *)
Fixpoint processLoop (len i : nat) (matches : list MatchData) (isLaravelHealthy : bool)
    (s : state ProcessingStats) : state ProcessingStats :=
  match matches with
  | [] => s
  | match_ :: rest =>
    let s := emit (turnLine i len (lit "処理中...")) s in
    let s := processArticle i match_ isLaravelHealthy s in
    let s := if (i <? len - 1)%nat then emit (sleeping 2000) s else s in
    processLoop len (S i) rest isLaravelHealthy s
  end.

(** Returns the counters, with the file and the effects. *)
Definition processAllArticles (matches : list MatchData) (articlePath : file)
    (isLaravelHealthy : bool) : state ProcessingStats :=
  processLoop (length matches) 0 matches isLaravelHealthy
    {| articleFile := articlePath;
       stats := {| successCount := 0; failureCount := 0; publishedCount := 0;
                   publishFailureCount := 0 |};
       effects := [] |}.

End Script.

End GenerateArticles.

(** ** scripts/publishArticles.ts: publish what the store holds *)

Module PublishArticles.

Import CsvWriter CategoryMapper ArticlePipeline ArticlePublisher PipelineStages Scripts.

Record PublishStats := {
  successCount : nat;
  failureCount : nat;
}.

Definition loadUnpublishedArticles (articlePath : file) : list ArticleData * list effect :=
  let articles := readArticlesFromCSV articlePath in
  let trace :=
    [ console info (lit "CSVから記事を読み込み中...");
      console success (lit "  読み込み完了: " ++ count (length articles) ++ lit "件" ++ [LF]) ] in
  let unpublishedArticles := filter (fun article => api_posted article = false) articles in
  match unpublishedArticles with
  | [] => ([], trace ++ [console warn (lit "投稿する記事がありません。")])
  | _ =>
    (unpublishedArticles,
     trace ++ [console info (lit "未投稿の記事: " ++ count (length unpublishedArticles)
                             ++ lit "件 / 合計: " ++ count (length articles) ++ lit "件" ++ [LF])])
  end.

(** The number that [convertCategoryIdToNumber] returns: what the resolver
    gave, or [Number(categoryId)], which is kept as the value it is
    computed from. *)
Inductive categoryNumber :=
  | resolved (p : property)
  | numberOf (categoryId : option str).

(** The article that is handed to the publisher: the stored record with
    its [category_id] replaced. *)
Record preparedArticle := {
  stored_article : ArticleData;
  numericCategoryId : categoryNumber;
}.

Section Script.

(** [isNaN(Number(s))] on a string. *)
Variable notNumeric : str -> bool.
Variable inheritedText : str -> str.
Variable categoriesPath : str.
Variable c : catalog.
Variable mockMode : bool.
Variable config : LaravelConfig.
Variable random : nat -> Z.
Variable post : nat -> result PostResponse.

(** In the store [category_id] is a string, or [undefined] for a row that
    is too short; [typeof categoryId === 'string'] fails for the latter. *)
Definition convertCategoryIdToNumber (categoryId : option str)
    : result categoryNumber * list effect :=
  match categoryId with
  | Some text =>
    if notNumeric text then
      match getCategoryIdFromPersona categoriesPath c text with
      | Throw e => (Throw e, [])
      | Return numericId =>
        (Return (resolved numericId),
         [console info (lit "  カテゴリ変換: " ++ [QUOTE] ++ text ++ [QUOTE] ++ lit " → "
                        ++ propertyText inheritedText numericId)])
      end
    else (Return (numberOf categoryId), [])
  | None => (Return (numberOf categoryId), [])
  end.

Definition prepareArticleForPublish (article : ArticleData)
    : result preparedArticle * list effect :=
  match convertCategoryIdToNumber (category_id article) with
  | (Throw e, trace) => (Throw e, trace)
  | (Return numericCategoryId, trace) =>
    (Return {| stored_article := article; numericCategoryId := numericCategoryId |}, trace)
  end.

Definition countSuccess (st : PublishStats) : PublishStats :=
  {| successCount := S (successCount st); failureCount := failureCount st |}.

Definition countFailure (st : PublishStats) : PublishStats :=
  {| successCount := successCount st; failureCount := S (failureCount st) |}.

Definition failed (e : exn) (s : state PublishStats) : state PublishStats :=
  let s := emit (console error (lit "  ✗ 投稿エラー: " ++ getErrorMessage e)) s in
  setStats (countFailure (stats s)) s.

(** The publisher's outcome depends on the prepared article only through
    the request, whose outcome is [post index]. *)
Definition publishSingleArticle (index : nat) (article : ArticleData)
    (s : state PublishStats) : state PublishStats :=
  match prepareArticleForPublish article with
  | (Throw e, trace) => failed e (foldl (fun s e => emit e s) s trace)
  | (Return articleToPublish, trace) =>
    let s := foldl (fun s e => emit e s) s trace in
    let s := emit (publishing index (stored_article articleToPublish)) s in
    match publishArticleToLaravel mockMode (random index) config (post index)
            (stored_article articleToPublish) with
    | Throw e => failed e s
    | Return result =>
      if publish_success result then
        match updateArticleOf (articleFile s) (id article) Examples.markPosted with
        | (Throw e, _) => failed e s
        | (Return _, f) =>
          let s := emit (console success (lit "  ✓ 投稿成功")) (setFile f s) in
          let s := foldl (fun s e => emit e s) s (articleIdLine (articleId result)) in
          setStats (countSuccess (stats s)) s
        end
      else
        let s := emit (console error (lit "  ✗ 投稿失敗: "
                                      ++ templateText (publish_message result))) s in
        setStats (countFailure (stats s)) s
    end
  end.

Fixpoint publishLoop (len i : nat) (unpublishedArticles : list ArticleData)
    (s : state PublishStats) : state PublishStats :=
  match unpublishedArticles with
  | [] => s
  | article :: rest =>
    let s := emit (turnLine i len (lit "投稿中...")) s in
    let s := emit (console info (lit "  タイトル: " ++ templateText (title article))) s in
    let s := publishSingleArticle i article s in
    let s := if (i <? len - 1)%nat then emit (sleeping 1000) s else s in
    publishLoop len (S i) rest s
  end.

Definition publishAllArticles (unpublishedArticles : list ArticleData) (articlePath : file)
    : state PublishStats :=
  publishLoop (length unpublishedArticles) 0 unpublishedArticles
    {| articleFile := articlePath;
       stats := {| successCount := 0; failureCount := 0 |};
       effects := [] |}.

End Script.

End PublishArticles.

(** ** Notions for sequences of store operations *)

Module StoreSequences.

Import CsvWriter Notions StoreAux.

(** The file that holds the header row and then the rows of [articles],
    each closed by a line feed. *)
Definition stored (articles : list ArticleData) : str :=
  header ++ [LF] ++ flat_map (fun a => rowOfArticle a ++ [LF]) articles.

(** The record that [appendArticleToCSV] saves for [article] when the store
    holds [articles]. *)
Definition savedAfter (articles : list ArticleData) (article : ArticleData) : ArticleData :=
  if idMissing article
  then withId article (Some (Int (largest (existingIds articles) + 1)))
  else article.

(** Successive calls of [appendArticleToCSV] on one path; the first
    exception ends them. *)
Fixpoint appendAll (f : file) (articles : list ArticleData)
    : result (list ArticleData) * file :=
  match articles with
  | [] => (Return [], f)
  | article :: rest =>
    match appendArticleToCSV f article with
    | (Throw e, f) => (Throw e, f)
    | (Return saved, f) =>
      match appendAll f rest with
      | (Throw e, f) => (Throw e, f)
      | (Return others, f) => (Return (saved :: others), f)
      end
    end
  end.

(** The identifiers [first], [first + 1], ... given to [articles] in
    order. *)
Fixpoint numbered (first : Z) (articles : list ArticleData) : list ArticleData :=
  match articles with
  | [] => []
  | article :: rest => withId article (Some (Int first)) :: numbered (first + 1) rest
  end.

(** No text column of the record holds a line feed. *)
Definition singleLine (a : ArticleData) : bool :=
  negb (includes LF (default [] (category_id a)) || includes LF (default [] (title a))
        || includes LF (default [] (body a)) || includes LF (default [] (slug a))
        || includes LF (status a) || includes LF (default [] (meta_title a))
        || includes LF (default [] (meta_description a))).

(** The record with its flag set. *)
Definition posted (a : ArticleData) : ArticleData := merge a Examples.markPosted.

End StoreSequences.

(** ** Notions for the derived slug *)

Module SlugAux.

(** No two hyphens follow each other. *)
Fixpoint separated (s : str) : bool :=
  match s with
  | c :: r =>
    match r with
    | d :: _ => negb ((c =? HYPHEN) && (d =? HYPHEN)) && separated r
    | [] => true
    end
  | [] => true
  end.

End SlugAux.

(** ** Notions for the persona and keyword files *)

Module ReaderAux.

Import CsvReaderFiles.

(** A cell that the readers return as it is: no comma, no line feed. *)
Definition cell (s : str) : bool := negb (includes COMMA s || includes LF s).

Definition personaCells (p : PersonaData) : list str :=
  [Category p; Persona_Detail p; Worry_Description p; Tone_Instruction p; Context_Scenario p].

Definition keywordCells (k : SeoKeywordData) : list str :=
  [ID k; keyword_Category k; Main_Keyword k; Sub_Keywords k; User_Intent k; Title_Idea k].

(** The object the reader builds for a row that has every column. *)
Definition personaRow (p : PersonaData) : PersonaRow :=
  {| row_Category := Some (Category p);
     row_Persona_Detail := Some (Persona_Detail p);
     row_Worry_Description := Some (Worry_Description p);
     row_Tone_Instruction := Some (Tone_Instruction p);
     row_Context_Scenario := Some (Context_Scenario p) |}.

Definition keywordRow (k : SeoKeywordData) : SeoKeywordRow :=
  {| row_ID := Some (ID k);
     row_keyword_Category := Some (keyword_Category k);
     row_Main_Keyword := Some (Main_Keyword k);
     row_Sub_Keywords := Some (Sub_Keywords k);
     row_User_Intent := Some (User_Intent k);
     row_Title_Idea := Some (Title_Idea k) |}.

(** The text of a file: the header line, then one line for each row, the
    cells of a row separated by commas. *)
Definition table (headerLine : str) (rows : list (list str)) : str :=
  join [LF] (headerLine :: map (join [COMMA]) rows).

End ReaderAux.

(** ** Notions for the batch scripts *)

Module ScriptAux.

Import CsvWriter CsvReader Scripts.

Definition inputOfMatch (m : MatchData) : ArticleGenerationInput :=
  {| persona := match_persona m; seoKeyword := match_keyword m |}.

Definition isSleeping (e : effect) : bool :=
  match e with
  | sleeping _ => true
  | _ => false
  end.

Definition isGenerating (e : effect) : bool :=
  match e with
  | generating _ _ => true
  | _ => false
  end.

Definition isPublishing (e : effect) : bool :=
  match e with
  | publishing _ _ => true
  | _ => false
  end.

(** The effects of successive turns with a pause of [ms] between every two
    of them. *)
Fixpoint paced (ms : Z) (turns : list (list effect)) : list effect :=
  match turns with
  | [] => []
  | [turn] => turn
  | turn :: rest => turn ++ [sleeping ms] ++ paced ms rest
  end.

(** [f'] is [f], or [f] with text added at its end. *)
Definition extended (f f' : file) : Prop :=
  f' = f ∨ ∃ added, f' = Some (default [] f ++ added).

(** The calls of [generateArticle] that a batch of [inputs] makes, the first
    one with index [i]. *)
Fixpoint calls (i : nat) (inputs : list ArticleGenerationInput) : list ArticlePipeline.event :=
  match inputs with
  | [] => []
  | input :: rest => ArticlePipeline.generateArticleCall i input :: calls (S i) rest
  end.

Definition isCall (e : ArticlePipeline.event) : bool :=
  match e with
  | ArticlePipeline.generateArticleCall _ _ => true
  | _ => false
  end.

Definition isPause (e : ArticlePipeline.event) : bool :=
  match e with
  | ArticlePipeline.sleep _ => true
  | _ => false
  end.

(** The calls of the publisher in the turn of item [index] of the
    publishing script: one, for the stored record, unless its category
    could not be converted. *)
Definition publisherCalls {A} (converted : result A) (index : nat) (article : ArticleData)
    : list effect :=
  match converted with
  | Return _ => [publishing index article]
  | Throw _ => []
  end.

(** The publisher reported success. *)
Definition published (r : result ArticlePublisher.ArticlePublishResponse) : bool :=
  match r with
  | Return response => ArticlePublisher.publish_success response
  | Throw _ => false
  end.

End ScriptAux.

(** ** Examples for the readers, the stages and the scripts *)

Module StageExamples.

Import CsvWriter CsvReader CategoryMapper ArticleGenerator SeoOptimizer ArticlePublisher.
Import Notions Examples MoreExamples.

Definition personaHeader : str :=
  lit "Category,Persona_Detail,Worry_Description,Tone_Instruction,Context_Scenario".

Definition keywordHeader : str :=
  lit "ID,Category,Main_Keyword,Sub_Keywords,User_Intent,Title_Idea".

Definition careWorker : PersonaData :=
  {| Category := lit "現役施設介護士"; Persona_Detail := lit "30s care worker";
     Worry_Description := lit "night shifts"; Tone_Instruction := lit "warm";
     Context_Scenario := lit "after work" |}.

Definition returner : PersonaData :=
  {| Category := lit "潜在有資格者"; Persona_Detail := lit "licensed and away from work";
     Worry_Description := lit "long gap"; Tone_Instruction := lit "calm";
     Context_Scenario := [] |}.

Definition nightShift : SeoKeywordData :=
  {| ID := lit "1"; keyword_Category := lit "現役施設介護士"; Main_Keyword := lit "night shift";
     Sub_Keywords := lit "sleep rest"; User_Intent := lit "know";
     Title_Idea := lit "Rest after nights" |}.

Definition task : ArticleGenerationInput := {| persona := careWorker; seoKeyword := nightShift |}.

Definition pair : MatchData := {| match_persona := careWorker; match_keyword := nightShift |}.

(** The reply of the optimizer and a stand-in for [JSON.parse] that knows
    the object in it only. *)
Definition optimizedText : str :=
  litq "{'title':'Rest after nights','body':'B','meta_title':'MT','meta_description':'MD'}".

Definition parseOptimizedText (s : str) : str + parsedOptimized :=
  if bool_decide (s = optimizedText)
  then inr {| optimized_title := Some (lit "Rest after nights");
              optimized_body := Some (lit "B"); optimized_slug := None;
              optimized_meta_title := Some (lit "MT");
              optimized_meta_description := Some (lit "MD") |}
  else inl (lit "Unexpected token").

(** A stand-in for the text that the engine gives a member of
    [Object.prototype]. *)
Definition nativeText (key : str) : str :=
  lit "function " ++ key ++ lit "() { [native code] }".

(** The draft that the generation client makes of [sureReply]. *)
Definition sureDraft : ArticleGenerationResponse :=
  {| draft_title := lit "T"; draft_body := lit "B"; draft_slug := lit "t" |}.

(** The article that the two stages make of the two replies. *)
Definition generatedExample : ArticleData :=
  {| id := None; category_id := Some (lit "3"); title := Some (lit "Rest after nights");
     body := Some (lit "B"); slug := Some (lit "t"); status := lit "draft";
     meta_title := Some (lit "MT"); meta_description := Some (lit "MD");
     api_posted := false |}.

(** A stand-in for [isNaN(Number(s))] that is right on strings of digits
    and on the labels of the static table. *)
Definition notDigits (s : str) : bool := negb (forallb isDigit s).

(** Every call of [generateArticle] returns [secondArticle]. *)
Definition alwaysSecond (index : nat) (input : ArticleGenerationInput) : result ArticleData :=
  Return secondArticle.

Definition noPost (index : nat) : result PostResponse := Throw timeout.

(** A catalog without the second name of the static table. *)
Definition twoCategories : catalog :=
  Some [ {| category_number := 1; name := lit "訪問介護"; category_slug := lit "visit" |};
         {| category_number := 3; name := lit "お仕事の相談"; category_slug := lit "work" |} ].

End StageExamples.

(** * Properties *)

Module JSFacts.

Lemma includes_elem (c : N) (s : str) : includes c s = true ↔ c ∈ s.
Proof.
  induction s as [|x r IH]; simpl.
  - split; [done | by intros ?%elem_of_nil].
  - rewrite orb_true_iff, IH, elem_of_cons, N.eqb_eq. intuition congruence.
Qed.

Lemma includes_app (c : N) (s t : str) :
  includes c (s ++ t) = includes c s || includes c t.
Proof. induction s as [|x r IH]; simpl; [done|]. by rewrite IH, orb_assoc. Qed.

Lemma trimStart_id (c : N) (s : str) :
  isWhiteSpace c = false → trimStart (c :: s) = c :: s.
Proof. intros H. simpl. by rewrite H. Qed.

Lemma trimEnd_snoc_space (s : str) (c : N) :
  isWhiteSpace c = true → trimEnd (s ++ [c]) = trimEnd s.
Proof.
  intros H. induction s as [|x r IH]; simpl.
  - by rewrite H.
  - by rewrite IH.
Qed.

Lemma trimEnd_snoc_other (s : str) (c : N) :
  isWhiteSpace c = false → trimEnd (s ++ [c]) = s ++ [c].
Proof.
  intros H. induction s as [|x r IH]; simpl.
  - by rewrite H.
  - rewrite IH. by destruct r.
Qed.

Lemma splitFrom_app (sep : N) (x y cur : str) :
  splitFrom sep (x ++ sep :: y) cur = splitFrom sep x cur ++ splitFrom sep y [].
Proof.
  revert cur. induction x as [|c x IH]; intros cur; simpl.
  - by rewrite N.eqb_refl.
  - destruct (c =? sep); simpl; by rewrite IH.
Qed.

Lemma splitFrom_free (sep : N) (x cur : str) :
  includes sep x = false → splitFrom sep x cur = [cur ++ x].
Proof.
  revert cur. induction x as [|c x IH]; intros cur; simpl.
  - by rewrite app_nil_r.
  - rewrite orb_false_iff. intros [-> Hx]. rewrite IH by done.
    by rewrite <- app_assoc.
Qed.

(** *** Decimal numerals *)

Lemma isDigit_digit (d : N) : d < 10 → isDigit (48 + d) = true.
Proof. intros. unfold isDigit. apply andb_true_iff. split; apply N.leb_le; lia. Qed.

Lemma parseDigits_app (s t : str) (acc : Z) :
  forallb isDigit s = true →
  parseDigits (s ++ t) acc = parseDigits t (parseDigits s acc).
Proof.
  revert acc. induction s as [|c s IH]; intros acc; simpl; [done|].
  rewrite andb_true_iff. intros [-> Hs]. by apply IH.
Qed.

Lemma log2_div10 (n : N) : 10 ≤ n → N.log2 (n / 10) < N.log2 n.
Proof.
  intros Hn.
  assert (H2 : N.log2 (n / 2) = N.log2 n - 1).
  { rewrite <- (N.pow_1_r 2) at 1. rewrite <- N.shiftr_div_pow2. apply N.log2_shiftr. }
  assert (Hle : n / 10 ≤ n / 2).
  { apply N.div_le_compat_l. lia. }
  apply N.log2_le_mono in Hle.
  assert (1 ≤ N.log2 n) by (change 1 with (N.log2 2); apply N.log2_le_mono; lia).
  lia.
Qed.

Lemma digitsOf_spec (fuel : nat) (n : N) :
  (N.to_nat (N.log2 n) < fuel)%nat →
  forallb isDigit (digitsOf fuel n) = true
  ∧ digitsOf fuel n ≠ []
  ∧ ∀ acc, parseDigits (digitsOf fuel n) acc
           = (acc * 10 ^ Z.of_nat (length (digitsOf fuel n)) + Z.of_N n)%Z.
Proof.
  revert n. induction fuel as [|fuel IH]; intros n Hf; [lia|].
  simpl. destruct (N.ltb_spec n 10) as [Hlt|Hge].
  - rewrite N.mod_small by done. cbn [app forallb parseDigits length].
    rewrite isDigit_digit by done.
    split; [done|]. split; [done|]. intros acc.
    rewrite (N.add_comm 48), N.add_sub.
    change (Z.of_nat 1) with 1%Z. lia.
  - destruct (IH (n / 10)) as (Hd & Hne & Hv).
    { pose proof (log2_div10 n Hge). lia. }
    assert (Hm : n mod 10 < 10) by (apply N.mod_lt; lia).
    split; [|split].
    + rewrite forallb_app, Hd. simpl. by rewrite isDigit_digit.
    + by destruct (digitsOf fuel (n / 10)).
    + intros acc. rewrite parseDigits_app by done. rewrite Hv. cbn [parseDigits].
      rewrite isDigit_digit by done.
      rewrite (N.add_comm 48), N.add_sub.
      rewrite length_app. simpl length.
      rewrite Nat2Z.inj_add, Z.pow_add_r by lia.
      change (10 ^ Z.of_nat 1)%Z with 10%Z.
      pose proof (N.div_mod n 10 ltac:(lia)) as Hdm.
      apply (f_equal Z.of_N) in Hdm. rewrite N2Z.inj_add, N2Z.inj_mul in Hdm.
      change (Z.of_N 10) with 10%Z in Hdm.
      generalize dependent (Z.of_N n). intros zn ->. ring.
Qed.

Lemma decimal_digits (n : N) : forallb isDigit (decimal n) = true.
Proof. apply digitsOf_spec. lia. Qed.

Lemma decimal_nonempty (n : N) : decimal n ≠ [].
Proof. apply digitsOf_spec. lia. Qed.

Lemma parseDigits_decimal (n : N) : parseDigits (decimal n) 0 = Z.of_N n.
Proof.
  destruct (digitsOf_spec (S (N.to_nat (N.log2 n))) n) as (_ & _ & H); [lia|].
  unfold decimal. rewrite H. lia.
Qed.

Lemma isDigit_not_space (c : N) : isDigit c = true → isWhiteSpace c = false.
Proof.
  unfold isDigit, isWhiteSpace. rewrite andb_true_iff, !N.leb_le. intros [? ?].
  repeat (apply orb_false_iff; split);
    try (apply andb_false_iff; first [left; apply N.leb_gt; lia | right; apply N.leb_gt; lia]);
    apply N.eqb_neq; lia.
Qed.

(** *** Doubles *)

Lemma nearestDouble_safe (m : Z) : (0 < m < 2 ^ 53)%Z → nearestDouble m = Some m.
Proof.
  intros [H0 H]. unfold nearestDouble. cbv zeta.
  assert (Z.log2 m < 53)%Z by (apply Z.log2_lt_pow2; lia).
  destruct (Z.leb_spec (Z.log2 m + 1) 53); [done|lia].
Qed.

Lemma fromInteger_safe (z : Z) : (Z.abs z < 2 ^ 53)%Z → fromInteger z = Int z.
Proof.
  intros H. unfold fromInteger. destruct (Z.eqb_spec z 0) as [->|Hz]; [done|].
  rewrite nearestDouble_safe by lia. f_equal. lia.
Qed.

Lemma addOne_safe (z : Z) : (Z.abs (z + 1) < 2 ^ 53)%Z → addOne (Int z) = Int (z + 1).
Proof. intros H. cbn [addOne]. by apply fromInteger_safe. Qed.

Lemma magnitudeToString_safe (m : Z) :
  (m < 2 ^ 53)%Z → magnitudeToString m = decimal (Z.to_N m).
Proof.
  intros H. unfold magnitudeToString. destruct (Z.ltb_spec m (2 ^ 53)); [done|lia].
Qed.

Lemma numberToString_safe (z : Z) :
  (Z.abs z < 2 ^ 53)%Z →
  numberToString (Int z)
  = if (z <? 0)%Z then HYPHEN :: decimal (Z.to_N (- z)) else decimal (Z.to_N z).
Proof.
  intros H. cbn [numberToString].
  destruct (z <? 0)%Z; by rewrite magnitudeToString_safe by lia.
Qed.

Lemma parseInt_numberToString (z : Z) :
  (Z.abs z < 2 ^ 53)%Z → parseInt (numberToString (Int z)) = Int z.
Proof.
  intros Hsafe. rewrite numberToString_safe by done.
  destruct (Z.ltb_spec z 0) as [Hneg|Hpos].
  - unfold parseInt. simpl.
    pose proof (decimal_digits (Z.to_N (- z))) as Hd.
    pose proof (decimal_nonempty (Z.to_N (- z))) as Hne.
    pose proof (parseDigits_decimal (Z.to_N (- z))) as Hv.
    destruct (decimal (Z.to_N (- z))) as [|c r] eqn:E; [done|].
    simpl in Hd. apply andb_true_iff in Hd as [Hc Hr]. simpl startsWithDigit.
    rewrite Hc. rewrite Hv. rewrite fromInteger_safe by lia. f_equal. lia.
  - unfold parseInt.
    pose proof (decimal_digits (Z.to_N z)) as Hd.
    pose proof (decimal_nonempty (Z.to_N z)) as Hne.
    pose proof (parseDigits_decimal (Z.to_N z)) as Hv.
    destruct (decimal (Z.to_N z)) as [|c r] eqn:E; [done|].
    pose proof Hd as Hd'. simpl in Hd'. apply andb_true_iff in Hd' as [Hc Hr].
    rewrite trimStart_id by (by apply isDigit_not_space).
    assert (c ≠ 45 ∧ c ≠ 43) as [? ?].
    { unfold isDigit in Hc. apply andb_true_iff in Hc as [?%N.leb_le ?%N.leb_le]. lia. }
    rewrite (proj2 (N.eqb_neq c 45)), (proj2 (N.eqb_neq c 43)) by done.
    rewrite Hc, Hv. rewrite fromInteger_safe by lia. f_equal. lia.
Qed.

Lemma numberToString_nonempty (n : number) : nonEmpty (numberToString n) = true.
Proof.
  assert (Hm : ∀ m, nonEmpty (magnitudeToString m) = true).
  { intros m. unfold magnitudeToString.
    assert (Hd : ∀ k, nonEmpty (decimal k) = true).
    { intros k. pose proof (decimal_nonempty k). by destruct (decimal k). }
    destruct (m <? 2 ^ 53)%Z; [done|].
    destruct (_ <=? 21)%nat; [done|].
    destruct (rev _) as [|d [|e more]]; done. }
  destruct n as [|z|[|]]; try done.
  cbn [numberToString]. by destruct (z <? 0)%Z.
Qed.

(** Beyond the safe integers: the text of 10^21 has an exponent, of which
    [parseInt] reads the digit before the mark; digits that no double has
    are rounded; and adding one to 2^53 gives 2^53. *)
Example beyond_safe_integers :
  numberToString (Int (10 ^ 21)) = lit "1e+21"
  ∧ parseInt (lit "1e+21") = Int 1
  ∧ numberToString (Int (2 ^ 64)) = lit "18446744073709552000"
  ∧ parseInt (lit "9007199254740993") = Int 9007199254740992
  ∧ addOne (Int (2 ^ 53)) = Int (2 ^ 53).
Proof. by vm_compute. Qed.

(** *** The characters of a number's text *)

Lemma decimal_chars (n c : N) : c ∈ decimal n → isDigit c = true.
Proof.
  intros Hc. pose proof (decimal_digits n) as Hd.
  rewrite forallb_forall in Hd. apply Hd. by apply list_elem_of_In.
Qed.

Lemma dropZeros_sub (s : str) (c : N) : c ∈ dropZeros s → c ∈ s.
Proof.
  induction s as [|x s IH]; [done|]. cbn [dropZeros].
  destruct (x =? 48); [|done]. intros H. apply elem_of_cons. right. by apply IH.
Qed.

(** Digits, and the point, the exponent mark and its sign. *)
Lemma magnitudeToString_chars (m : Z) (c : N) :
  c ∈ magnitudeToString m → isDigit c = true ∨ c = 46 ∨ c = 101 ∨ c = 43.
Proof.
  unfold magnitudeToString. destruct (m <? 2 ^ 53)%Z.
  { intros H. left. by eapply decimal_chars. }
  set (digits := decimal _).
  destruct (_ <=? 21)%nat.
  { intros H. left. by eapply decimal_chars. }
  assert (Hsub : ∀ x, x ∈ rev (dropZeros (rev digits)) → isDigit x = true).
  { intros x Hx. apply list_elem_of_In in Hx. rewrite <- in_rev in Hx.
    apply list_elem_of_In, dropZeros_sub, list_elem_of_In in Hx.
    rewrite <- in_rev in Hx. apply list_elem_of_In in Hx. by eapply decimal_chars. }
  destruct (rev (dropZeros (rev digits))) as [|d [|e more]].
  - intros H. left. by eapply decimal_chars.
  - rewrite !elem_of_app. intros [H|[H|H]].
    + left. apply Hsub. apply list_elem_of_singleton in H as ->. by left.
    + right. right. vm_compute in H.
      apply elem_of_cons in H as [ -> | H ]; [by left|].
      apply list_elem_of_singleton in H as ->. by right.
    + left. by eapply decimal_chars.
  - rewrite !elem_of_app. intros [H|[H|[H|[H|H]]]].
    + left. apply Hsub. apply list_elem_of_singleton in H as ->. by left.
    + right. left. vm_compute in H. by apply list_elem_of_singleton in H.
    + left. apply Hsub. by right.
    + right. right. vm_compute in H.
      apply elem_of_cons in H as [ -> | H ]; [by left|].
      apply list_elem_of_singleton in H as ->. by right.
    + left. by eapply decimal_chars.
Qed.

(** No text of a number holds a quote, a comma or a line feed. *)
Lemma numberToString_bare (n : number) (c : N) :
  c = QUOTE ∨ c = COMMA ∨ c = LF → includes c (numberToString n) = false.
Proof.
  intros Hc.
  assert (Hm : ∀ m, includes c (magnitudeToString m) = false).
  { intros m. apply not_true_iff_false. rewrite includes_elem.
    intros [Hd|Hd]%magnitudeToString_chars.
    - by destruct Hc as [ -> | [ -> | -> ] ].
    - destruct Hc as [ -> | [ -> | -> ] ]; by destruct Hd as [ ? | [ ? | ? ] ]. }
  destruct n as [|z|[|]].
  - by destruct Hc as [ -> | [ -> | -> ] ].
  - cbn [numberToString]. destruct (z <? 0)%Z; [|done].
    cbn [includes]. rewrite Hm. by destruct Hc as [ -> | [ -> | -> ] ].
  - by destruct Hc as [ -> | [ -> | -> ] ].
  - by destruct Hc as [ -> | [ -> | -> ] ].
Qed.

End JSFacts.

Module StoreFacts.

Import JSFacts CsvWriter Notions StoreAux.

Lemma plain_iff (s : str) :
  plain s = true ↔ includes COMMA s = false ∧ includes LF s = false ∧ includes QUOTE s = false.
Proof.
  unfold plain. rewrite negb_true_iff, !orb_false_iff. tauto.
Qed.

Lemma escapeCSVField_Some (s : str) : escapeCSVField (Some s) = Return (escaped s).
Proof.
  unfold escapeCSVField, escaped, plain.
  by destruct (includes COMMA s || includes LF s || includes QUOTE s).
Qed.

(** *** Parsing a row field by field *)

Lemma parse_bare (s rest cur : str) (q : bool) (fields : list str) :
  includes QUOTE s = false → (q = true ∨ includes COMMA s = false) →
  parseFields (s ++ rest) cur q fields = parseFields rest (cur ++ s) q fields.
Proof.
  revert cur. induction s as [|c s IH]; intros cur Hq Hc; simpl.
  - by rewrite app_nil_r.
  - simpl in Hq. apply orb_false_iff in Hq as [Hcq Hq]. rewrite Hcq.
    assert ((c =? COMMA) && negb q = false) as ->.
    { destruct Hc as [->|Hc]; [by rewrite andb_false_r|].
      simpl in Hc. apply orb_false_iff in Hc as [-> _]. done. }
    rewrite IH; [by rewrite <- app_assoc|done|].
    destruct Hc as [?|Hc]; [by left|right]. simpl in Hc. by apply orb_false_iff in Hc as [_ ?].
Qed.

Lemma parse_doubled (s rest cur : str) (fields : list str) :
  head rest ≠ Some QUOTE →
  parseFields (doubled s ++ QUOTE :: rest) cur true fields
  = parseFields rest (cur ++ s) false fields.
Proof.
  intros Hrest. revert cur. induction s as [|c s IH]; intros cur; simpl.
  - rewrite app_nil_r. destruct rest as [|n rest]; [done|].
    destruct (N.eqb_spec n QUOTE) as [->|_]; [done|done].
  - destruct (N.eqb_spec c QUOTE) as [->|Hc]; simpl.
    + rewrite IH. by rewrite <- app_assoc.
    + rewrite (proj2 (N.eqb_neq c QUOTE)) by done. rewrite andb_false_r.
      rewrite IH. by rewrite <- app_assoc.
Qed.

Lemma parse_escaped (s rest cur : str) (fields : list str) :
  head rest ≠ Some QUOTE →
  parseFields (escaped s ++ rest) cur false fields
  = parseFields rest (cur ++ s) false fields.
Proof.
  intros Hrest. unfold escaped. destruct (plain s) eqn:Hp.
  - apply plain_iff in Hp as (? & ? & ?). apply parse_bare; auto.
  - rewrite <- !app_assoc. simpl. by apply parse_doubled.
Qed.

Lemma parse_row (i c t b s st mt md flag : str) :
  includes QUOTE i = false → includes COMMA i = false →
  plain c = true → plain s = true → plain st = true →
  includes QUOTE flag = false → includes COMMA flag = false →
  parseFields (rowOf i c t b s st mt md flag) [] false []
  = [i; c; t; b; s; st; mt; md; flag].
Proof.
  intros Hi1 Hi2 (? & ? & ?)%plain_iff (? & ? & ?)%plain_iff (? & ? & ?)%plain_iff Hf1 Hf2.
  unfold rowOf. cbn [join]. rewrite <- ?app_assoc.
  rewrite parse_bare by auto. cbn [app parseFields N.eqb COMMA QUOTE Pos.eqb andb negb].
  rewrite parse_bare by auto. cbn [app parseFields N.eqb COMMA QUOTE Pos.eqb andb negb].
  rewrite parse_escaped by done. cbn [app parseFields N.eqb COMMA QUOTE Pos.eqb andb negb].
  rewrite parse_escaped by done. cbn [app parseFields N.eqb COMMA QUOTE Pos.eqb andb negb].
  rewrite parse_bare by auto. cbn [app parseFields N.eqb COMMA QUOTE Pos.eqb andb negb].
  rewrite parse_bare by auto. cbn [app parseFields N.eqb COMMA QUOTE Pos.eqb andb negb].
  rewrite parse_escaped by done. cbn [app parseFields N.eqb COMMA QUOTE Pos.eqb andb negb].
  rewrite parse_escaped by done. cbn [app parseFields N.eqb COMMA QUOTE Pos.eqb andb negb].
  rewrite <- (app_nil_r flag). rewrite parse_bare by auto. simpl. by rewrite app_nil_r.
Qed.

End StoreFacts.

Module RecordFacts.

Import JSFacts CsvWriter Notions StoreAux StoreFacts.

(** *** Joining physical lines into records *)

Lemma quoteCount_snoc (s : str) (c : N) :
  quoteCount (s ++ [c]) = (quoteCount s + if (c =? QUOTE)%N then 1 else 0)%nat.
Proof.
  unfold quoteCount. rewrite filter_app, length_app. f_equal.
  rewrite filter_cons, filter_nil.
  destruct (decide (c = QUOTE)) as [->|Hc]; [done|].
  by rewrite (proj2 (N.eqb_neq c QUOTE)).
Qed.

Lemma oddQuotes_snoc (s : str) (c : N) :
  oddQuotes (s ++ [c]) = if c =? QUOTE then negb (oddQuotes s) else oddQuotes s.
Proof.
  unfold oddQuotes. rewrite quoteCount_snoc.
  destruct (c =? QUOTE).
  - rewrite <- Nat.Div0.add_mod_idemp_l.
    pose proof (Nat.mod_upper_bound (quoteCount s) 2 ltac:(lia)) as Hlt.
    destruct (quoteCount s mod 2)%nat as [|[|?]]; [done|done|lia].
  - by rewrite Nat.add_0_r.
Qed.

Lemma oddQuotes_nonEmpty (s : str) : oddQuotes s = true → nonEmpty s = true.
Proof. by destruct s. Qed.

Lemma extend_snoc (pre l : str) (c : N) : extend pre (l ++ [c]) = extend pre l ++ [c].
Proof. unfold extend. by rewrite app_assoc. Qed.

Lemma joinRecords_step (line pre : str) (rest recs : list str) :
  joinRecords (line :: rest) pre recs
  = if oddQuotes (extend pre line) then joinRecords rest (extend pre line) recs
    else joinRecords rest [] (recs ++ [extend pre line]).
Proof. done. Qed.

Lemma joinRecords_record (x l pre : str) (rest recs : list str) :
  recordScan x (oddQuotes (extend pre l)) = Some false →
  joinRecords (splitFrom LF x l ++ rest) pre recs
  = joinRecords rest [] (recs ++ [extend pre l ++ x]).
Proof.
  revert l pre. induction x as [|c x IH]; intros l pre Hscan.
  - simpl in Hscan. injection Hscan as Hodd. cbn [splitFrom app].
    rewrite joinRecords_step, Hodd. by rewrite app_nil_r.
  - cbn [recordScan] in Hscan. cbn [splitFrom].
    destruct (N.eqb_spec c QUOTE) as [->|Hq].
    + change (QUOTE =? LF) with false. cbv iota.
      rewrite IH.
      * by rewrite extend_snoc, <- app_assoc.
      * by rewrite extend_snoc, oddQuotes_snoc.
    + destruct (N.eqb_spec c LF) as [->|Hl].
      * destruct (oddQuotes (extend pre l)) eqn:Hodd; [|done].
        cbn [app]. rewrite joinRecords_step, Hodd.
        rewrite IH.
        -- unfold extend at 1. rewrite (oddQuotes_nonEmpty _ Hodd).
           by rewrite app_nil_r, <- app_assoc.
        -- unfold extend at 1. rewrite (oddQuotes_nonEmpty _ Hodd).
           rewrite app_nil_r, oddQuotes_snoc.
           change (LF =? QUOTE) with false. cbv iota. by rewrite Hodd.
      * rewrite IH.
        -- by rewrite extend_snoc, <- app_assoc.
        -- rewrite extend_snoc, oddQuotes_snoc.
           by rewrite (proj2 (N.eqb_neq c QUOTE)).
Qed.

Lemma joinRecords_rows (rows recs : list str) :
  Forall (fun r => recordScan r false = Some false) rows → rows ≠ [] →
  joinRecords (splitFrom LF (join [LF] rows) []) [] recs = recs ++ rows.
Proof.
  intros Hrows. revert recs. induction Hrows as [|r rows Hr Hrows IH]; intros recs Hne; [done|].
  destruct rows as [|r2 rows].
  - cbn [join]. rewrite <- (app_nil_r (splitFrom LF r [])).
    rewrite joinRecords_record by done. done.
  - change (join [LF] (r :: r2 :: rows)) with (r ++ LF :: join [LF] (r2 :: rows)).
    rewrite splitFrom_app, joinRecords_record by done.
    rewrite IH by done. by rewrite <- app_assoc.
Qed.

(** *** The parity scan of a row *)

Lemma recordScan_app (s t : str) (odd : bool) :
  recordScan (s ++ t) odd = recordScan s odd ≫= recordScan t.
Proof.
  revert odd. induction s as [|c s IH]; intros odd; simpl; [done|].
  destruct (c =? QUOTE); [apply IH|].
  destruct (c =? LF); [|apply IH]. destruct odd; [apply IH|done].
Qed.

Lemma recordScan_bare (s : str) (odd : bool) :
  includes QUOTE s = false → includes LF s = false → recordScan s odd = Some odd.
Proof.
  induction s as [|c s IH]; simpl; [done|].
  rewrite !orb_false_iff. intros [-> ?] [-> ?]. auto.
Qed.

Lemma recordScan_doubled (s : str) : recordScan (doubled s) true = Some true.
Proof.
  induction s as [|c s IH]; simpl; [done|].
  destruct (N.eqb_spec c QUOTE) as [->|Hq]; simpl; [done|].
  rewrite (proj2 (N.eqb_neq c QUOTE)) by done. by destruct (c =? LF).
Qed.

Lemma recordScan_escaped (s : str) : recordScan (escaped s) false = Some false.
Proof.
  unfold escaped. destruct (plain s) eqn:Hp.
  - apply plain_iff in Hp as (? & ? & ?). by apply recordScan_bare.
  - cbn [app recordScan]. change (QUOTE =? QUOTE) with true. cbv iota.
    rewrite recordScan_app, recordScan_doubled. done.
Qed.

Lemma recordScan_row (i c t b s st mt md flag : str) :
  includes QUOTE i = false → includes LF i = false →
  plain c = true → plain s = true → plain st = true →
  includes QUOTE flag = false → includes LF flag = false →
  recordScan (rowOf i c t b s st mt md flag) false = Some false.
Proof.
  intros Hi1 Hi2 (? & ? & ?)%plain_iff (? & ? & ?)%plain_iff (? & ? & ?)%plain_iff Hf1 Hf2.
  unfold rowOf. cbn [join].
  repeat first
    [ rewrite recordScan_app
    | rewrite recordScan_escaped
    | rewrite recordScan_bare by done
    | rewrite (recordScan_bare [COMMA]) by done
    | progress cbn [mbind option_bind] ].
  done.
Qed.

End RecordFacts.

Module RoundTrip.

Import JSFacts CsvWriter Notions StoreAux StoreFacts RecordFacts.

Lemma storable_inv (a : ArticleData) :
  storable a = true →
  (id a = None ∨ ∃ z, id a = Some (Int z) ∧ z ≠ 0%Z ∧ (Z.abs z < 2 ^ 53)%Z)
  ∧ ∃ c t b s mt md,
      category_id a = Some c ∧ title a = Some t ∧ body a = Some b ∧ slug a = Some s
      ∧ meta_title a = Some mt ∧ meta_description a = Some md
      ∧ plain c = true ∧ plain s = true ∧ plain (status a) = true
      ∧ nonEmpty (status a) = true.
Proof.
  unfold storable. rewrite !andb_true_iff.
  intros ((((((((Hid & Hc) & Ht) & Hb) & Hs) & Hst) & Hne) & Hmt) & Hmd).
  split.
  - destruct (id a) as [[|z|?]|]; [done| |by rewrite andb_false_r in Hid|by left].
    right. exists z. cbn [truthy safeInteger] in Hid.
    apply andb_true_iff in Hid as [Hz%negb_true_iff%Z.eqb_neq Hsafe%Z.ltb_lt].
    by repeat split.
  - destruct (category_id a) as [c|], (title a) as [t|], (body a) as [b|],
      (slug a) as [s|], (meta_title a) as [mt|], (meta_description a) as [md|]; try done.
    by exists c, t, b, s, mt, md.
Qed.

Lemma idText_bare (i : option number) (c : N) :
  c = QUOTE ∨ c = COMMA ∨ c = LF → includes c (idText i) = false.
Proof.
  intros Hc. destruct i as [n|]; [|done]. cbn [idText].
  destruct (truthy n); [by apply numberToString_bare|done].
Qed.

Lemma flagText_bare (b : bool) (c : N) :
  c = QUOTE ∨ c = COMMA ∨ c = LF → includes c (flagText b) = false.
Proof. by intros [ -> | [ -> | -> ] ]; destruct b. Qed.

Lemma updateLine_storable (a : ArticleData) :
  storable a = true → updateLine a = Return (rowOfArticle a).
Proof.
  intros (_ & c & t & b & s & mt & md & Hc & Ht & Hb & Hs & Hmt & Hmd & _)%storable_inv.
  unfold updateLine, rowOfArticle. rewrite Hc, Ht, Hb, Hs, Hmt, Hmd.
  by rewrite !escapeCSVField_Some.
Qed.

Lemma parse_rowOfArticle (a : ArticleData) :
  storable a = true →
  parseFields (rowOfArticle a) [] false []
  = [ idText (id a); default [] (category_id a); default [] (title a);
      default [] (body a); default [] (slug a); status a;
      default [] (meta_title a); default [] (meta_description a);
      flagText (api_posted a) ].
Proof.
  intros (_ & c & t & b & s & mt & md & Hc & Ht & Hb & Hs & Hmt & Hmd & ? & ? & ? & ?)%storable_inv.
  unfold rowOfArticle. rewrite Hc, Hs. simpl default.
  apply parse_row; auto using idText_bare, flagText_bare.
Qed.

Lemma parseCSVLine_storable (a : ArticleData) :
  storable a = true → parseCSVLine (rowOfArticle a) = a.
Proof.
  intros Ha. unfold parseCSVLine. rewrite parse_rowOfArticle by done.
  apply storable_inv in Ha
    as (Hid & c & t & b & s & mt & md & Hc & Ht & Hb & Hs & Hmt & Hmd & _ & _ & _ & Hne).
  destruct a as [i ci ti bi si st mti mdi posted]. simpl in *. subst.
  cbn [lookup list_lookup default]. rewrite Hne. f_equal.
  - destruct Hid as [->|(z & -> & Hz & Hsafe)]; [done|].
    cbn [idText truthy]. rewrite (proj2 (Z.eqb_neq z 0)) by done. cbn [negb].
    by rewrite numberToString_nonempty, parseInt_numberToString.
  - by destruct posted.
Qed.

Lemma recordScan_storable (a : ArticleData) :
  storable a = true → recordScan (rowOfArticle a) false = Some false.
Proof.
  intros (_ & c & t & b & s & mt & md & Hc & Ht & Hb & Hs & Hmt & Hmd & ? & ? & ? & ?)%storable_inv.
  unfold rowOfArticle. rewrite Hc, Hs. simpl default.
  apply recordScan_row; auto using idText_bare, flagText_bare.
Qed.

Lemma rowOfArticle_end (a : ArticleData) :
  ∃ x d, rowOfArticle a = x ++ [d] ∧ isWhiteSpace d = false.
Proof.
  unfold rowOfArticle, rowOf. cbn [join]. rewrite !app_assoc.
  destruct (api_posted a); eexists _, _; (split; [reflexivity|done]).
Qed.

Lemma join_end (rows : list str) (r x : str) (d : N) :
  r = x ++ [d] → ∃ y, join [LF] (rows ++ [r]) = y ++ [d].
Proof.
  intros ->. induction rows as [|r1 rows [y IH]].
  - by exists x.
  - destruct rows as [|r2 rows].
    + exists (r1 ++ [LF] ++ x). cbn [app join]. by rewrite <- !app_assoc.
    + exists (r1 ++ [LF] ++ y). cbn [app join] in *. rewrite IH. by rewrite <- !app_assoc.
Qed.

Lemma splitFrom_nonempty (sep : N) (s cur : str) : splitFrom sep s cur ≠ [].
Proof.
  revert cur. induction s as [|c s IH]; intros cur; simpl; [done|].
  destruct (c =? sep); [done|apply IH].
Qed.

Lemma header_shape :
  ∃ r, header = 105 :: r ∧ includes LF (105 :: r) = false.
Proof. eexists. split; [by vm_compute|by vm_compute]. Qed.

Lemma readArticles_rows (rows : list str) :
  rows ≠ [] →
  (∀ r, last rows = Some r → ∃ x d, r = x ++ [d] ∧ isWhiteSpace d = false) →
  readArticlesFromCSV (Some (header ++ [LF] ++ join [LF] rows ++ [LF]))
  = map parseCSVLine (joinRecords (splitFrom LF (join [LF] rows) []) [] []).
Proof.
  intros Hne Hlast.
  destruct (exists_last Hne) as (front & r & ->).
  destruct (Hlast r) as (x & d & Hrow & Hd); [by rewrite last_snoc|].
  destruct (join_end front _ _ _ Hrow) as [y Hy].
  unfold readArticlesFromCSV, trim.
  destruct header_shape as (hr & -> & Hlf).
  rewrite Hy. cbn [app].
  rewrite trimStart_id by done.
  rewrite !app_comm_cons, !app_assoc, trimEnd_snoc_space, trimEnd_snoc_other by done.
  rewrite <- app_assoc. cbn [app]. rewrite <- Hy. unfold split.
  rewrite app_comm_cons, splitFrom_app, (splitFrom_free LF (105 :: hr)) by done.
  cbn [app length tail].
  destruct (splitFrom LF _ []) as [|l ls] eqn:Hsplit.
  { by apply splitFrom_nonempty in Hsplit. }
  cbn [length Nat.leb]. by rewrite <- Hsplit.
Qed.

Lemma readArticles_storeFile (articles : list ArticleData) :
  Forall (fun a => storable a = true) articles →
  readArticlesFromCSV (Some (storeFile articles)) = articles.
Proof.
  intros Hall. destruct (decide (articles = [])) as [->|Hne]; [by vm_compute|].
  unfold storeFile. rewrite readArticles_rows.
  - rewrite joinRecords_rows.
    + cbn [app]. clear -Hall. induction Hall as [|b l Hb _ IH]; [done|].
      cbn [map]. by rewrite parseCSVLine_storable, IH.
    + apply Forall_map. eapply Forall_impl; [exact Hall|].
      intros b Hb. by apply recordScan_storable.
    + intros Hnil. by apply map_eq_nil in Hnil.
  - intros Hnil. by apply map_eq_nil in Hnil.
  - intros r Hr. change (map rowOfArticle articles) with (rowOfArticle <$> articles) in Hr.
    rewrite fmap_last in Hr.
    destruct (last articles) as [a|]; [|done]. injection Hr as <-.
    apply rowOfArticle_end.
Qed.

Lemma mapM_updateLine (articles : list ArticleData) :
  Forall (fun a => storable a = true) articles →
  mapM updateLine articles = Return (map rowOfArticle articles).
Proof.
  induction 1 as [|a articles Ha _ IH]; [done|].
  cbn [mapM map]. rewrite updateLine_storable by done.
  cbn [mbind result_bind]. rewrite IH. reflexivity.
Qed.

Lemma rewriteFile_storable (articles : list ArticleData) :
  Forall (fun a => storable a = true) articles →
  rewriteFile articles = Return (storeFile articles).
Proof.
  intros H. unfold rewriteFile, storeFile. rewrite mapM_updateLine by done.
  reflexivity.
Qed.

End RoundTrip.

Module StoreClaims.

Import JSFacts CsvWriter Notions StoreAux StoreFacts RecordFacts RoundTrip Examples.

(** *** Identifiers *)

Lemma idIs_eq (articleId : number) (a : ArticleData) :
  idIs articleId a = true → id a = Some articleId.
Proof.
  unfold idIs, strictEq. destruct (id a) as [[|x|x]|], articleId as [|y|y]; try done.
  - by intros ->%Z.eqb_eq.
  - by intros ->%bool_decide_eq_true.
Qed.

Lemma idIs_true (z : Z) (a : ArticleData) :
  idIs (Int z) a = true ↔ ∃ z', id a = Some (Int z') ∧ Int z = Int z'.
Proof.
  split.
  - intros H%idIs_eq. eauto.
  - intros (z' & Hid & [= ->]). unfold idIs. rewrite Hid. cbn [strictEq]. apply Z.eqb_refl.
Qed.

Lemma largest_nonneg (ids : list Z) : (0 ≤ largest ids)%Z.
Proof. unfold largest. induction ids; cbn [foldr]; lia. Qed.

(** Where every identifier is absent or an integer, the running maximum of
    the source is the largest identifier. *)
Lemma maxId_from (articles : list ArticleData) (acc : Z) :
  (0 ≤ acc)%Z →
  Forall (fun a => id a = None ∨ ∃ z, id a = Some (Int z)) articles →
  foldl (fun max a =>
           match id a with
           | Some n => if truthy n && greater n max then n else max
           | None => max
           end) (Int acc) articles
  = Int (Z.max acc (largest (existingIds articles))).
Proof.
  intros Hacc Hall. revert acc Hacc.
  induction Hall as [|a articles Ha _ IH]; intros acc Hacc.
  - unfold largest. cbn [foldl existingIds omap list_omap foldr]. f_equal. lia.
  - cbn [foldl]. unfold existingIds. cbn [omap list_omap].
    fold (existingIds articles).
    pose proof (largest_nonneg (existingIds articles)) as Hl.
    destruct Ha as [ -> | [z ->] ].
    { rewrite IH by done. done. }
    cbn [largest foldr truthy greater]. fold (largest (existingIds articles)).
    destruct (Z.eqb_spec z 0) as [->|Hz]; cbn [negb andb].
    + rewrite IH by done. f_equal. lia.
    + destruct (Z.ltb_spec acc z); rewrite IH by lia; f_equal; lia.
Qed.

Lemma maxId_largest (articles : list ArticleData) :
  Forall (fun a => id a = None ∨ ∃ z, id a = Some (Int z)) articles →
  maxId articles = Int (largest (existingIds articles)).
Proof.
  intros Hall. unfold maxId. rewrite maxId_from by done.
  pose proof (largest_nonneg (existingIds articles)). f_equal. lia.
Qed.

Lemma storable_integer (articles : list ArticleData) :
  Forall (fun a => storable a = true) articles →
  Forall (fun a => id a = None ∨ ∃ z, id a = Some (Int z)) articles.
Proof.
  intros Hall. eapply Forall_impl; [exact Hall|].
  intros a [[Hid|(z & Hid & _)] _]%storable_inv; eauto.
Qed.

Lemma largest_bound (ids : list Z) : Forall (fun z => (z ≤ largest ids)%Z) ids.
Proof.
  induction ids as [|z ids IH]; [done|]. constructor.
  - unfold largest. cbn [foldr]. lia.
  - eapply Forall_impl; [exact IH|]. unfold largest. cbn [foldr]. intros. lia.
Qed.

(** C3.  When no record of the file carries the identifier, the update
    throws the not-found error and the file is what it was. *)
Theorem update_unknown_id (f : file) (articleId : number) (updates : PartialArticleData) :
  Forall (fun a => id a ≠ Some articleId) (readArticlesFromCSV f) →
  updateArticleInCSV f articleId updates
  = (Throw (Error (notFoundMessage articleId)), f).
Proof.
  intros Habsent. unfold updateArticleInCSV.
  destruct (list_find _ _) as [[index a]|] eqn:Hfind; [|done].
  apply list_find_Some in Hfind as (Hlookup & Hmatch & _).
  apply Is_true_true, idIs_eq in Hmatch.
  rewrite Forall_forall in Habsent.
  by destruct (Habsent a (list_elem_of_lookup_2 _ _ _ Hlookup)).
Qed.

Lemma update_unknown_id_witness :
  updateArticleInCSV twoArticles (Int 999) markPosted
  = (Throw (Error (notFoundMessage (Int 999))), twoArticles).
Proof.
  apply (update_unknown_id twoArticles (Int 999) markPosted).
  apply (bool_decide_unpack _). vm_compute. exact I.
Defined.

End StoreClaims.

Module StoreRoundTrip.

Import JSFacts CsvWriter Notions StoreAux StoreFacts RecordFacts RoundTrip Examples StoreClaims.

(** C1, as amended.  When every record read from a file is storable (all
    nine columns, an identifier that is absent or a non-zero safe integer,
    plain [category_id], [slug] and [status]), writing the records back
    with the serializer of the store and reading again gives the same
    sequence of records; [title], [body], [meta_title] and
    [meta_description] may hold commas, quotes and line feeds. *)
Theorem read_rewrite_read (f : file) :
  Forall (fun a => storable a = true) (readArticlesFromCSV f) →
  ∃ content, rewriteFile (readArticlesFromCSV f) = Return content
    ∧ readArticlesFromCSV (Some content) = readArticlesFromCSV f.
Proof.
  intros Hall. exists (storeFile (readArticlesFromCSV f)).
  split; [by apply rewriteFile_storable|by apply readArticles_storeFile].
Qed.

Lemma read_rewrite_read_witness :
  includes COMMA (default [] (body draft)) = true
  ∧ includes QUOTE (default [] (body draft)) = true
  ∧ includes LF (default [] (body draft)) = true
  ∧ readArticlesFromCSV twoArticles
    = [withId draft (Some (Int 1)); withId draft (Some (Int 2))]
  ∧ ∃ content, rewriteFile (readArticlesFromCSV twoArticles) = Return content
      ∧ readArticlesFromCSV (Some content) = readArticlesFromCSV twoArticles.
Proof.
  split; [reflexivity|]. split; [reflexivity|]. split; [reflexivity|].
  split; [vm_compute; reflexivity|].
  apply (read_rewrite_read twoArticles).
  apply (bool_decide_unpack _). vm_compute. exact I.
Defined.

(** C1, as stated, fails on a standard CSV file: the quoted slug of the
    first row is written back without its quotes, and its comma then
    separates two columns. *)
Lemma quoted_slug_not_stable :
  wellFormedArticleFile quotedSlug = true
  ∧ ∃ content, rewriteFile (readArticlesFromCSV (Some quotedSlug)) = Return content
      ∧ readArticlesFromCSV (Some content) ≠ readArticlesFromCSV (Some quotedSlug).
Proof.
  split; [reflexivity|]. eexists. split; [vm_compute; reflexivity|].
  vm_compute. discriminate.
Qed.

(** An identifier from 10^21 on is written with an exponent, and read back
    as the digit before it; hence the safe integers in [storable]. *)
Example large_identifier_not_stable :
  readArticlesFromCSV (Some (storeFile [withId draft (Some (Int (10 ^ 21)))]))
  = [withId draft (Some (Int 1))].
Proof. vm_compute. reflexivity. Qed.

(** *** Updates *)

Lemma merge_storable (a : ArticleData) (updates : PartialArticleData) :
  storable a = true → keepsStorable updates = true → storable (merge a updates) = true.
Proof.
  unfold storable, keepsStorable, merge. cbn [id category_id title body slug status
    meta_title meta_description api_posted].
  rewrite !andb_true_iff.
  intros ((((((((Hid & Hc) & Ht) & Hb) & Hs) & Hst) & Hne) & Hmt) & Hmd).
  intros (((((((Uid & Uc) & Ut) & Ub) & Us) & Ust) & Umt) & Umd).
  destruct (upd_id updates) as [[?|]|], (upd_category_id updates), (upd_title updates),
    (upd_body updates), (upd_slug updates), (upd_status updates),
    (upd_meta_title updates), (upd_meta_description updates);
    cbn [default from_option] in *;
    repeat match goal with H : _ && _ = true |- _ => apply andb_true_iff in H as [? ?] end;
    repeat split; first [assumption | by apply andb_true_iff].
Qed.

Lemma merge_changesOnly (a : ArticleData) (updates : PartialArticleData) :
  changesOnly updates a (merge a updates).
Proof.
  unfold changesOnly, merge.
  cbn [id category_id title body slug status meta_title meta_description api_posted].
  repeat split; match goal with |- targeted ?given _ _ => by destruct given end.
Qed.

(** C4, as amended.  In a file whose records are all storable (the
    identifiers being absent or non-zero safe integers), an update that
    keeps records storable changes the first record carrying the
    identifier, and only it: after reading the file again every other
    record has all its fields, and of the updated record every field that
    the partial fields hold has the given value and every other field the
    value it had, so that the identifier is kept unless the partial fields
    hold one. *)
Theorem update_changes_only_target (f : file) (z : Z) (updates : PartialArticleData) :
  Forall (fun a => storable a = true) (readArticlesFromCSV f) →
  keepsStorable updates = true →
  Exists (fun a => id a = Some (Int z)) (readArticlesFromCSV f) →
  ∃ index article content,
    readArticlesFromCSV f !! index = Some article
    ∧ id article = Some (Int z)
    ∧ (∀ j b, readArticlesFromCSV f !! j = Some b → (j < index)%nat → id b ≠ Some (Int z))
    ∧ updateArticleInCSV f (Int z) updates = (Return (), Some content)
    ∧ readArticlesFromCSV (Some content) = <[index := merge article updates]> (readArticlesFromCSV f)
    ∧ (∀ j, j ≠ index → readArticlesFromCSV (Some content) !! j = readArticlesFromCSV f !! j)
    ∧ (∃ changed, readArticlesFromCSV (Some content) !! index = Some changed
         ∧ changesOnly updates article changed
         ∧ (upd_id updates = None → id changed = Some (Int z))).
Proof.
  intros Hall Hkeeps Hexists. unfold updateArticleInCSV.
  destruct (list_find _ _) as [[index article]|] eqn:Hfind.
  - apply list_find_Some in Hfind as (Hlookup & Hmatch & Hfirst).
    apply Is_true_true, idIs_true in Hmatch as (z' & Hz & [= <-]).
    assert (Hall' : Forall (fun a => storable a = true)
                      (<[index := merge article updates]> (readArticlesFromCSV f))).
    { apply Forall_insert; [done|]. apply merge_storable; [|done].
      rewrite Forall_forall in Hall. eapply Hall, list_elem_of_lookup_2, Hlookup. }
    exists index, article, (storeFile (<[index := merge article updates]> (readArticlesFromCSV f))).
    rewrite rewriteFile_storable, readArticles_storeFile by done.
    repeat split; try done.
    + intros j b Hb Hj Hid. apply (Hfirst j b Hb Hj).
      apply Is_true_true, idIs_true. eauto.
    + intros j Hj. by apply list_lookup_insert_ne.
    + exists (merge article updates). split; [|split].
      * apply list_lookup_insert_eq. by eapply lookup_lt_Some.
      * apply merge_changesOnly.
      * intros Hnone. unfold merge. cbn [id]. by rewrite Hnone.
  - exfalso. apply Exists_exists in Hexists as (a & Ha & Hid).
    apply list_find_None in Hfind. rewrite Forall_forall in Hfind.
    apply (Hfind a Ha). apply Is_true_true, idIs_true. eauto.
Qed.

Lemma update_changes_only_target_witness :
  ∃ index article content,
    readArticlesFromCSV twoArticles !! index = Some article
    ∧ id article = Some (Int 2)
    ∧ (∀ j b, readArticlesFromCSV twoArticles !! j = Some b → (j < index)%nat
              → id b ≠ Some (Int 2))
    ∧ updateArticleInCSV twoArticles (Int 2) markPosted = (Return (), Some content)
    ∧ readArticlesFromCSV (Some content)
      = <[index := merge article markPosted]> (readArticlesFromCSV twoArticles)
    ∧ (∀ j, j ≠ index
         → readArticlesFromCSV (Some content) !! j = readArticlesFromCSV twoArticles !! j)
    ∧ (∃ changed, readArticlesFromCSV (Some content) !! index = Some changed
         ∧ changesOnly markPosted article changed
         ∧ (upd_id markPosted = None → id changed = Some (Int 2))).
Proof.
  apply (update_changes_only_target twoArticles 2 markPosted).
  - apply (bool_decide_unpack _). vm_compute. exact I.
  - reflexivity.
  - apply (bool_decide_unpack _). vm_compute. exact I.
Defined.

(** C4, as stated, fails on a standard CSV file: marking the second record
    as posted rewrites the first one, whose quoted slug holds a comma, and
    its slug and the columns after it are other values when the file is read
    again. *)
Lemma update_alters_other_record :
  wellFormedArticleFile quotedSlug = true
  ∧ ∃ content,
      updateArticleInCSV (Some quotedSlug) (Int 2) markPosted = (Return (), Some content)
      ∧ slug <$> readArticlesFromCSV (Some quotedSlug) !! 0%nat = Some (Some (lit "a,b"))
      ∧ slug <$> readArticlesFromCSV (Some content) !! 0%nat = Some (Some (lit "a")).
Proof.
  split; [reflexivity|]. eexists. split; [vm_compute; reflexivity|].
  split; vm_compute; reflexivity.
Qed.

End StoreRoundTrip.

Module VerbatimColumns.

Import JSFacts CsvWriter Notions StoreAux StoreFacts RecordFacts RoundTrip Examples StoreClaims.

(** Induction for the loops that may consume two characters at once. *)
Lemma two_step_ind (P : str → Prop) :
  P [] → (∀ c l, P l → P (tail l) → P (c :: l)) → ∀ l, P l.
Proof.
  intros Hnil Hcons l. enough (P l ∧ P (tail l)) by tauto.
  induction l as [|c l [IH1 IH2]]; [done|]. split; [by apply Hcons|done].
Qed.

(** *** The first field that the parser completes *)

Lemma parseFields_acc (line cur : str) (q : bool) (fields : list str) :
  parseFields line cur q fields = fields ++ parseFields line cur q [].
Proof.
  revert cur q fields. induction line as [|c l IH1 IH2] using two_step_ind;
    intros cur q fields; [done|].
  cbn [parseFields]. destruct (c =? QUOTE).
  - destruct q, l as [|n l']; try apply IH1.
    destruct (n =? QUOTE); [apply IH2|apply IH1].
  - destruct ((c =? COMMA) && negb q).
    + rewrite IH1, (IH1 _ _ ([] ++ [cur])). by rewrite <- app_assoc.
    + apply IH1.
Qed.

Lemma parseFields_first (line cur : str) (q : bool) (fields : list str) :
  parseFields line cur q fields !! length fields = Some (cur ++ firstField line q).
Proof.
  rewrite parseFields_acc, lookup_app_r, Nat.sub_diag by done.
  revert cur q. induction line as [|c l IH1 IH2] using two_step_ind; intros cur q.
  - cbn. by rewrite app_nil_r.
  - cbn [parseFields firstField]. destruct (c =? QUOTE).
    + destruct q, l as [|n l']; try apply IH1.
      destruct (n =? QUOTE); [|apply IH1].
      cbn [tail] in IH2. rewrite IH2. by rewrite <- app_assoc.
    + destruct ((c =? COMMA) && negb q).
      * rewrite parseFields_acc. cbn. by rewrite app_nil_r.
      * rewrite IH1. by rewrite <- app_assoc.
Qed.

Lemma firstField_bare (u rest : str) (q : bool) :
  includes QUOTE u = false → (q = true ∨ includes COMMA u = false) →
  firstField (u ++ rest) q = u ++ firstField rest q.
Proof.
  induction u as [|c u IH]; intros Hq Hc; [done|].
  simpl in Hq. apply orb_false_iff in Hq as [Hcq Hq].
  cbn [app firstField]. rewrite Hcq.
  assert ((c =? COMMA) && negb q = false) as ->.
  { destruct Hc as [->|Hc]; [by rewrite andb_false_r|].
    simpl in Hc. by apply orb_false_iff in Hc as [-> _]. }
  rewrite IH; [done|done|].
  destruct Hc as [?|Hc]; [by left|right]. simpl in Hc. by apply orb_false_iff in Hc as [_ ?].
Qed.

Lemma replicate_shift (k : nat) (x : N) (l : str) :
  replicate k x ++ x :: l = x :: replicate k x ++ l.
Proof. induction k as [|k IH]; [done|]. cbn [replicate app]. by rewrite IH. Qed.

(** Inside quotes the parser cannot give back a text that starts with more
    quotes than it has read. *)
Lemma firstField_quotes (v rest : str) (k : nat) :
  firstField (v ++ COMMA :: rest) true ≠ replicate (S k) QUOTE ++ v.
Proof.
  revert k. induction v as [|c l IH1 IH2] using two_step_ind; intros k; [done|].
  cbn [app firstField].
  destruct (N.eqb_spec c QUOTE) as [->|Hc].
  - destruct l as [|n l']; cbn [app].
    + done.
    + destruct (N.eqb_spec n QUOTE) as [->|Hn].
      * cbn [tail] in IH2. cbn [replicate app]. intros [= Heq].
        apply (IH2 (S k)). rewrite Heq. cbn [replicate app].
        by rewrite !replicate_shift.
      * cbn [negb firstField]. rewrite (proj2 (N.eqb_neq n QUOTE)) by done.
        cbn [replicate app]. destruct ((n =? COMMA) && true); [done|].
        by intros [= ->].
  - cbn [negb andb]. rewrite andb_false_r. cbn [replicate app]. by intros [= ->].
Qed.

(** *** When the lines make a single record *)

Lemma joinRecords_acc (lines : list str) (cur : str) (recs : list str) :
  joinRecords lines cur recs = recs ++ joinRecords lines cur [].
Proof.
  revert cur recs. induction lines as [|l lines IH]; intros cur recs.
  - cbn. destruct (nonEmpty cur); [done|by rewrite app_nil_r].
  - rewrite !joinRecords_step. destruct (oddQuotes _); [apply IH|].
    rewrite IH, (IH _ ([] ++ _)). by rewrite <- app_assoc.
Qed.

Lemma joinRecords_nonempty (lines : list str) (cur : str) :
  lines ≠ [] → joinRecords lines cur [] ≠ [].
Proof.
  revert cur. induction lines as [|l lines IH]; intros cur Hne; [done|].
  rewrite joinRecords_step. destruct (oddQuotes _) eqn:Hodd.
  - destruct lines as [|l2 lines]; [|by apply IH].
    cbn. by rewrite (oddQuotes_nonEmpty _ Hodd).
  - rewrite joinRecords_acc. done.
Qed.

Lemma extend_extend (cur l x : str) :
  nonEmpty (extend cur l) = true →
  extend (extend cur l) x = extend cur (l ++ [LF] ++ x).
Proof. intros H. unfold extend at 1. rewrite H. unfold extend. by rewrite <- !app_assoc. Qed.

Lemma joinRecords_single (lines : list str) (cur R : str) :
  lines ≠ [] → joinRecords lines cur [] = [R] → R = extend cur (join [LF] lines).
Proof.
  revert cur. induction lines as [|l lines IH]; intros cur Hne; [done|].
  rewrite joinRecords_step. destruct (oddQuotes _) eqn:Hodd.
  - destruct lines as [|l2 lines].
    + cbn. rewrite (oddQuotes_nonEmpty _ Hodd). by intros [= <-].
    + intros HR. apply IH in HR; [|done]. rewrite HR.
      by rewrite extend_extend by (by apply oddQuotes_nonEmpty).
  - rewrite joinRecords_acc. cbn [app]. intros [= <- Hrest].
    destruct lines as [|l2 lines]; [done|]. by apply joinRecords_nonempty in Hrest.
Qed.

Lemma join_splitFrom (x cur : str) : join [LF] (splitFrom LF x cur) = cur ++ x.
Proof.
  revert cur. induction x as [|c x IH]; intros cur.
  - cbn. by rewrite app_nil_r.
  - cbn [splitFrom]. destruct (N.eqb_spec c LF) as [->|Hc].
    + pose proof (splitFrom_nonempty LF x []) as Hne.
      specialize (IH []). destruct (splitFrom LF x []) as [|p ps]; [done|].
      cbn [join] in *. by rewrite IH.
    + rewrite IH. by rewrite <- app_assoc.
Qed.

Lemma single_record (row R : str) :
  joinRecords (splitFrom LF row []) [] [] = [R] → R = row.
Proof.
  intros H. apply joinRecords_single in H; [|apply splitFrom_nonempty].
  by rewrite join_splitFrom in H.
Qed.

(** *** A column that is written as it is *)

Lemma first_special (d : str) :
  plain d = false →
  ∃ u x v, d = u ++ x :: v
    ∧ includes QUOTE u = false ∧ includes COMMA u = false ∧ includes LF u = false
    ∧ (x = COMMA ∨ x = QUOTE ∨ x = LF).
Proof.
  induction d as [|c d IH]; [done|]. intros Hd.
  destruct (decide (c = COMMA ∨ c = QUOTE ∨ c = LF)) as [Hc|Hc].
  - by exists [], c, d.
  - destruct IH as (u & x & v & -> & Hq & Hcm & Hl & Hx).
    { unfold plain in *. cbn [includes] in Hd.
      rewrite (proj2 (N.eqb_neq c COMMA)), (proj2 (N.eqb_neq c LF)),
        (proj2 (N.eqb_neq c QUOTE)) in Hd by tauto. done. }
    exists (c :: u), x, v. cbn [includes app].
    rewrite Hq, Hcm, Hl.
    rewrite (proj2 (N.eqb_neq c COMMA)), (proj2 (N.eqb_neq c LF)),
      (proj2 (N.eqb_neq c QUOTE)) by tauto. done.
Qed.

Lemma dirty_column (P d rest : str) (fields : list str) :
  recordScan P false = Some false →
  (∀ Y, parseFields (P ++ Y) [] false [] = parseFields Y [] false fields) →
  plain d = false →
  ∀ R, joinRecords (splitFrom LF (P ++ d ++ COMMA :: rest) []) [] [] = [R] →
       parseFields R [] false [] !! length fields ≠ Some d.
Proof.
  intros HP Hparse Hd R HR.
  destruct (first_special d Hd) as (u & x & v & -> & Hq & Hcm & Hl & Hx).
  destruct (decide (x = LF)) as [->|Hx'].
  - exfalso. revert HR.
    replace (P ++ (u ++ LF :: v) ++ COMMA :: rest)
      with ((P ++ u) ++ LF :: (v ++ COMMA :: rest)) by (by rewrite <- !app_assoc).
    rewrite splitFrom_app, joinRecords_record.
    + rewrite joinRecords_acc. cbn [app]. intros [= _ Hrest].
      by apply joinRecords_nonempty in Hrest; [|apply splitFrom_nonempty].
    + change (oddQuotes (extend [] [])) with false.
      rewrite recordScan_app, HP. cbn. by apply recordScan_bare.
  - apply single_record in HR as ->.
    rewrite Hparse, parseFields_first. cbn [app]. intros [= Heq].
    rewrite <- app_assoc in Heq. rewrite firstField_bare in Heq by auto.
    apply app_inv_head in Heq.
    destruct Hx as [ -> | [ -> | -> ] ]; [| |done].
    + done.
    + cbn [app firstField] in Heq. change (QUOTE =? QUOTE) with true in Heq.
      cbv iota in Heq. cbn [negb] in Heq.
      by apply (firstField_quotes v rest 0).
Qed.

Lemma updateLine_typed (a : ArticleData) :
  typed a = true → updateLine a = Return (rowOfArticle a).
Proof.
  unfold typed, updateLine, rowOfArticle. rewrite !andb_true_iff. intros [[[Ht Hb] Hmt] Hmd].
  destruct (title a), (body a), (meta_title a), (meta_description a); try done.
  by rewrite !escapeCSVField_Some.
Qed.

Lemma appendLine_typed_row (a : ArticleData) :
  typed a = true → idMissing a = false → appendLine a = Return (rowOfArticle a).
Proof.
  unfold typed, appendLine, rowOfArticle, idMissing, idText.
  rewrite !andb_true_iff. intros [[[Ht Hb] Hmt] Hmd] Hid.
  destruct (title a), (body a), (meta_title a), (meta_description a); try done.
  rewrite !escapeCSVField_Some.
  destruct (id a) as [n|]; [|done]. apply negb_false_iff in Hid. by rewrite Hid.
Qed.

(** C10.  Both serializers write the same row, in which [escapeCSVField] is
    applied to [title], [body], [meta_title] and [meta_description] and to
    no other column (see [rowOf]); and a record that is read back from its
    row as it was has a [category_id] and a [slug] without comma, double quote
    and line feed. *)
Theorem verbatim_columns (a : ArticleData) :
  typed a = true →
  updateLine a = Return (rowOfArticle a)
  ∧ (idMissing a = false → appendLine a = Return (rowOfArticle a))
  ∧ (readArticlesFromCSV (Some (storeFile [a])) = [a] →
     plainField (category_id a) = true ∧ plainField (slug a) = true).
Proof.
  intros Htyped. split; [by apply updateLine_typed|].
  split; [by apply appendLine_typed_row|].
  unfold storeFile. cbn [map]. rewrite readArticles_rows; [|done|]; last first.
  { intros r [= <-]. apply rowOfArticle_end. }
  cbn [join]. intros Hread.
  destruct (joinRecords _ [] []) as [|R [|R2 Rs]] eqn:Hjoin; try done.
  cbn [map] in Hread. injection Hread as Hread.
  pose proof (f_equal category_id Hread) as Hcat.
  pose proof (f_equal slug Hread) as Hslug.
  cbn [parseCSVLine category_id slug] in Hcat, Hslug.
  set (i := idText (id a)) in *.
  assert (Hi : ∀ x, x = QUOTE ∨ x = COMMA ∨ x = LF → includes x i = false)
    by (intros; by apply idText_bare).
  assert (Hp1 : ∀ Y, parseFields ((i ++ [COMMA]) ++ Y) [] false []
                     = parseFields Y [] false [i]).
  { intros Y. rewrite <- app_assoc, parse_bare by auto. done. }
  assert (Hs1 : recordScan (i ++ [COMMA]) false = Some false).
  { rewrite recordScan_app, recordScan_bare by auto. done. }
  assert (Hc : plainField (category_id a) = true).
  { destruct (plainField (category_id a)) eqn:Hplain; [done|]. exfalso.
    revert Hjoin Hcat. unfold rowOfArticle, rowOf. fold i. cbn [join].
    destruct (category_id a) as [c|]; cbn [default].
    - rewrite (app_assoc i). intros Hjoin Hcat.
      by apply (dirty_column _ _ _ [i] Hs1 Hp1 Hplain R Hjoin).
    - intros Hjoin Hcat. apply single_record in Hjoin as ->.
      rewrite (app_assoc i), Hp1 in Hcat.
      by rewrite (parseFields_first _ _ _ [i]) in Hcat. }
  split; [done|].
  destruct (category_id a) as [c|] eqn:Ec; [|done]. cbn [plainField] in Hc.
  pose proof Htyped as Htyped'. unfold typed in Htyped'. rewrite !andb_true_iff in Htyped'.
  destruct Htyped' as [[[Ht Hb] Hmt] Hmd].
  destruct (title a) as [t|] eqn:Et, (body a) as [b|] eqn:Eb; try done.
  set (P := i ++ [COMMA] ++ c ++ [COMMA] ++ escaped t ++ [COMMA] ++ escaped b ++ [COMMA]).
  assert (Hp2 : ∀ Y, parseFields (P ++ Y) [] false [] = parseFields Y [] false [i; c; t; b]).
  { intros Y. subst P. apply plain_iff in Hc as (? & ? & ?).
    rewrite <- !app_assoc.
    rewrite parse_bare by auto. cbn [app parseFields N.eqb COMMA QUOTE Pos.eqb andb negb].
    rewrite parse_bare by auto. cbn [app parseFields N.eqb COMMA QUOTE Pos.eqb andb negb].
    rewrite parse_escaped by done. cbn [app parseFields N.eqb COMMA QUOTE Pos.eqb andb negb].
    rewrite parse_escaped by done. cbn [app parseFields N.eqb COMMA QUOTE Pos.eqb andb negb].
    done. }
  assert (Hs2 : recordScan P false = Some false).
  { subst P. apply plain_iff in Hc as (? & ? & ?).
    repeat first
      [ rewrite recordScan_app
      | rewrite recordScan_escaped
      | rewrite recordScan_bare by auto
      | rewrite (recordScan_bare [COMMA]) by done
      | progress cbn [mbind option_bind] ].
    done. }
  assert (Hrow : rowOfArticle a
                 = P ++ default [] (slug a) ++ COMMA ::
                     join [COMMA] [status a; escaped (default [] (meta_title a));
                                   escaped (default [] (meta_description a));
                                   flagText (api_posted a)]).
  { unfold rowOfArticle, rowOf. fold i. subst P. rewrite Ec, Et, Eb. cbn [join default].
    rewrite <- !app_assoc. done. }
  rewrite Hrow in Hjoin.
  destruct (plainField (slug a)) eqn:Hplain; [done|]. exfalso.
  destruct (slug a) as [s|]; cbn [default] in *.
  - by apply (dirty_column _ _ _ [i; c; t; b] Hs2 Hp2 Hplain R Hjoin).
  - apply single_record in Hjoin as ->.
    rewrite Hp2 in Hslug.
    by rewrite (parseFields_first _ _ _ [i; c; t; b]) in Hslug.
Qed.

Lemma verbatim_columns_witness :
  updateLine (withId draft (Some (Int 1))) = Return (rowOfArticle (withId draft (Some (Int 1))))
  ∧ (idMissing (withId draft (Some (Int 1))) = false
     → appendLine (withId draft (Some (Int 1)))
       = Return (rowOfArticle (withId draft (Some (Int 1)))))
  ∧ (readArticlesFromCSV (Some (storeFile [withId draft (Some (Int 1))]))
     = [withId draft (Some (Int 1))] →
     plainField (category_id (withId draft (Some (Int 1)))) = true
     ∧ plainField (slug (withId draft (Some (Int 1)))) = true).
Proof. apply (verbatim_columns (withId draft (Some (Int 1)))). reflexivity. Defined.

End VerbatimColumns.

Module MatcherFacts.

Import CsvReader Notions MoreExamples MatcherAux.

Lemma findPersona_Some (personas : list PersonaData) (keyword : SeoKeywordData)
    (p : PersonaData) :
  findPersona personas keyword = Some p →
  firstWithCategory personas (keyword_Category keyword) p.
Proof.
  unfold findPersona. destruct (list_find _ _) as [[i q]|] eqn:Hfind; [|done].
  intros [= <-]. apply list_find_Some in Hfind as (Hlookup & Hcat & Hfirst).
  exists (take i personas), (drop (S i) personas). split; [|split; [done|]].
  - by rewrite take_drop_middle.
  - apply Forall_lookup. intros j y Hy.
    apply lookup_take_Some in Hy as [Hy Hj]. by apply (Hfirst j y).
Qed.

Lemma findPersona_None (personas : list PersonaData) (keyword : SeoKeywordData) :
  findPersona personas keyword = None ↔
  ¬ Exists (fun p => Category p = keyword_Category keyword) personas.
Proof.
  unfold findPersona. destruct (list_find _ _) as [[i q]|] eqn:Hfind.
  - split; [done|]. intros []. apply list_find_Some in Hfind as (Hlookup & Hcat & _).
    apply Exists_exists. exists q. split; [by eapply list_elem_of_lookup_2|done].
  - split; [|done]. intros _. apply list_find_None in Hfind.
    by rewrite <- Forall_Exists_neg.
Qed.

Lemma matches_from (personas : list PersonaData) (keywords : list SeoKeywordData)
    (matches : list MatchData) :
  foldl (fun matches keyword =>
           match findPersona personas keyword with
           | Some matchingPersona =>
             matches ++ [{| match_persona := matchingPersona; match_keyword := keyword |}]
           | None => matches
           end) matches keywords
  = matches ++ omap (taskOf personas) keywords.
Proof.
  revert matches. induction keywords as [|k ks IH]; intros matches.
  - by rewrite app_nil_r.
  - cbn [foldl omap list_omap]. rewrite IH. unfold taskOf at 2.
    destruct (findPersona personas k); cbn; [by rewrite <- app_assoc|done].
Qed.

(** C8.  The tasks are, in the order of the keywords, those keywords whose
    Category is the Category of some persona, each paired with the first
    persona of that Category; the other keywords give no task. *)
Theorem matcher_pairs_first_persona (personas : list PersonaData)
    (keywords : list SeoKeywordData) :
  match_keyword <$> matchPersonaWithKeywords personas keywords
  = filter (fun k => Exists (fun p => Category p = keyword_Category k) personas) keywords
  ∧ Forall (fun m => firstWithCategory personas (keyword_Category (match_keyword m))
                       (match_persona m))
      (matchPersonaWithKeywords personas keywords).
Proof.
  unfold matchPersonaWithKeywords. rewrite matches_from. cbn [app].
  induction keywords as [|k ks [IH1 IH2]]; [done|].
  cbn [omap list_omap]. rewrite filter_cons.
  assert (Htask : taskOf personas k
            = (fun p => {| match_persona := p; match_keyword := k |}) <$> findPersona personas k)
    by done.
  rewrite Htask. clear Htask.
  destruct (findPersona personas k) as [p|] eqn:Hfind; cbn [fmap option_fmap option_map].
  - rewrite decide_True.
    + split; [cbn; by rewrite <- IH1|]. constructor; [by apply findPersona_Some|done].
    + apply findPersona_Some in Hfind as (before & after & -> & Hcat & _).
      apply Exists_app. right. by constructor.
  - rewrite decide_False by (by apply findPersona_None). done.
Qed.

(** The example of the spec: personas A and B, keywords k1 (A), k2 (C) and
    k3 (B). *)
Example matcher_example :
  matchPersonaWithKeywords [personaOf (lit "A"); personaOf (lit "B")]
    [keywordOf (lit "k1") (lit "A"); keywordOf (lit "k2") (lit "C");
     keywordOf (lit "k3") (lit "B")]
  = [ {| match_persona := personaOf (lit "A"); match_keyword := keywordOf (lit "k1") (lit "A") |};
      {| match_persona := personaOf (lit "B"); match_keyword := keywordOf (lit "k3") (lit "B") |} ].
Proof. vm_compute. reflexivity. Qed.

End MatcherFacts.

Module ResolverFacts.

Import CategoryMapper Notions MoreExamples ResolverAux.

Lemma labels_not_inherited : Forall (fun key => key ∉ labels) objectPrototypeKeys.
Proof. apply (bool_decide_unpack _). vm_compute. exact I. Qed.

Lemma labels_distinct : NoDup labels.
Proof. apply (bool_decide_unpack _). vm_compute. exact I. Qed.

(** When every name of the table is in the catalog the mapping holds the
    three labels, in the order of the table, each with the id of the first
    catalog entry of its name. *)
Lemma mapping_complete (categoriesPath : str) (categories : list ArticleCategory)
    (mapping : list (str * Z)) :
  getPersonaCategoryMapping categoriesPath (Some categories) = Return mapping →
  mapping.*1 = labels
  ∧ Forall2 (fun entry row => idOfName categories row.2 = Some entry.2)
      mapping PERSONA_TO_CATEGORY_NAME.
Proof.
  unfold getPersonaCategoryMapping, loadArticleCategories, idOfName.
  cbn [mbind result_bind]. unfold PERSONA_TO_CATEGORY_NAME. cbn [fillMapping].
  destruct (list_find _ categories) as [[i1 c1]|] eqn:H1; [|done].
  destruct (list_find _ categories) as [[i2 c2]|] eqn:H2 in |- *; [|done].
  destruct (list_find _ categories) as [[i3 c3]|] eqn:H3 in |- *; [|done].
  vm_compute setProperty. intros [= <-]. split; [by vm_compute|].
  repeat constructor; cbn [snd]; by rewrite ?H1, ?H2, ?H3.
Qed.

Lemma ownProperty_elem (key : str) (mapping : list (str * Z)) :
  is_Some (ownProperty key mapping) ↔ key ∈ mapping.*1.
Proof.
  unfold ownProperty. split.
  - intros [v Hv]. destruct (list_find _ mapping) as [[i entry]|] eqn:Hfind; [|done].
    apply list_find_Some in Hfind as (Hlookup & <- & _).
    apply list_elem_of_fmap. exists entry. split; [done|by eapply list_elem_of_lookup_2].
  - intros (entry & -> & Hentry)%list_elem_of_fmap.
    destruct (list_find (fun e : str * Z => e.1 = entry.1) mapping) as [[i e]|] eqn:Hfind; [by eexists|].
    apply list_find_None in Hfind. rewrite Forall_forall in Hfind. by destruct (Hfind entry).
Qed.

(** C9, at the failing input.  With a complete catalog, a label that is a
    name of [Object.prototype], such as toString, is not in the static table
    and yet is not rejected: the resolver returns the inherited member. *)
Theorem inherited_label_accepted (categoriesPath : str)
    (categories : list ArticleCategory) (mapping : list (str * Z)) (key : str) :
  getPersonaCategoryMapping categoriesPath (Some categories) = Return mapping →
  key ∈ objectPrototypeKeys →
  (key ∉ labels)
  ∧ getCategoryIdFromPersona categoriesPath (Some categories) key = Return (Inherited key).
Proof.
  intros Hmapping Hkey.
  pose proof labels_not_inherited as Hlabels. rewrite Forall_forall in Hlabels.
  split; [by apply Hlabels|].
  unfold getCategoryIdFromPersona. rewrite Hmapping. cbn [mbind result_bind].
  apply mapping_complete in Hmapping as [Hkeys _].
  assert (Hown : ownProperty key mapping = None).
  { apply eq_None_not_Some. rewrite ownProperty_elem, Hkeys. by apply Hlabels. }
  unfold hasProperty, getProperty. rewrite Hown.
  rewrite (bool_decide_eq_true_2 (key ∈ objectPrototypeKeys)) by done.
  by rewrite orb_true_r.
Qed.

Lemma inherited_label_accepted_witness :
  (lit "toString" ∉ labels)
  ∧ getCategoryIdFromPersona categoriesPath threeCategories (lit "toString")
    = Return (Inherited (lit "toString")).
Proof.
  apply (inherited_label_accepted categoriesPath
           (default [] threeCategories)
           [(lit "現役施設介護士", 3%Z); (lit "潜在有資格者", 2%Z); (lit "収入・条件重視", 1%Z)]
           (lit "toString")).
  - vm_compute. reflexivity.
  - apply (bool_decide_unpack _). vm_compute. exact I.
Defined.

(** What the resolver does on the other inputs. *)
Lemma resolver_known_label (categoriesPath : str) (categories : list ArticleCategory)
    (mapping : list (str * Z)) (label categoryName : str) :
  getPersonaCategoryMapping categoriesPath (Some categories) = Return mapping →
  (label, categoryName) ∈ PERSONA_TO_CATEGORY_NAME →
  ∃ n, idOfName categories categoryName = Some n
    ∧ getCategoryIdFromPersona categoriesPath (Some categories) label = Return (Own n).
Proof.
  intros Hmapping Hin. unfold getCategoryIdFromPersona. rewrite Hmapping.
  cbn [mbind result_bind].
  revert Hmapping Hin.
  unfold getPersonaCategoryMapping, loadArticleCategories, idOfName.
  cbn [mbind result_bind]. unfold PERSONA_TO_CATEGORY_NAME. cbn [fillMapping].
  destruct (list_find _ categories) as [[i1 c1]|] eqn:H1; [|done].
  destruct (list_find _ categories) as [[i2 c2]|] eqn:H2 in |- *; [|done].
  destruct (list_find _ categories) as [[i3 c3]|] eqn:H3 in |- *; [|done].
  vm_compute setProperty. intros [= <-] Hin.
  repeat (apply elem_of_cons in Hin as [[= -> ->]|Hin]);
    [| | |by apply elem_of_nil in Hin]; eexists;
    (split; [rewrite ?H1, ?H2, ?H3; reflexivity|]); by vm_compute.
Qed.

Lemma resolver_missing_name (categoriesPath : str) (categories : list ArticleCategory)
    (label : str) :
  Exists (fun row => idOfName categories row.2 = None) PERSONA_TO_CATEGORY_NAME →
  ∃ row, row ∈ PERSONA_TO_CATEGORY_NAME ∧ idOfName categories row.2 = None
    ∧ getCategoryIdFromPersona categoriesPath (Some categories) label
      = Throw (Error (categoryNameMissing row.2 row.1)).
Proof.
  unfold getCategoryIdFromPersona, getPersonaCategoryMapping, loadArticleCategories, idOfName.
  cbn [mbind result_bind]. unfold PERSONA_TO_CATEGORY_NAME. cbn [fillMapping].
  intros Hex.
  destruct (list_find _ categories) as [[i1 c1]|] eqn:H1; last first.
  { eexists (_, _). split; [left|]. cbn [fst snd].
    split; [rewrite H1; reflexivity|reflexivity]. }
  destruct (list_find _ categories) as [[i2 c2]|] eqn:H2 in |- *; last first.
  { eexists (_, _). split; [right; left|]. cbn [fst snd].
    split; [rewrite H2; reflexivity|reflexivity]. }
  destruct (list_find _ categories) as [[i3 c3]|] eqn:H3 in |- *; last first.
  { eexists (_, _). split; [right; right; left|]. cbn [fst snd].
    split; [rewrite H3; reflexivity|reflexivity]. }
  exfalso. apply Exists_exists in Hex as ([l n] & Hin & Hnone). cbn [snd] in Hnone.
  repeat (apply elem_of_cons in Hin as [[= -> ->]|Hin]); [| | |by apply elem_of_nil in Hin].
  - by rewrite H1 in Hnone.
  - by rewrite H2 in Hnone.
  - by rewrite H3 in Hnone.
Qed.

Lemma resolver_unknown_label (categoriesPath : str) (categories : list ArticleCategory)
    (mapping : list (str * Z)) (label : str) :
  getPersonaCategoryMapping categoriesPath (Some categories) = Return mapping →
  label ∉ labels → label ∉ objectPrototypeKeys →
  getCategoryIdFromPersona categoriesPath (Some categories) label
  = Throw (Error (personaCategoryMissing label labels)).
Proof.
  intros Hmapping Hlabel Hproto. unfold getCategoryIdFromPersona. rewrite Hmapping.
  cbn [mbind result_bind]. apply mapping_complete in Hmapping as [Hkeys _].
  assert (Hown : ownProperty label mapping = None).
  { apply eq_None_not_Some. by rewrite ownProperty_elem, Hkeys. }
  unfold hasProperty. rewrite Hown.
  rewrite (bool_decide_eq_false_2 (label ∈ objectPrototypeKeys)) by done.
  rewrite bool_decide_eq_false_2 by (by intros []). cbn [orb negb].
  change (map fst mapping) with (mapping.*1). by rewrite Hkeys.
Qed.

(** The examples of the spec. *)
Example resolver_example :
  getCategoryIdFromPersona categoriesPath threeCategories (lit "現役施設介護士")
  = Return (Own 3).
Proof. vm_compute. reflexivity. Qed.

Example resolver_unknown_example :
  getCategoryIdFromPersona categoriesPath threeCategories (lit "Unknown Category")
  = Throw (Error (litq "Persona category 'Unknown Category' not found. Available categories: 現役施設介護士, 潜在有資格者, 収入・条件重視")).
Proof. vm_compute. reflexivity. Qed.

End ResolverFacts.

Module GeneratorFacts.

Import JSFacts ArticleGenerator Notions MoreExamples.

Lemma fromFirst_Some (c : N) (s t : str) :
  fromFirst c s = Some t → ∃ pre rest, s = pre ++ c :: rest ∧ t = c :: rest ∧ (c ∉ pre).
Proof.
  induction s as [|x s IH]; [done|]. cbn [fromFirst].
  destruct (N.eqb_spec x c) as [->|Hx].
  - intros [= <-]. exists [], s. split; [done|]. split; [done|]. apply not_elem_of_nil.
  - intros (pre & rest & -> & -> & Hpre)%IH. exists (x :: pre), rest.
    split; [done|]. split; [done|]. rewrite elem_of_cons. intros [?|?]; [by subst|done].
Qed.

Lemma fromFirst_None (c : N) (s : str) : fromFirst c s = None → c ∉ s.
Proof.
  induction s as [|x s IH]; [intros _; apply not_elem_of_nil|]. cbn [fromFirst].
  destruct (N.eqb_spec x c) as [->|Hx]; [done|].
  intros H%IH. rewrite elem_of_cons. intros [?|?]; [by subst|done].
Qed.

Lemma uptoLast_None (c : N) (s : str) : uptoLast c s = None → c ∉ s.
Proof.
  induction s as [|x s IH]; [intros _; apply not_elem_of_nil|]. cbn [uptoLast].
  destruct (uptoLast c s); [done|]. destruct (N.eqb_spec x c) as [->|Hx]; [done|].
  intros _. rewrite elem_of_cons. intros [?|?]; [by subst|by apply IH].
Qed.

Lemma uptoLast_Some (c : N) (s p : str) :
  uptoLast c s = Some p → ∃ mid post, p = mid ++ [c] ∧ s = p ++ post ∧ (c ∉ post).
Proof.
  revert p. induction s as [|x s IH]; intros p; [done|]. cbn [uptoLast].
  destruct (uptoLast c s) as [q|] eqn:Hq.
  - intros [= <-]. destruct (IH q eq_refl) as (mid & post & -> & -> & Hpost).
    by exists (x :: mid), post.
  - destruct (N.eqb_spec x c) as [->|Hx]; [|done]. intros [= <-].
    exists [], s. split; [done|]. split; [done|]. by apply uptoLast_None.
Qed.

(** The match is the span from the first opening brace to the last closing
    brace. *)
Lemma jsonMatch_Some (text json : str) :
  jsonMatch text = Some json →
  ∃ pre mid post, text = pre ++ json ++ post ∧ json = LBRACE :: mid ++ [RBRACE]
    ∧ (LBRACE ∉ pre) ∧ (RBRACE ∉ post).
Proof.
  unfold jsonMatch. destruct (fromFirst LBRACE text) as [t|] eqn:Hfirst; [|done].
  apply fromFirst_Some in Hfirst as (pre & rest & -> & -> & Hpre).
  destruct (uptoLast RBRACE rest) as [p|] eqn:Hlast; [|done].
  apply uptoLast_Some in Hlast as (mid & post & -> & -> & Hpost).
  intros [= <-]. exists pre, mid, post. repeat split; done.
Qed.

Lemma jsonMatch_None (text : str) :
  jsonMatch text = None → ∀ a b c, text ≠ a ++ LBRACE :: b ++ RBRACE :: c.
Proof.
  unfold jsonMatch. intros Hnone a b c ->.
  destruct (fromFirst LBRACE _) as [t|] eqn:Hfirst.
  - apply fromFirst_Some in Hfirst as (pre & rest & Heq & -> & Hpre).
    destruct (uptoLast RBRACE rest) as [p|] eqn:Hlast; [done|].
    apply uptoLast_None in Hlast. apply Hlast. clear Hnone Hlast.
    revert a Heq. induction pre as [|x pre IH]; intros a Heq.
    + destruct a as [|y a]; cbn in Heq.
      * injection Heq as <-. apply elem_of_app. right. by left.
      * injection Heq as _ <-. apply elem_of_app. right. right.
        apply elem_of_app. right. by left.
    + destruct a as [|y a]; cbn in Heq.
      * injection Heq as <- _. exfalso. apply Hpre. by left.
      * injection Heq as _ Heq. apply not_elem_of_cons in Hpre as [_ Hpre].
        by apply (IH Hpre a).
  - apply fromFirst_None in Hfirst. apply Hfirst. apply elem_of_app. right. by left.
Qed.

(** C7, as amended.  The client takes the span from the first opening brace
    of the reply to its last closing brace.  When there is none it throws
    the error of the claim.  When [JSON.parse] turns the span into an object
    with a title and a body that are not empty, the client returns them with
    the slug of the object, or with [generateSlug] of the title when the
    object has no slug. *)
Theorem generation_client_extraction (JSON_parse : str → str + parsedDraft) (text : str) :
  match jsonMatch text with
  | None =>
    (∀ a b c, text ≠ a ++ LBRACE :: b ++ RBRACE :: c)
    ∧ parseReply JSON_parse text
      = Throw (Error (lit "Failed to parse JSON from model response"))
  | Some json =>
    (∃ pre mid post, text = pre ++ json ++ post ∧ json = LBRACE :: mid ++ [RBRACE]
       ∧ (LBRACE ∉ pre) ∧ (RBRACE ∉ post))
    ∧ ∀ parsed t b,
        JSON_parse json = inr parsed →
        parsed_title parsed = Some t → t ≠ [] →
        parsed_body parsed = Some b → b ≠ [] →
        parseReply JSON_parse text
        = Return {| draft_title := t; draft_body := b;
                    draft_slug := match parsed_slug parsed with
                                  | Some (c :: s) => c :: s
                                  | _ => generateSlug t
                                  end |}
  end.
Proof.
  destruct (jsonMatch text) as [json|] eqn:Hmatch.
  - split; [by apply jsonMatch_Some|].
    intros parsed t b Hparse Ht Hne Hb Hbne. unfold parseReply. rewrite Hmatch, Hparse, Ht, Hb.
    destruct t, b; try done. cbn [blank orb default].
    by destruct (parsed_slug parsed) as [[|? ?]|].
  - split; [by apply jsonMatch_None|]. unfold parseReply. by rewrite Hmatch.
Qed.

(** The reply of the spec's example, once [JSON.parse] has read the object
    in it: title T, body B and the derived slug t. *)
Lemma generation_client_extraction_witness :
  jsonMatch sureReply = Some objectText
  ∧ parseReply parseObjectText sureReply
    = Return {| draft_title := lit "T"; draft_body := lit "B"; draft_slug := lit "t" |}.
Proof.
  pose proof (generation_client_extraction parseObjectText sureReply) as H.
  assert (Hmatch : jsonMatch sureReply = Some objectText) by (vm_compute; reflexivity).
  rewrite Hmatch in H. split; [exact Hmatch|].
  destruct H as [_ H].
  apply (H {| parsed_title := Some (lit "T"); parsed_body := Some (lit "B");
              parsed_slug := None |} (lit "T") (lit "B"));
    first [reflexivity | discriminate].
Defined.

(** C7, as stated, fails on a reply with two objects: the first balanced
    object is not what the client extracts. *)
Lemma greedy_match_not_first_object :
  firstBalanced twoObjects = Some objectText
  ∧ jsonMatch twoObjects = Some twoObjects
  ∧ twoObjects ≠ objectText.
Proof. split; [by vm_compute|]. split; [by vm_compute|]. by vm_compute. Qed.

(** The derived slug is empty when the title has no character of the slug
    alphabet. *)
Example empty_slug : generateSlug (lit "!?") = [].
Proof. vm_compute. reflexivity. Qed.

Lemma no_brace_reply (JSON_parse : str → str + parsedDraft) (text : str) :
  LBRACE ∉ text →
  parseReply JSON_parse text = Throw (Error (lit "Failed to parse JSON from model response")).
Proof.
  intros Hno. unfold parseReply.
  destruct (jsonMatch text) as [json|] eqn:Hmatch; [|done].
  apply jsonMatch_Some in Hmatch as (pre & mid & post & -> & -> & _).
  exfalso. apply Hno. apply elem_of_app. right. by left.
Qed.

Lemma transport_failure_propagates (JSON_parse : str → str + parsedDraft) (e : exn) :
  generateArticleDraft JSON_parse (Throw e) = Throw e.
Proof. done. Qed.

End GeneratorFacts.

Module PipelineFacts.

Import ArticlePipeline Notions MoreExamples PipelineAux.

Section Batch.

Variable generateArticle : nat → ArticleGenerationInput → result ArticleData.

Lemma generateLoop_spec (len i : nat) (inputs : list ArticleGenerationInput)
    (articles : list ArticleData) (trace : list event) :
  generateLoop generateArticle len i inputs articles trace
  = (articles ++ successes generateArticle i inputs,
     trace ++ turns generateArticle len i inputs).
Proof.
  revert i articles trace. induction inputs as [|input rest IH]; intros i articles trace.
  - cbn. by rewrite !app_nil_r.
  - cbn [generateLoop successes turns]. unfold generated, turn.
    destruct (generateArticle i input) as [article|e].
    + destruct (i <? len - 1)%nat; rewrite IH; by rewrite <- !app_assoc.
    + rewrite IH. by rewrite <- !app_assoc.
Qed.

(** Every task is attempted, in order, whatever the outcome of the others;
    the result holds the records of the calls that succeeded, in order; a
    failure is logged; the pause follows a call that succeeded and is not
    the last one. *)
Lemma generateMultipleArticles_spec (inputs : list ArticleGenerationInput) :
  generateMultipleArticles generateArticle inputs
  = (successes generateArticle 0 inputs,
     [outputConsole info (count (length inputs) ++ lit "件の記事を生成します")]
     ++ turns generateArticle (length inputs) 0 inputs
     ++ [outputConsole success
           ([LF] ++ lit "全体完了: " ++ count (length (successes generateArticle 0 inputs)) ++ lit "/"
            ++ count (length inputs) ++ lit "件の記事を生成しました")]).
Proof.
  unfold generateMultipleArticles. rewrite generateLoop_spec. cbn [app].
  reflexivity.
Qed.

(** C2, at the failing input.  When the first of two calls fails and the
    second succeeds, the batch returns the second record alone, and nothing
    but the log of the failure separates the two calls: there is no pause
    between them. *)
Theorem no_pause_after_failure (i1 i2 : ArticleGenerationInput) (e : exn)
    (article : ArticleData) :
  generateArticle 0%nat i1 = Throw e →
  generateArticle 1%nat i2 = Return article →
  generateMultipleArticles generateArticle [i1; i2]
  = ([article],
     [ outputConsole info (lit "2件の記事を生成します");
       outputConsole info ([LF] ++ lit "[1/2] 処理中...");
       generateArticleCall 0 i1;
       outputConsole error (lit "記事生成に失敗: " ++ getErrorMessage e);
       outputConsole info ([LF] ++ lit "[2/2] 処理中...");
       generateArticleCall 1 i2;
       outputConsole success ([LF] ++ lit "全体完了: 1/2件の記事を生成しました") ]).
Proof.
  intros H1 H2. rewrite generateMultipleArticles_spec.
  cbn [successes turns length]. unfold generated, turn. rewrite H1, H2.
  vm_compute. reflexivity.
Qed.

End Batch.

Lemma no_pause_after_failure_witness :
  generateMultipleArticles firstFails [inputOf (lit "k1") (lit "A"); inputOf (lit "k2") (lit "B")]
  = ([secondArticle],
     [ outputConsole info (lit "2件の記事を生成します");
       outputConsole info ([LF] ++ lit "[1/2] 処理中...");
       generateArticleCall 0 (inputOf (lit "k1") (lit "A"));
       outputConsole error (lit "記事生成に失敗: "
                            ++ getErrorMessage (Error (lit "First article failed")));
       outputConsole info ([LF] ++ lit "[2/2] 処理中...");
       generateArticleCall 1 (inputOf (lit "k2") (lit "B"));
       outputConsole success ([LF] ++ lit "全体完了: 1/2件の記事を生成しました") ]).
Proof.
  exact (no_pause_after_failure firstFails (inputOf (lit "k1") (lit "A"))
           (inputOf (lit "k2") (lit "B")) (Error (lit "First article failed"))
           secondArticle eq_refl eq_refl).
Defined.

(** The pause is there when both calls succeed. *)
Example pause_between_successes :
  (generateMultipleArticles (fun _ _ => Return secondArticle)
     [inputOf (lit "k1") (lit "A"); inputOf (lit "k2") (lit "B")]).2
  = [ outputConsole info (lit "2件の記事を生成します");
      outputConsole info ([LF] ++ lit "[1/2] 処理中...");
      generateArticleCall 0 (inputOf (lit "k1") (lit "A"));
      sleep 2000;
      outputConsole info ([LF] ++ lit "[2/2] 処理中...");
      generateArticleCall 1 (inputOf (lit "k2") (lit "B"));
      outputConsole success ([LF] ++ lit "全体完了: 2/2件の記事を生成しました") ].
Proof. vm_compute. reflexivity. Qed.

End PipelineFacts.

Module PublisherFacts.

Import ArticlePublisher Notions MoreExamples.

(** C6.  The publisher throws exactly when it is not in mock mode and the
    store endpoint or the token is missing, and then with the error of that
    setting; with both configured, a rejected request gives a result whose
    [success] is false and that has a message. *)
Theorem publisher_throws_only_for_configuration (mockMode : bool) (random : Z)
    (config : LaravelConfig) (post : result PostResponse) (article : ArticleData) :
  (∀ e, publishArticleToLaravel mockMode random config post article = Throw e ↔
        mockMode = false
        ∧ (store config = [] ∧ e = Error (lit "Laravel API store endpoint is not configured")
           ∨ store config ≠ [] ∧ apiToken config = []
             ∧ e = Error (lit "Laravel API token is not configured")))
  ∧ (mockMode = false → store config ≠ [] → apiToken config ≠ [] →
     ∀ e, post = Throw e →
     ∃ message, publishArticleToLaravel mockMode random config post article
                = Return {| publish_success := false; articleId := None;
                            publish_message := Some message |}).
Proof.
  unfold publishArticleToLaravel. split.
  - intros e. destruct mockMode; [split; [done|by intros [? _]]|].
    destruct (store config) as [|c s]; cbn [nonEmpty negb].
    { split; [intros [= <-]; auto|]. by intros [_ [[_ ->]|[? _]]]. }
    destruct (apiToken config) as [|c' s']; cbn [nonEmpty negb].
    { split; [intros [= <-]; auto|]. by intros [_ [[? _]|[_ [_ ->]]]]. }
    split; [|by intros [_ [[? _]|[_ [? _]]]]].
    destruct post as [response|err]; cbn [mbind result_bind].
    + destruct (post_status response =? 201)%Z; [|done].
      by destruct (response_data response) as [[|?]|].
    + by destruct err.
  - intros -> Hstore Htoken e ->.
    destruct (store config); [done|]. destruct (apiToken config); [done|].
    cbn [nonEmpty negb mbind result_bind]. destruct e; eexists; reflexivity.
Qed.

Lemma publisher_throws_only_for_configuration_witness :
  publishArticleToLaravel false 0 configured (Throw timeout) Examples.draft
  = Return {| publish_success := false; articleId := None;
              publish_message := Some (lit "API Error (N/A): timeout of 30000ms exceeded") |}.
Proof.
  destruct (publisher_throws_only_for_configuration false 0 configured (Throw timeout)
              Examples.draft) as [_ H].
  destruct (H eq_refl ltac:(discriminate) ltac:(discriminate) timeout eq_refl) as [message Hm].
  rewrite Hm. vm_compute in Hm. injection Hm as <-. vm_compute. reflexivity.
Defined.

(** A status other than 2xx reaches the publisher as a rejection that
    carries the response. *)
Example publish_server_error :
  publishArticleToLaravel false 0 configured
    (Throw (AxiosError (lit "Request failed with status code 500") None
              (Some {| response_status := 500;
                       response_message := Some (lit "Server Error") |})))
    Examples.draft
  = Return {| publish_success := false; articleId := None;
              publish_message := Some (lit "API Error (500): Server Error") |}.
Proof. vm_compute. reflexivity. Qed.

(** A 201 response whose [article] object carries no [id] is a success
    without [articleId]. *)
Example publish_without_id :
  publishArticleToLaravel false 0 configured
    (Return {| post_status := 201; response_data := Some (ArticleObject None) |})
    Examples.draft
  = Return {| publish_success := true; articleId := None;
              publish_message := Some (lit "Article published successfully") |}.
Proof. vm_compute. reflexivity. Qed.

End PublisherFacts.

Module SequenceFacts.

Import JSFacts CsvWriter Notions StoreAux StoreFacts RecordFacts RoundTrip StoreClaims.
Import StoreRoundTrip VerbatimColumns StoreSequences Examples.

Lemma rows_closed (rows : list str) :
  rows ≠ [] → join [LF] rows ++ [LF] = flat_map (fun r => r ++ [LF]) rows.
Proof.
  induction rows as [|r rest IH]; [done|]. intros _.
  destruct rest as [|r' rest]; [cbn; by rewrite app_nil_r|].
  change (join [LF] (r :: r' :: rest)) with (r ++ [LF] ++ join [LF] (r' :: rest)).
  change (flat_map _ (r :: r' :: rest))
    with ((r ++ [LF]) ++ flat_map (fun r => r ++ [LF]) (r' :: rest)).
  rewrite <- IH by done. by rewrite <- !app_assoc.
Qed.

Lemma stored_storeFile (articles : list ArticleData) :
  articles ≠ [] → stored articles = storeFile articles.
Proof.
  intros Hne. unfold stored, storeFile. do 2 f_equal.
  rewrite rows_closed by (by destruct articles).
  induction articles as [|a rest IH]; [done|]. cbn [map flat_map]. f_equal.
  destruct rest; [done|]. by apply IH.
Qed.

Lemma read_stored (articles : list ArticleData) :
  Forall (fun a => storable a = true) articles →
  readArticlesFromCSV (Some (stored articles)) = articles.
Proof.
  intros Hall. destruct articles as [|a rest]; [by vm_compute|].
  rewrite stored_storeFile by done. by apply readArticles_storeFile.
Qed.

Lemma stored_app (articles : list ArticleData) (a : ArticleData) :
  stored (articles ++ [a]) = stored articles ++ rowOfArticle a ++ [LF].
Proof.
  unfold stored. rewrite flat_map_app. cbn [flat_map]. rewrite app_nil_r.
  by rewrite <- !app_assoc.
Qed.

Lemma storable_typed (a : ArticleData) : storable a = true → typed a = true.
Proof.
  intros (_ & c & t & b & s & mt & md & _ & Ht & Hb & _ & Hmt & Hmd & _)%storable_inv.
  unfold typed. by rewrite Ht, Hb, Hmt, Hmd.
Qed.

Lemma storable_withId (a : ArticleData) (z : Z) :
  storable a = true → z ≠ 0%Z → (Z.abs z < 2 ^ 53)%Z →
  storable (withId a (Some (Int z))) = true.
Proof.
  intros Ha Hz Hsafe. unfold storable in *. cbn [withId id category_id title body slug status
    meta_title meta_description truthy safeInteger].
  rewrite !andb_true_iff in *. destruct Ha as [[[[[[[[_ ?] ?] ?] ?] ?] ?] ?] ?].
  repeat split; try done; [by destruct (Z.eqb_spec z 0)|by apply Z.ltb_lt].
Qed.

Lemma savedAfter_storable (articles : list ArticleData) (a : ArticleData) :
  (largest (existingIds articles) + 1 < 2 ^ 53)%Z →
  storable a = true →
  storable (savedAfter articles a) = true ∧ idMissing (savedAfter articles a) = false.
Proof.
  intros Hroom Ha. unfold savedAfter. destruct (idMissing a) eqn:Hid; [|done].
  pose proof (largest_nonneg (existingIds articles)).
  split; [apply storable_withId; [done|lia|lia]|].
  unfold idMissing. cbn [withId id truthy].
  destruct (Z.eqb_spec (largest (existingIds articles) + 1) 0); [lia|done].
Qed.

(** What one append does to a file in the store's own format, while the
    next identifier is a safe integer. *)
Lemma append_stored (articles : list ArticleData) (a : ArticleData) :
  Forall (fun a => storable a = true) articles → storable a = true →
  (largest (existingIds articles) + 1 < 2 ^ 53)%Z →
  appendArticleToCSV (Some (stored articles)) a
  = (Return (savedAfter articles a), Some (stored (articles ++ [savedAfter articles a]))).
Proof.
  intros Hall Ha Hroom. unfold appendArticleToCSV. rewrite read_stored by done.
  rewrite maxId_largest by (by apply storable_integer).
  pose proof (largest_nonneg (existingIds articles)).
  rewrite addOne_safe by lia. fold (savedAfter articles a).
  destruct (savedAfter_storable articles a Hroom Ha) as [Hs Hid].
  rewrite appendLine_typed_row by (by try apply storable_typed).
  unfold appendFileSync. cbn [default]. by rewrite stored_app.
Qed.

Lemma existingIds_app (l1 l2 : list ArticleData) :
  existingIds (l1 ++ l2) = existingIds l1 ++ existingIds l2.
Proof. unfold existingIds. by rewrite omap_app. Qed.

Lemma largest_app (l1 l2 : list Z) : largest (l1 ++ l2) = Z.max (largest l1) (largest l2).
Proof.
  induction l1 as [|x l1 IH]; cbn [app largest foldr].
  - pose proof (largest_nonneg l2). unfold largest in *. lia.
  - fold (largest (l1 ++ l2)). fold (largest l1). rewrite IH. lia.
Qed.

Lemma appendAll_stored (articles : list ArticleData) (new : list ArticleData) :
  Forall (fun a => storable a = true) articles →
  Forall (fun a => storable a = true ∧ id a = None) new →
  (largest (existingIds articles) + Z.of_nat (length new) < 2 ^ 53)%Z →
  let saved := numbered (largest (existingIds articles) + 1) new in
  appendAll (Some (stored articles)) new = (Return saved, Some (stored (articles ++ saved)))
  ∧ Forall (fun a => storable a = true) saved.
Proof.
  intros Hall Hnew. revert articles Hall.
  induction Hnew as [|a rest [Ha Hid] _ IH]; intros articles Hall Hroom; cbn zeta.
  - cbn. by rewrite app_nil_r.
  - cbn [length] in Hroom. cbn [appendAll numbered]. rewrite append_stored by (done || lia).
    assert (Hsaved : savedAfter articles a
                     = withId a (Some (Int (largest (existingIds articles) + 1)))).
    { unfold savedAfter, idMissing. by rewrite Hid. }
    rewrite Hsaved.
    pose proof (largest_nonneg (existingIds articles)) as Hnn.
    assert (Hst : storable (withId a (Some (Int (largest (existingIds articles) + 1)))) = true)
      by (apply storable_withId; [done|lia|lia]).
    assert (Hl : largest (existingIds
                   (articles ++ [withId a (Some (Int (largest (existingIds articles) + 1)))]))
                 = (largest (existingIds articles) + 1)%Z).
    { rewrite existingIds_app, largest_app. cbn. lia. }
    destruct (IH (articles ++ [withId a (Some (Int (largest (existingIds articles) + 1)))]))
      as [Heq Hrest].
    { apply Forall_app. split; [done|]. by apply Forall_cons. }
    { rewrite Hl. lia. }
    rewrite Hl in Heq, Hrest. rewrite Heq. rewrite <- app_assoc. cbn [app].
    split; [done|]. by apply Forall_cons.
Qed.

Lemma numbered_ids (first : Z) (articles : list ArticleData) :
  id <$> numbered first articles = (fun z => Some (Int z)) <$> seqZ first (Z.of_nat (length articles)).
Proof.
  revert first. induction articles as [|a rest IH]; intros first; [done|].
  cbn [numbered length fmap list_fmap]. rewrite Nat2Z.inj_succ.
  rewrite seqZ_cons by lia. cbn [fmap list_fmap withId id]. f_equal.
  rewrite IH. do 2 f_equal; lia.
Qed.

(** X1.  Appending to a store file of storable records, the identifier
    after the largest one being a safe integer (below 2^53): the call
    returns the saved record, which has the article's own identifier or the
    next free one, the file is the old one followed by the row of that
    record, and reading it gives the old records followed by the saved one. *)
Theorem append_then_read (articles : list ArticleData) (article : ArticleData) :
  Forall (fun a => storable a = true) articles → storable article = true →
  (largest (existingIds articles) + 1 < 2 ^ 53)%Z →
  let saved := savedAfter articles article in
  let after := (appendArticleToCSV (Some (stored articles)) article).2 in
  (appendArticleToCSV (Some (stored articles)) article).1 = Return saved
  ∧ after = Some (stored (articles ++ [saved]))
  ∧ readArticlesFromCSV after = articles ++ [saved].
Proof.
  intros Hall Ha Hroom. cbn zeta. rewrite append_stored by done. cbn [fst snd].
  split; [done|]. split; [done|]. apply read_stored. apply Forall_app. split; [done|].
  apply Forall_cons. split; [|done]. by apply savedAfter_storable.
Qed.

Lemma append_then_read_witness :
  readArticlesFromCSV
    (appendArticleToCSV (Some (stored [withId draft (Some (Int 1))])) draft).2
  = [withId draft (Some (Int 1)); withId draft (Some (Int 2))].
Proof.
  destruct (append_then_read [withId draft (Some (Int 1))] draft) as (_ & _ & H).
  - apply Forall_cons. split; [vm_compute; reflexivity|constructor].
  - vm_compute; reflexivity.
  - vm_compute; reflexivity.
  - exact H.
Defined.

(** X2.  Successive appends of storable articles without identifier, as
    long as the identifiers stay safe integers (below 2^53), give them
    consecutive identifiers, starting after the largest one of the store;
    all of them are new, and the file reads as the old records followed by
    the saved ones, in order. *)
Theorem successive_appends (articles new : list ArticleData) :
  Forall (fun a => storable a = true) articles →
  Forall (fun a => storable a = true ∧ id a = None) new →
  (largest (existingIds articles) + Z.of_nat (length new) < 2 ^ 53)%Z →
  let first := (largest (existingIds articles) + 1)%Z in
  let saved := numbered first new in
  appendAll (Some (stored articles)) new = (Return saved, Some (stored (articles ++ saved)))
  ∧ id <$> saved = (fun z => Some (Int z)) <$> seqZ first (Z.of_nat (length new))
  ∧ Forall (fun z => (z < first)%Z) (existingIds articles)
  ∧ readArticlesFromCSV (Some (stored (articles ++ saved))) = articles ++ saved.
Proof.
  intros Hall Hnew Hroom. cbn zeta.
  destruct (appendAll_stored articles new Hall Hnew Hroom) as [Heq Hsaved].
  split; [done|]. split; [apply numbered_ids|]. split.
  - eapply Forall_impl; [apply largest_bound|]. cbn. intros. lia.
  - apply read_stored. apply Forall_app. by split.
Qed.

Lemma successive_appends_witness :
  appendAll (Some (stored [])) [draft; MoreExamples.secondArticle]
  = (Return [withId draft (Some (Int 1)); withId MoreExamples.secondArticle (Some (Int 2))],
     Some (stored [withId draft (Some (Int 1));
                   withId MoreExamples.secondArticle (Some (Int 2))]))
  ∧ readArticlesFromCSV
      (Some (stored [withId draft (Some (Int 1));
                     withId MoreExamples.secondArticle (Some (Int 2))]))
    = [withId draft (Some (Int 1)); withId MoreExamples.secondArticle (Some (Int 2))].
Proof.
  destruct (successive_appends [] [draft; MoreExamples.secondArticle]) as (H1 & _ & _ & H2).
  - constructor.
  - apply Forall_cons. split; [split; [vm_compute; reflexivity|reflexivity]|].
    apply Forall_cons. split; [split; [vm_compute; reflexivity|reflexivity]|constructor].
  - vm_compute; reflexivity.
  - split; [exact H1|exact H2].
Defined.

End SequenceFacts.

Module UpdateFacts.

Import JSFacts CsvWriter Notions StoreAux StoreFacts RecordFacts RoundTrip StoreClaims.
Import StoreRoundTrip VerbatimColumns StoreSequences Examples SequenceFacts.

Lemma list_find_found {A} (P : A → Prop) `{∀ x, Decision (P x)} (l : list A) (i : nat) (a b : A) :
  list_find P l = Some (i, a) → P b → list_find P (<[i := b]> l) = Some (i, b).
Proof.
  intros (Hi & _ & Hbefore)%list_find_Some Hb. apply list_find_Some.
  split; [|split; [done|]].
  - rewrite list_lookup_insert_eq; [done|]. by eapply lookup_lt_Some.
  - intros j y Hj Hlt. rewrite list_lookup_insert_ne in Hj by lia. by eapply Hbefore.
Qed.

Lemma merge_twice (a : ArticleData) (updates : PartialArticleData) :
  merge (merge a updates) updates = merge a updates.
Proof.
  unfold merge; cbn. f_equal.
  - by destruct (upd_id updates).
  - by destruct (upd_category_id updates).
  - by destruct (upd_title updates).
  - by destruct (upd_body updates).
  - by destruct (upd_slug updates).
  - by destruct (upd_status updates).
  - by destruct (upd_meta_title updates).
  - by destruct (upd_meta_description updates).
  - by destruct (upd_api_posted updates).
Qed.

(** What an update does when the records read are storable. *)
Lemma update_found (f : file) (z : Z) (updates : PartialArticleData) (i : nat)
    (a : ArticleData) :
  Forall (fun a => storable a = true) (readArticlesFromCSV f) →
  keepsStorable updates = true →
  list_find (fun article => idIs (Int z) article) (readArticlesFromCSV f) = Some (i, a) →
  updateArticleInCSV f (Int z) updates
  = (Return (), Some (stored (<[i := merge a updates]> (readArticlesFromCSV f))))
  ∧ Forall (fun a => storable a = true) (<[i := merge a updates]> (readArticlesFromCSV f)).
Proof.
  intros Hall Hkeep Hfind. unfold updateArticleInCSV. rewrite Hfind.
  pose proof Hfind as (Hi & _ & _)%list_find_Some.
  assert (Hall' : Forall (fun a => storable a = true)
                    (<[i := merge a updates]> (readArticlesFromCSV f))).
  { apply Forall_insert; [done|]. apply merge_storable; [|done].
    by eapply (proj1 (Forall_lookup _ _) Hall). }
  rewrite rewriteFile_storable by done. split; [|done].
  rewrite stored_storeFile; [done|].
  intros Hnil. apply (f_equal length) in Hnil. rewrite length_insert in Hnil.
  apply lookup_lt_Some in Hi. cbn in Hnil. lia.
Qed.

(** X3.  On a file whose records are storable (their identifiers absent
    or non-zero safe integers, below 2^53), an update that leaves the
    identifier alone is idempotent: applied again to the file it has
    written, it succeeds and writes the same file. *)
Theorem update_is_idempotent (f f' : file) (z : Z) (updates : PartialArticleData) :
  Forall (fun a => storable a = true) (readArticlesFromCSV f) →
  keepsStorable updates = true → upd_id updates = None →
  updateArticleInCSV f (Int z) updates = (Return (), f') →
  updateArticleInCSV f' (Int z) updates = (Return (), f').
Proof.
  intros Hall Hkeep Hid Hfirst.
  destruct (list_find (fun article => idIs (Int z) article) (readArticlesFromCSV f))
    as [[i a]|] eqn:Hfind.
  - destruct (update_found f z updates i a Hall Hkeep Hfind) as [Heq Hall'].
    rewrite Heq in Hfirst. injection Hfirst as <-.
    pose proof Hfind as (Hi & Ha & _)%list_find_Some.
    assert (Hfind' : list_find (fun article => idIs (Int z) article)
                       (<[i := merge a updates]> (readArticlesFromCSV f))
                     = Some (i, merge a updates)).
    { eapply list_find_found; [done|]. unfold idIs in *. unfold merge; cbn [id].
      by rewrite Hid. }
    destruct (update_found (Some (stored (<[i := merge a updates]> (readArticlesFromCSV f))))
                z updates i (merge a updates)) as [Heq' _].
    + by rewrite read_stored.
    + done.
    + by rewrite read_stored.
    + rewrite Heq'. rewrite read_stored by done.
      by rewrite merge_twice, list_insert_insert_eq.
  - unfold updateArticleInCSV in Hfirst. by rewrite Hfind in Hfirst.
Qed.

Lemma update_is_idempotent_witness :
  let f' := (updateArticleInCSV twoArticles (Int 2) markPosted).2 in
  updateArticleInCSV f' (Int 2) markPosted = (Return (), f').
Proof.
  apply (update_is_idempotent twoArticles _ 2 markPosted).
  - apply (bool_decide_unpack _). vm_compute. exact I.
  - reflexivity.
  - reflexivity.
  - vm_compute. reflexivity.
Defined.

End UpdateFacts.

Module UnpublishedFacts.

Import JSFacts CsvWriter Notions StoreAux StoreFacts RecordFacts RoundTrip StoreClaims.
Import StoreRoundTrip VerbatimColumns StoreSequences Examples SequenceFacts UpdateFacts.
Import Scripts PublishArticles.

Lemma loadUnpublished_filter (f : file) :
  (loadUnpublishedArticles f).1
  = filter (fun article => api_posted article = false) (readArticlesFromCSV f).
Proof.
  unfold loadUnpublishedArticles.
  by destruct (filter (fun article => api_posted article = false) (readArticlesFromCSV f)).
Qed.

Lemma filter_all {A} (P : A → Prop) `{∀ x, Decision (P x)} (l : list A) :
  Forall P l → filter P l = l.
Proof.
  induction 1 as [|x l Hx _ IH]; [done|]. rewrite filter_cons. rewrite decide_True by done.
  by rewrite IH.
Qed.

Lemma existingIds_elem (l : list ArticleData) (a : ArticleData) (z : Z) :
  a ∈ l → id a = Some (Int z) → z ∈ existingIds l.
Proof.
  intros Ha Hid. unfold existingIds. apply list_elem_of_omap. exists a. by rewrite Hid.
Qed.

(** With distinct identifiers, at most one position holds a given one. *)
Lemma distinct_ids (l : list ArticleData) (i j : nat) (a b : ArticleData) (z : Z) :
  NoDup (existingIds l) → l !! i = Some a → l !! j = Some b →
  id a = Some (Int z) → id b = Some (Int z) → i = j.
Proof.
  revert i j. induction l as [|x l IH]; intros i j Hnd Hi Hj Ha Hb; [done|].
  assert (Hl : NoDup (existingIds l)).
  { unfold existingIds in *. cbn [omap list_omap] in Hnd.
    destruct (id x) as [[|?|?]|]; try done. by apply NoDup_cons in Hnd as [_ ?]. }
  assert (Hx : id x = Some (Int z) → z ∉ existingIds l).
  { intros Hidx. unfold existingIds in *. cbn [omap list_omap] in Hnd. rewrite Hidx in Hnd.
    by apply NoDup_cons in Hnd as [? _]. }
  destruct i as [|i], j as [|j]; cbn in Hi, Hj; [done| | |f_equal; by eapply IH].
  - injection Hi as ->. destruct (Hx Ha). apply (existingIds_elem l b z); [|done].
    by eapply list_elem_of_lookup_2.
  - injection Hj as ->. destruct (Hx Hb). apply (existingIds_elem l a z); [|done].
    by eapply list_elem_of_lookup_2.
Qed.

(** Setting the flag of the only record with identifier [z] removes the
    records with that identifier from the unpublished ones, and no other. *)
Lemma unposted_insert (l : list ArticleData) (i : nat) (a : ArticleData) (z : Z) :
  NoDup (existingIds l) → l !! i = Some a → id a = Some (Int z) →
  filter (fun article => api_posted article = false) (<[i := merge a markPosted]> l)
  = filter (fun a => id a ≠ Some (Int z))
      (filter (fun article => api_posted article = false) l).
Proof.
  intros Hnd Hi Hida.
  pose proof (take_drop_middle _ _ _ Hi) as Hsplit.
  assert (Hother : ∀ j b, l !! j = Some b → j ≠ i → id b ≠ Some (Int z)).
  { intros j b Hj Hne Hb. apply Hne. by eapply (distinct_ids l j i b a z). }
  assert (H1 : Forall (fun b => id b ≠ Some (Int z)) (take i l)).
  { apply Forall_lookup. intros j b Hj. pose proof (lookup_lt_Some _ _ _ Hj) as Hlt.
    rewrite length_take in Hlt. rewrite lookup_take_lt in Hj by lia.
    apply (Hother j b Hj). lia. }
  assert (H2 : Forall (fun b => id b ≠ Some (Int z)) (drop (S i) l)).
  { apply Forall_lookup. intros j b Hj. rewrite lookup_drop in Hj.
    apply (Hother _ b Hj). lia. }
  rewrite insert_take_drop by (by eapply lookup_lt_Some).
  rewrite <- Hsplit at 3. rewrite !filter_app, !filter_cons.
  rewrite (decide_False (P := api_posted (merge a markPosted) = false)) by done.
  assert (H3 : ∀ l, Forall (fun b => id b ≠ Some (Int z)) l →
                    filter (fun a => id a ≠ Some (Int z))
                      (filter (fun article => api_posted article = false) l)
                    = filter (fun article => api_posted article = false) l).
  { intros l' Hl. apply filter_all. apply Forall_forall. intros x Hx%list_elem_of_filter.
    destruct Hx as [_ Hx]. by eapply (proj1 (Forall_forall _ _) Hl). }
  rewrite (H3 _ H1). f_equal.
  destruct (decide (api_posted a = false)).
  - rewrite filter_cons. rewrite decide_False by (intros Hn; by apply Hn).
    by rewrite (H3 _ H2).
  - by rewrite (H3 _ H2).
Qed.

(** X4.  When the records of the store are storable (their identifiers
    absent or non-zero safe integers, below 2^53) and the identifiers are
    distinct, marking record [z] as posted removes the records with that
    identifier from what [loadUnpublishedArticles] returns, and changes
    nothing else of it. *)
Theorem posted_record_leaves_unpublished (f f' : file) (z : Z) :
  Forall (fun a => storable a = true) (readArticlesFromCSV f) →
  NoDup (existingIds (readArticlesFromCSV f)) →
  updateArticleInCSV f (Int z) markPosted = (Return (), f') →
  (loadUnpublishedArticles f').1
  = filter (fun a => id a ≠ Some (Int z)) (loadUnpublishedArticles f).1.
Proof.
  intros Hall Huniq Hupd. rewrite !loadUnpublished_filter.
  destruct (list_find (fun article => idIs (Int z) article) (readArticlesFromCSV f))
    as [[i a]|] eqn:Hfind.
  2: { unfold updateArticleInCSV in Hupd. by rewrite Hfind in Hupd. }
  destruct (update_found f z markPosted i a Hall eq_refl Hfind) as [Heq Hall'].
  rewrite Heq in Hupd. injection Hupd as <-. rewrite read_stored by done.
  pose proof Hfind as (Hi & Ha & _)%list_find_Some.
  apply Is_true_true, idIs_true in Ha as (z' & Hida & [= <-]).
  by apply unposted_insert.
Qed.

Lemma posted_record_leaves_unpublished_witness :
  (loadUnpublishedArticles (updateArticleInCSV twoArticles (Int 1) markPosted).2).1
  = [withId draft (Some (Int 2))].
Proof.
  rewrite (posted_record_leaves_unpublished twoArticles
             (updateArticleInCSV twoArticles (Int 1) markPosted).2 1).
  - vm_compute. reflexivity.
  - apply (bool_decide_unpack _). vm_compute. exact I.
  - apply (bool_decide_unpack _). vm_compute. exact I.
  - vm_compute. reflexivity.
Defined.

Lemma trimStart_snoc_space (s : str) (c : N) :
  isWhiteSpace c = true →
  trimStart (s ++ [c]) = match trimStart s with [] => [] | _ => trimStart s ++ [c] end.
Proof.
  intros Hc. induction s as [|x s IH]; cbn [app trimStart].
  - by rewrite Hc.
  - destruct (isWhiteSpace x); [done|]. done.
Qed.

Lemma trimStart_suffix (s : str) (c : N) : c ∈ trimStart s → c ∈ s.
Proof.
  induction s as [|x s IH]; [done|]. cbn [trimStart].
  destruct (isWhiteSpace x); [|done]. intros H%IH. by right.
Qed.

Lemma trimEnd_prefix (s : str) (c : N) : c ∈ trimEnd s → c ∈ s.
Proof.
  induction s as [|x s IH]; [done|]. cbn [trimEnd].
  destruct (trimEnd s) as [|y r].
  - destruct (isWhiteSpace x); [by intros ?%elem_of_nil|].
    intros ->%list_elem_of_singleton. by left.
  - intros [->|H]%elem_of_cons; [by left|]. right. by apply IH.
Qed.

Lemma read_single_line (x : str) :
  includes LF x = false → readArticlesFromCSV (Some (x ++ [LF])) = [].
Proof.
  intros Hx. unfold readArticlesFromCSV.
  assert (Hfree : includes LF (trim (x ++ [LF])) = false).
  { apply not_true_is_false. intros Hin%includes_elem. apply not_true_iff_false in Hx.
    apply Hx, includes_elem. unfold trim in Hin. rewrite trimStart_snoc_space in Hin by done.
    destruct (trimStart x) as [|y r] eqn:Hts; [by apply elem_of_nil in Hin|].
    rewrite trimEnd_snoc_space in Hin by done. rewrite <- Hts in Hin.
    by apply trimStart_suffix, trimEnd_prefix. }
  unfold split. by rewrite splitFrom_free.
Qed.

Lemma doubled_free (s : str) : includes LF s = false → includes LF (doubled s) = false.
Proof.
  unfold doubled. induction s as [|c s IH]; [done|]. cbn [includes flat_map].
  intros [Hc Hs]%orb_false_iff. rewrite includes_app, (IH Hs), orb_false_r.
  destruct (c =? QUOTE); cbn [includes]; [done|]. by rewrite Hc.
Qed.

Lemma escaped_free (s : str) : includes LF s = false → includes LF (escaped s) = false.
Proof.
  intros Hs. unfold escaped. destruct (plain s); [done|].
  rewrite !includes_app, doubled_free by done. done.
Qed.

Lemma row_single_line (a : ArticleData) :
  singleLine a = true → includes LF (rowOfArticle a) = false.
Proof.
  unfold singleLine. rewrite negb_true_iff, !orb_false_iff.
  intros [[[[[[Hc Ht] Hb] Hs] Hst] Hmt] Hmd].
  unfold rowOfArticle, rowOf. cbn [join].
  rewrite !includes_app, !escaped_free, Hc, Hs, Hst by done.
  rewrite idText_bare, flagText_bare by auto. done.
Qed.

(** X5.  Appending to a path that does not exist creates a file without
    header row.  When the row of the article is a single line, the reader
    takes that line for the header and returns no record, so that the next
    append assigns the identifier 1 again. *)
Theorem append_to_missing_file (article : ArticleData) :
  id article = None → typed article = true → singleLine article = true →
  let saved := withId article (Some (Int 1)) in
  let after := Some (rowOfArticle saved ++ [LF]) in
  appendArticleToCSV None article = (Return saved, after)
  ∧ readArticlesFromCSV after = []
  ∧ ∀ next, id next = None → typed next = true →
      (appendArticleToCSV after next).1 = Return (withId next (Some (Int 1))).
Proof.
  intros Hid Ht Hline. cbn zeta.
  assert (Hread : readArticlesFromCSV (Some (rowOfArticle (withId article (Some (Int 1))) ++ [LF]))
                  = []) by (by apply read_single_line, row_single_line).
  split; [|split; [done|]].
  - unfold appendArticleToCSV, idMissing. rewrite Hid. cbn [readArticlesFromCSV maxId foldl].
    rewrite appendLine_typed_row by done. done.
  - intros next Hnid Hnt. unfold appendArticleToCSV, idMissing. rewrite Hnid, Hread.
    cbn [maxId foldl]. by rewrite appendLine_typed_row by done.
Qed.

Lemma append_to_missing_file_witness :
  appendArticleToCSV None MoreExamples.secondArticle
  = (Return (withId MoreExamples.secondArticle (Some (Int 1))),
     Some (rowOfArticle (withId MoreExamples.secondArticle (Some (Int 1))) ++ [LF]))
  ∧ readArticlesFromCSV
      (Some (rowOfArticle (withId MoreExamples.secondArticle (Some (Int 1))) ++ [LF])) = []
  ∧ (appendArticleToCSV
       (Some (rowOfArticle (withId MoreExamples.secondArticle (Some (Int 1))) ++ [LF]))
       draft).1
    = Return (withId draft (Some (Int 1))).
Proof.
  destruct (append_to_missing_file MoreExamples.secondArticle) as (H1 & H2 & H3);
    [reflexivity|vm_compute; reflexivity|vm_compute; reflexivity|].
  split; [exact H1|]. split; [exact H2|].
  apply (H3 draft); [reflexivity|vm_compute; reflexivity].
Defined.

End UnpublishedFacts.

Module IdentifierReuse.

Import JSFacts CsvWriter Notions StoreAux StoreFacts RecordFacts RoundTrip StoreClaims.
Import VerbatimColumns StoreSequences Examples UnpublishedFacts.

(** C5, which the code does not meet.  On a path that holds no file, or an
    empty one, the first append assigns the identifier 1 and writes the row
    without a header row before it.  When that row is a single line, the
    second append takes it for the header, finds no record and assigns the
    identifier 1 again, instead of 2: the file then holds two rows with the
    identifier 1. *)
Theorem append_reuses_identifier (f : file) (first second : ArticleData) :
  f = None ∨ f = Some [] →
  id first = None → typed first = true → singleLine first = true →
  id second = None → typed second = true →
  let one := appendArticleToCSV f first in
  let two := appendArticleToCSV one.2 second in
  one.1 = Return (withId first (Some (Int 1)))
  ∧ two.1 = Return (withId second (Some (Int 1)))
  ∧ two.2 = Some ((rowOfArticle (withId first (Some (Int 1))) ++ [LF])
                  ++ rowOfArticle (withId second (Some (Int 1))) ++ [LF]).
Proof.
  intros Hf Hid1 Ht1 Hline Hid2 Ht2. cbn zeta.
  assert (Hone : appendArticleToCSV f first
                 = (Return (withId first (Some (Int 1))),
                    Some (rowOfArticle (withId first (Some (Int 1))) ++ [LF]))).
  { unfold appendArticleToCSV, idMissing. rewrite Hid1.
    assert (Hread : readArticlesFromCSV f = []) by (by destruct Hf as [ -> | -> ]).
    rewrite Hread. cbn [maxId foldl].
    change (addOne (Int 0)) with (Int 1).
    rewrite appendLine_typed_row by done. by destruct Hf as [ -> | -> ]. }
  rewrite Hone. cbn [fst snd]. split; [done|].
  unfold appendArticleToCSV, idMissing. rewrite Hid2.
  rewrite read_single_line by (by apply row_single_line).
  cbn [maxId foldl]. change (addOne (Int 0)) with (Int 1).
  by rewrite appendLine_typed_row by done.
Qed.

Lemma append_reuses_identifier_witness :
  let one := appendArticleToCSV None MoreExamples.secondArticle in
  let two := appendArticleToCSV one.2 draft in
  one.1 = Return (withId MoreExamples.secondArticle (Some (Int 1)))
  ∧ two.1 = Return (withId draft (Some (Int 1)))
  ∧ two.2 = Some ((rowOfArticle (withId MoreExamples.secondArticle (Some (Int 1))) ++ [LF])
                  ++ rowOfArticle (withId draft (Some (Int 1))) ++ [LF]).
Proof.
  apply (append_reuses_identifier None MoreExamples.secondArticle draft).
  - by left.
  - reflexivity.
  - vm_compute. reflexivity.
  - vm_compute. reflexivity.
  - reflexivity.
  - vm_compute. reflexivity.
Defined.

(** Of the two rows the reader returns the second only. *)
Example first_row_taken_for_header :
  readArticlesFromCSV
    (appendArticleToCSV (appendArticleToCSV None MoreExamples.secondArticle).2 draft).2
  = [withId draft (Some (Int 1))].
Proof. vm_compute. reflexivity. Qed.

(** With the header row in place the identifiers follow each other, until
    the largest one is 2^53: the sum with one is 2^53 again. *)
Example largest_identifier_repeated :
  (appendArticleToCSV (Some (stored [withId draft (Some (Int (2 ^ 53)))]))
     MoreExamples.secondArticle).1
  = Return (withId MoreExamples.secondArticle (Some (Int (2 ^ 53)))).
Proof. vm_compute. reflexivity. Qed.

End IdentifierReuse.

Module ReaderFacts.

Import JSFacts CsvWriter CsvReaderFiles ReaderAux StageExamples.

Lemma split_join (sep : N) (parts : list str) :
  parts ≠ [] → Forall (fun p => includes sep p = false) parts →
  split sep (join [sep] parts) = parts.
Proof.
  intros Hne Hall. unfold split. induction Hall as [|p rest Hp Hrest IH]; [done|].
  destruct rest as [|q rest]; [cbn [join]; by rewrite splitFrom_free|].
  change (join [sep] (p :: q :: rest)) with (p ++ sep :: join [sep] (q :: rest)).
  rewrite splitFrom_app, splitFrom_free by done. cbn [app]. f_equal. by apply IH.
Qed.

Lemma includes_join (c sep : N) (parts : list str) :
  c ≠ sep → Forall (fun p => includes c p = false) parts →
  includes c (join [sep] parts) = false.
Proof.
  intros Hc Hall. induction Hall as [|p rest Hp Hrest IH]; [done|].
  destruct rest as [|q rest]; [done|].
  change (join [sep] (p :: q :: rest)) with (p ++ [sep] ++ join [sep] (q :: rest)).
  rewrite !includes_app, Hp, IH. cbn [includes orb].
  apply N.eqb_neq in Hc. by rewrite N.eqb_sym, Hc.
Qed.

Lemma cell_inv (s : str) : cell s = true → includes COMMA s = false ∧ includes LF s = false.
Proof. unfold cell. by rewrite negb_true_iff, orb_false_iff. Qed.

(** The rows that [parseCSV] returns for a file of plain cells. *)
Lemma parseCSV_table (filePath headerLine : str) (rows : list (list str)) :
  includes LF headerLine = false →
  Forall (fun row => row ≠ [] ∧ Forall (fun s => cell s = true) row) rows →
  trim (table headerLine rows) = table headerLine rows →
  parseCSV filePath (Some (table headerLine rows))
  = Return (split COMMA headerLine :: rows).
Proof.
  intros Hh Hrows Htrim. unfold parseCSV. rewrite Htrim. unfold table.
  rewrite split_join; [|discriminate|].
  - clear Htrim. cbn [map]. do 2 f_equal. induction Hrows as [|row rest [Hne Hrow] _ IH]; [done|].
    cbn [map]. f_equal; [|done]. apply split_join; [done|].
    eapply Forall_impl; [exact Hrow|]. by intros s [? _]%cell_inv.
  - apply Forall_cons. split; [done|]. apply Forall_fmap.
    eapply Forall_impl; [exact Hrows|]. intros row [_ Hrow]. cbn.
    apply includes_join; [done|]. eapply Forall_impl; [exact Hrow|].
    by intros s [_ ?]%cell_inv.
Qed.

(** X6.  A persona file whose cells hold no comma and no line feed, and
    whose text [trim] leaves as it is, is read back as its rows, the header
    line being dropped whatever it holds. *)
Theorem persona_file_round_trip (filePath headerLine : str) (personas : list PersonaData) :
  includes LF headerLine = false →
  Forall (fun p => Forall (fun s => cell s = true) (personaCells p)) personas →
  trim (table headerLine (map personaCells personas))
  = table headerLine (map personaCells personas) →
  readPersonaCSV filePath (Some (table headerLine (map personaCells personas)))
  = Return (map personaRow personas).
Proof.
  intros Hh Hall Htrim. unfold readPersonaCSV. rewrite parseCSV_table; [|done| |done].
  - cbn [mbind result_bind tail]. f_equal. by rewrite map_map.
  - apply Forall_fmap. eapply Forall_impl; [exact Hall|]. by intros p Hp.
Qed.

Lemma persona_file_round_trip_witness :
  readPersonaCSV (lit "persona.csv")
    (Some (table personaHeader (map personaCells [careWorker; returner])))
  = Return (map personaRow [careWorker; returner]).
Proof.
  apply (persona_file_round_trip (lit "persona.csv") personaHeader [careWorker; returner]).
  - vm_compute. reflexivity.
  - apply (bool_decide_unpack _). vm_compute. exact I.
  - vm_compute. reflexivity.
Defined.

(** X7.  The same for the keyword file and its six columns. *)
Theorem keyword_file_round_trip (filePath headerLine : str) (keywords : list SeoKeywordData) :
  includes LF headerLine = false →
  Forall (fun k => Forall (fun s => cell s = true) (keywordCells k)) keywords →
  trim (table headerLine (map keywordCells keywords))
  = table headerLine (map keywordCells keywords) →
  readSeoKeywordCSV filePath (Some (table headerLine (map keywordCells keywords)))
  = Return (map keywordRow keywords).
Proof.
  intros Hh Hall Htrim. unfold readSeoKeywordCSV. rewrite parseCSV_table; [|done| |done].
  - cbn [mbind result_bind tail]. f_equal. by rewrite map_map.
  - apply Forall_fmap. eapply Forall_impl; [exact Hall|]. by intros p Hp.
Qed.

Lemma keyword_file_round_trip_witness :
  readSeoKeywordCSV (lit "seo-keyword.csv")
    (Some (table keywordHeader (map keywordCells [nightShift])))
  = Return (map keywordRow [nightShift]).
Proof.
  apply (keyword_file_round_trip (lit "seo-keyword.csv") keywordHeader [nightShift]).
  - vm_compute. reflexivity.
  - apply (bool_decide_unpack _). vm_compute. exact I.
  - vm_compute. reflexivity.
Defined.

End ReaderFacts.

Module SlugFacts.

Import JSFacts ArticleGenerator Notions SlugAux.

Lemma slugChar_not_hyphen (c : N) : slugChar c = true → c ≠ HYPHEN.
Proof. intros H ->. by vm_compute in H. Qed.

Lemma slugChar_plain (c : N) : slugChar c = true → c ≠ COMMA ∧ c ≠ QUOTE ∧ c ≠ LF.
Proof. intros H. repeat split; intros ->; by vm_compute in H. Qed.

Lemma replaceRuns_alphabet (s : str) (inRun : bool) :
  Forall (fun c => slugChar c = true ∨ c = HYPHEN) (replaceRuns s inRun).
Proof.
  revert inRun. induction s as [|c r IH]; intros inRun; cbn [replaceRuns]; [done|].
  destruct (slugChar c) eqn:Hc; [apply Forall_cons; auto|].
  destruct inRun; [done|]. apply Forall_cons; auto.
Qed.

Lemma replaceRuns_separated (s : str) (inRun : bool) :
  separated (replaceRuns s inRun) = true
  ∧ (inRun = true → head (replaceRuns s inRun) ≠ Some HYPHEN).
Proof.
  revert inRun. induction s as [|c r IH]; intros inRun; cbn [replaceRuns]; [done|].
  destruct (slugChar c) eqn:Hc.
  - split; [|intros _ [= ->]; by vm_compute in Hc].
    cbn [separated]. destruct (replaceRuns r false) as [|d r'] eqn:Hr; [done|].
    destruct (IH false) as [IH1 _]. rewrite Hr in IH1. rewrite IH1, andb_true_r.
    apply slugChar_not_hyphen in Hc. apply N.eqb_neq in Hc. by rewrite Hc.
  - destruct inRun; [apply IH|]. split; [|done].
    cbn [separated]. destruct (replaceRuns r true) as [|d r'] eqn:Hr; [done|].
    destruct (IH true) as [IH1 IH2]. rewrite Hr in IH1, IH2. rewrite IH1, andb_true_r.
    cbn [head] in IH2. destruct (N.eqb_spec d HYPHEN) as [->|]; [by destruct IH2|].
    by rewrite andb_false_r.
Qed.

Lemma dropLastHyphen_elem (s : str) (c : N) : c ∈ dropLastHyphen s → c ∈ s.
Proof.
  induction s as [|x r IH]; [done|]. cbn [dropLastHyphen]. destruct r as [|y r].
  - by destruct (x =? HYPHEN); [intros ?%elem_of_nil|].
  - intros [->|H]%elem_of_cons; [by left|]. right. by apply IH.
Qed.

Lemma trimHyphens_elem (s : str) (c : N) : c ∈ trimHyphens s → c ∈ s.
Proof.
  unfold trimHyphens. intros H%dropLastHyphen_elem. destruct s as [|x r]; [done|].
  destruct (x =? HYPHEN); [by right|done].
Qed.

Lemma separated_tail (c : N) (s : str) : separated (c :: s) = true → separated s = true.
Proof. cbn [separated]. destruct s; [done|]. by intros [_ ?]%andb_true_iff. Qed.

Lemma dropLastHyphen_head (s : str) (c : N) :
  head (dropLastHyphen s) = Some c → head s = Some c.
Proof. destruct s as [|x [|y r]]; cbn; [done| |done]. by destruct (x =? HYPHEN). Qed.

Lemma dropLastHyphen_separated (s : str) :
  separated s = true → separated (dropLastHyphen s) = true.
Proof.
  induction s as [|x r IH]; [done|]. intros Hs. pose proof (separated_tail _ _ Hs) as Hr.
  destruct r as [|y r]; [cbn; by destruct (x =? HYPHEN)|].
  change (dropLastHyphen (x :: y :: r)) with (x :: dropLastHyphen (y :: r)).
  specialize (IH Hr). cbn [separated] in Hs |- *.
  destruct (dropLastHyphen (y :: r)) as [|d r'] eqn:Hd; [done|].
  rewrite IH, andb_true_r. apply andb_true_iff in Hs as [Hs _].
  assert (d = y) as ->; [|done].
  pose proof (dropLastHyphen_head (y :: r) d) as Hh. rewrite Hd in Hh.
  specialize (Hh eq_refl). by injection Hh.
Qed.

Lemma take_separated (n : nat) (s : str) : separated s = true → separated (take n s) = true.
Proof.
  revert n. induction s as [|x r IH]; intros n Hs; [by destruct n|].
  destruct n as [|n]; [done|]. pose proof (separated_tail _ _ Hs) as Hr.
  cbn [take]. specialize (IH n Hr). destruct r as [|y r]; [by destruct n|].
  destruct n as [|n]; [done|]. cbn [take separated] in IH |- *. cbn [separated] in Hs.
  apply andb_true_iff in Hs as [-> _]. done.
Qed.

Lemma trimHyphens_shape (s : str) :
  separated s = true →
  separated (trimHyphens s) = true ∧ head (trimHyphens s) ≠ Some HYPHEN.
Proof.
  intros Hs. unfold trimHyphens. destruct s as [|x r]; [done|].
  destruct (N.eqb_spec x HYPHEN) as [->|Hx].
  - split; [by eapply dropLastHyphen_separated, separated_tail|].
    intros Hh%dropLastHyphen_head. destruct r as [|y r]; [done|]. injection Hh as ->.
    by vm_compute in Hs.
  - split; [by apply dropLastHyphen_separated|].
    intros Hh%dropLastHyphen_head. by injection Hh.
Qed.

Lemma take_elem (n : nat) (s : str) (c : N) : c ∈ take n s → c ∈ s.
Proof.
  revert n. induction s as [|x r IH]; intros n; [by destruct n|]. destruct n as [|n]; cbn [take].
  - by intros ?%elem_of_nil.
  - intros [->|H]%elem_of_cons; [by left|]. right. by eapply IH.
Qed.

Lemma generateSlug_alphabet (title : str) :
  Forall (fun c => slugChar c = true ∨ c = HYPHEN) (generateSlug title).
Proof.
  unfold generateSlug. apply Forall_forall. intros c Hc%take_elem%trimHyphens_elem.
  by eapply (proj1 (Forall_forall _ _) (replaceRuns_alphabet _ _)).
Qed.

Lemma generateSlug_plain (title : str) : plain (generateSlug title) = true.
Proof.
  unfold plain. apply negb_true_iff. apply not_true_is_false.
  rewrite !orb_true_iff, !includes_elem.
  assert (∀ c, c ∈ generateSlug title → c ≠ COMMA ∧ c ≠ QUOTE ∧ c ≠ LF) as Hno.
  { intros c Hc. destruct (proj1 (Forall_forall _ _) (generateSlug_alphabet title) c Hc)
      as [H| ->]; [by apply slugChar_plain|done]. }
  intros [[Hin|Hin]|Hin]; apply Hno in Hin; tauto.
Qed.

(** X8.  The derived slug holds characters of the slug alphabet and
    hyphens only, hence no comma, quote or line feed; it has at most 100
    code units, does not start with a hyphen and has no two hyphens in a
    row. *)
Theorem generateSlug_shape (title : str) :
  Forall (fun c => slugChar c = true ∨ c = HYPHEN) (generateSlug title)
  ∧ (length (generateSlug title) ≤ 100)%nat
  ∧ head (generateSlug title) ≠ Some HYPHEN
  ∧ separated (generateSlug title) = true
  ∧ plain (generateSlug title) = true.
Proof.
  split; [apply generateSlug_alphabet|]. split; [|split; [|split; [|apply generateSlug_plain]]].
  - unfold generateSlug. rewrite length_take. lia.
  - unfold generateSlug.
    destruct (replaceRuns_separated (toLowerCase title) false) as [Hsep _].
    destruct (trimHyphens_shape _ Hsep) as [_ Hhead].
    destruct (trimHyphens (replaceRuns (toLowerCase title) false)); [done|]. exact Hhead.
  - unfold generateSlug.
    destruct (replaceRuns_separated (toLowerCase title) false) as [Hsep _].
    destruct (trimHyphens_shape _ Hsep) as [Hsep' _]. by apply take_separated.
Qed.

Lemma replaceRuns_slugChars (s : str) (inRun : bool) :
  filter (fun c => slugChar c = true) (replaceRuns s inRun)
  = filter (fun c => slugChar c = true) s.
Proof.
  revert inRun. induction s as [|c r IH]; intros inRun; cbn [replaceRuns]; [done|].
  destruct (slugChar c) eqn:Hc.
  - rewrite !filter_cons, !decide_True by done. by rewrite IH.
  - rewrite (filter_cons _ c r), decide_False by (by rewrite Hc).
    destruct inRun; [done|]. rewrite filter_cons, decide_False by done. done.
Qed.

Lemma replaceRuns_inRun (s : str) :
  Forall (fun c => slugChar c = false) s → replaceRuns s true = [].
Proof. induction 1 as [|c r Hc _ IH]; [done|]. cbn [replaceRuns]. by rewrite Hc. Qed.

Lemma replaceRuns_none (s : str) :
  Forall (fun c => slugChar c = false) s →
  replaceRuns s false = [] ∨ replaceRuns s false = [HYPHEN].
Proof.
  destruct 1 as [|c r Hc Hr]; [by left|]. cbn [replaceRuns]. rewrite Hc.
  rewrite replaceRuns_inRun by done. by right.
Qed.

Lemma generateSlug_nil (title : str) :
  generateSlug title = [] → Forall (fun c => slugChar c = false) (toLowerCase title).
Proof.
  unfold generateSlug. intros Hempty.
  assert (Hnil : trimHyphens (replaceRuns (toLowerCase title) false) = []).
  { by destruct (trimHyphens (replaceRuns (toLowerCase title) false)). }
  apply Forall_forall. intros c Hc. apply not_true_is_false. intros Hs.
  assert (Hin : c ∈ filter (fun c => slugChar c = true)
                      (replaceRuns (toLowerCase title) false)).
  { rewrite replaceRuns_slugChars. by apply list_elem_of_filter. }
  apply list_elem_of_filter in Hin as [_ Hin].
  revert Hin Hnil. generalize (replaceRuns (toLowerCase title) false). intros s Hin Hnil.
  unfold trimHyphens in Hnil.
  assert (Hd : ∀ l, c ∈ l → dropLastHyphen l ≠ []).
  { induction l as [|x l IH]; [by intros ?%elem_of_nil|].
    intros Hx. destruct l as [|y l].
    - apply list_elem_of_singleton in Hx as <-. cbn.
      destruct (N.eqb_spec c HYPHEN) as [->|]; [by vm_compute in Hs|done].
    - done. }
  destruct s as [|x r]; [by apply elem_of_nil in Hin|].
  destruct (N.eqb_spec x HYPHEN) as [->|].
  + apply elem_of_cons in Hin as [->|Hin]; [by vm_compute in Hs|]. by apply (Hd r).
  + by apply (Hd (x :: r)).
Qed.

(** X9.  The derived slug is empty exactly when the lower-cased title has
    no character of the slug alphabet. *)
Theorem generateSlug_empty (title : str) :
  generateSlug title = [] ↔ Forall (fun c => slugChar c = false) (toLowerCase title).
Proof.
  split; [apply generateSlug_nil|].
  intros Hall. unfold generateSlug. by destruct (replaceRuns_none _ Hall) as [-> | ->].
Qed.

End SlugFacts.

Module StageFacts.

Import JSFacts CsvWriter CategoryMapper ArticleGenerator SeoOptimizer ArticlePipeline.
Import PipelineStages Notions StoreAux ResolverAux ResolverFacts SlugAux SlugFacts.
Import StoreSequences SequenceFacts Examples MoreExamples StageExamples.



Lemma optimized_nonempty (JSON_parse : str → str + parsedOptimized)
    (draft : ArticleGenerationResponse) (reply : result str) (optimized : SeoOptimizedArticle) :
  optimizeArticleForSEO JSON_parse draft reply = Return optimized →
  seo_title optimized ≠ [] ∧ seo_body optimized ≠ []
  ∧ seo_meta_title optimized ≠ [] ∧ seo_meta_description optimized ≠ [].
Proof.
  unfold optimizeArticleForSEO, parseOptimized. destruct reply as [text|e]; [|done].
  destruct (jsonMatch text) as [json|]; [|done].
  destruct (JSON_parse json) as [message|parsed]; [done|].
  destruct (optimized_title parsed) as [[|c1 t]|]; try done.
  destruct (optimized_body parsed) as [[|c2 b]|]; try done.
  destruct (optimized_meta_title parsed) as [[|c3 mt]|]; try done.
  destruct (optimized_meta_description parsed) as [[|c4 md]|]; try done.
  cbn [blank orb default]. by intros [= <-].
Qed.



Lemma numberToString_plain (z : Z) : plain (numberToString (Int z)) = true.
Proof.
  unfold plain. by rewrite !numberToString_bare by auto.
Qed.

Section Stages.

Variable JSON_parse_draft : str → str + parsedDraft.
Variable JSON_parse_seo : str → str + parsedOptimized.
Variable inheritedText : str → str.
Variable categoriesPath : str.
Variable c : catalog.

Lemma generateArticle_Return (draftReply seoReply : result str)
    (input : ArticleGenerationInput) (a : ArticleData) :
  (generateArticle JSON_parse_draft JSON_parse_seo inheritedText categoriesPath c
     draftReply seoReply input).1 = Return a →
  ∃ draft optimized categoryId,
    generateArticleDraft JSON_parse_draft draftReply = Return draft
    ∧ optimizeArticleForSEO JSON_parse_seo draft seoReply = Return optimized
    ∧ getCategoryIdFromPersona categoriesPath c (Category (persona input)) = Return categoryId
    ∧ a = {| id := None;
             category_id := Some (propertyText inheritedText categoryId);
             title := Some (seo_title optimized);
             body := Some (seo_body optimized);
             slug := Some (seo_slug optimized);
             status := lit "draft";
             meta_title := Some (seo_meta_title optimized);
             meta_description := Some (seo_meta_description optimized);
             api_posted := false |}.
Proof.
  unfold generateArticle.
  destruct (generateArticleDraft JSON_parse_draft draftReply) as [draft|e] eqn:Hd; [|done].
  destruct (optimizeArticleForSEO JSON_parse_seo draft seoReply) as [optimized|e] eqn:Ho;
    [|done].
  destruct (getCategoryIdFromPersona categoriesPath c (Category (persona input)))
    as [categoryId|e] eqn:Hc; [|done].
  cbn [fst]. intros [= <-]. by exists draft, optimized, categoryId.
Qed.

(** For a label of the static table the stored category is the decimal
    text of a catalog id, and the article is storable when its slug is
    plain. *)
Lemma generated_for_label (draftReply seoReply : result str)
    (input : ArticleGenerationInput) (a : ArticleData) (categoryName : str) :
  (generateArticle JSON_parse_draft JSON_parse_seo inheritedText categoriesPath c
     draftReply seoReply input).1 = Return a →
  (Category (persona input), categoryName) ∈ PERSONA_TO_CATEGORY_NAME →
  (∃ categories n, c = Some categories ∧ idOfName categories categoryName = Some n
     ∧ category_id a = Some (numberToString (Int n)))
  ∧ (storable a = true ↔ plainField (slug a) = true).
Proof.
  intros Hgen Hlabel.
  apply generateArticle_Return in Hgen as (draft & optimized & categoryId & Hd & Ho & Hc & Ha).
  subst a. cbn [category_id slug].
  destruct c as [categories|]; [|done].
  destruct (getPersonaCategoryMapping categoriesPath (Some categories)) as [mapping|e] eqn:Hm.
  2: { unfold getCategoryIdFromPersona in Hc. by rewrite Hm in Hc. }
  destruct (resolver_known_label categoriesPath categories mapping _ _ Hm Hlabel)
    as (n & Hn & Hres).
  rewrite Hres in Hc. injection Hc as <-. cbn [propertyText].
  split; [by exists categories, n|].
  unfold storable. cbn [id status api_posted title body meta_title meta_description
    category_id slug plainField present andb]. rewrite numberToString_plain. cbn [andb].
  replace (plain (lit "draft")) with true by (by vm_compute).
  replace (nonEmpty (lit "draft")) with true by (by vm_compute).
  by rewrite !andb_true_r.
Qed.



End Stages.



End StageFacts.

Module GenerateScriptFacts.

Import JSFacts CsvWriter CsvReader ArticlePipeline ArticlePublisher Notions StoreAux.
Import RoundTrip StoreClaims StoreSequences SequenceFacts UpdateFacts Examples.
Import Scripts ScriptAux GenerateArticles.

Section Script.

Variable generateArticle : nat → ArticleGenerationInput → result ArticleData.
Variable mockMode : bool.
Variable config : LaravelConfig.
Variable random : nat → Z.
Variable post : nat → result PostResponse.

Local Abbreviation publishAndUpdateArticle :=
  (publishAndUpdateArticle mockMode config random post).
Local Abbreviation processArticle :=
  (processArticle generateArticle mockMode config random post).
Local Abbreviation processLoop := (processLoop generateArticle mockMode config random post).
Local Abbreviation processAllArticles :=
  (processAllArticles generateArticle mockMode config random post).

Local Ltac state_simpl :=
  unfold failed;
  cbn [emit setFile setStats stats effects articleFile countSuccess countFailure
       countPublished countPublishFailure successCount failureCount publishedCount
       publishFailureCount].

Lemma emits_effects {Stats} (s : state Stats) (es : list effect) :
  effects (foldl (fun s e => emit e s) s es) = effects s ++ es
  ∧ stats (foldl (fun s e => emit e s) s es) = stats s
  ∧ articleFile (foldl (fun s e => emit e s) s es) = articleFile s.
Proof.
  revert s. induction es as [|e es IH]; intros s; cbn [foldl]; [by rewrite app_nil_r|].
  destruct (IH (emit e s)) as (-> & -> & ->). cbn [emit effects stats articleFile].
  by rewrite <- app_assoc.
Qed.

Lemma articleIdLine_quiet (articleId : option Z) :
  Forall (fun e => isSleeping e = false ∧ isGenerating e = false ∧ isPublishing e = false)
    (articleIdLine articleId).
Proof.
  unfold articleIdLine. destruct articleId as [z|]; [|done].
  destruct (z =? 0)%Z; [done|]. by apply Forall_cons.
Qed.

(** What [publishAndUpdateArticle] does to the counters and the effects. *)
Lemma publishAndUpdateArticle_spec (index : nat) (article : ArticleData)
    (s : state ProcessingStats) :
  let s' := publishAndUpdateArticle index article s in
  ∃ block,
    effects s' = effects s ++ publishing index article :: block
    ∧ Forall (fun e => isSleeping e = false ∧ isGenerating e = false) block
    ∧ successCount (stats s') = successCount (stats s)
    ∧ failureCount (stats s') = failureCount (stats s)
    ∧ (publishedCount (stats s') + publishFailureCount (stats s')
       = S (publishedCount (stats s) + publishFailureCount (stats s)))%nat.
Proof.
  cbn zeta. unfold GenerateArticles.publishAndUpdateArticle.
  destruct (publishArticleToLaravel mockMode (random index) config (post index) article)
    as [publishResult|e].
  - destruct (publish_success publishResult).
    + cbn [emit articleFile].
      destruct (updateArticleOf (articleFile s) (id article) markPosted) as [[[]|e] f].
      * destruct (emits_effects
                    (emit (console success (lit "  ✓ Laravel投稿成功"))
                       (setFile f (emit (publishing index article) s)))
                    (articleIdLine (articleId publishResult))) as (He & Hs & _).
        cbn [setStats stats effects countPublished successCount failureCount
             publishedCount publishFailureCount].
        rewrite He, Hs. cbn [emit setFile stats effects].
        eexists. split; [by rewrite <- !app_assoc|]. split; [|split; [done|split; [done|lia]]].
        apply Forall_cons. split; [done|].
        eapply Forall_impl; [apply articleIdLine_quiet|]. by intros ? (? & ? & _).
      * state_simpl. eexists. split; [by rewrite <- !app_assoc|].
        split; [by apply Forall_cons|]. split; [done|]. split; [done|lia].
    + state_simpl. eexists. split; [by rewrite <- !app_assoc|].
      split; [by apply Forall_cons|]. split; [done|]. split; [done|lia].
  - state_simpl. eexists. split; [by rewrite <- !app_assoc|].
    split; [by apply Forall_cons|]. split; [done|]. split; [done|lia].
Qed.

(** What one turn does to the counters and the effects. *)
Lemma processArticle_spec (index : nat) (m : MatchData) (isLaravelHealthy : bool)
    (s : state ProcessingStats) :
  let s' := processArticle index m isLaravelHealthy s in
  ∃ block (d : nat),
    effects s' = effects s ++ generating index (inputOfMatch m) :: block
    ∧ Forall (fun e => isSleeping e = false ∧ isGenerating e = false) block
    ∧ (d ≤ 1)%nat
    ∧ successCount (stats s') = (successCount (stats s) + d)%nat
    ∧ failureCount (stats s') = (failureCount (stats s) + (1 - d))%nat
    ∧ (publishedCount (stats s') + publishFailureCount (stats s')
       = publishedCount (stats s) + publishFailureCount (stats s)
         + if isLaravelHealthy then d else 0)%nat.
Proof.
  cbn zeta. unfold GenerateArticles.processArticle. fold (inputOfMatch m).
  destruct (generateArticle index (inputOfMatch m)) as [article|e].
  - cbn [emit articleFile].
    destruct (appendArticleToCSV (articleFile s) article) as [[savedArticle|e] f].
    + destruct isLaravelHealthy.
      * match goal with |- context [GenerateArticles.publishAndUpdateArticle _ _ _ _ _ _ ?s0] =>
          destruct (publishAndUpdateArticle_spec index savedArticle s0)
            as (block & He & Hq & Hs & Hf & Hp) end.
        rewrite He, Hs, Hf, Hp. state_simpl. eexists _, 1%nat.
        split; [by rewrite <- !app_assoc|]. split.
        { apply Forall_cons. split; [done|]. apply Forall_cons. split; [done|].
          by apply Forall_cons. }
        repeat split; lia.
      * state_simpl. eexists _, 1%nat. split; [by rewrite <- !app_assoc|].
        split; [by repeat (apply Forall_cons; split; [done|])|]. repeat split; lia.
    + state_simpl. eexists _, 0%nat. split; [by rewrite <- !app_assoc|].
      split; [by repeat (apply Forall_cons; split; [done|])|]. repeat split; destruct isLaravelHealthy; lia.
  - state_simpl. eexists _, 0%nat. split; [by rewrite <- !app_assoc|].
    split; [by repeat (apply Forall_cons; split; [done|])|]. repeat split; destruct isLaravelHealthy; lia.
Qed.

Lemma processLoop_spec (len i : nat) (matches : list MatchData) (isLaravelHealthy : bool)
    (s : state ProcessingStats) :
  len = (i + length matches)%nat →
  let s' := processLoop len i matches isLaravelHealthy s in
  (∃ turns,
     length turns = length matches
     ∧ Forall (Forall (fun e => isSleeping e = false)) turns
     ∧ (∀ k turn, turns !! k = Some turn →
          ∃ m, matches !! k = Some m
            ∧ filter (fun e => isGenerating e = true) turn
              = [generating (i + k) (inputOfMatch m)])
     ∧ effects s' = effects s ++ paced 2000 turns)
  ∧ (successCount (stats s') + failureCount (stats s')
     = successCount (stats s) + failureCount (stats s) + length matches)%nat
  ∧ (publishedCount (stats s') + publishFailureCount (stats s')
     = publishedCount (stats s) + publishFailureCount (stats s)
       + if isLaravelHealthy then successCount (stats s') - successCount (stats s) else 0)%nat
  ∧ (successCount (stats s) ≤ successCount (stats s'))%nat.
Proof.
  revert i s. induction matches as [|m rest IH]; intros i s Hlen; cbn zeta.
  - cbn [GenerateArticles.processLoop length]. split.
    + exists []. split; [done|]. split; [done|]. split; [by intros k turn ?|].
      cbn [paced]. by rewrite app_nil_r.
    + split; [lia|]. split; [destruct isLaravelHealthy; lia|lia].
  - cbn [GenerateArticles.processLoop].
    set (s1 := emit (turnLine i len (lit "処理中...")) s).
    destruct (processArticle_spec i m isLaravelHealthy s1)
      as (block & d & He & Hq & Hd & Hs & Hf & Hp).
    set (s2 := processArticle i m isLaravelHealthy s1) in *.
    set (s3 := if (i <? len - 1)%nat then emit (sleeping 2000) s2 else s2).
    cbn [length] in Hlen.
    assert (Hstats3 : stats s3 = stats s2) by (unfold s3; by destruct (i <? len - 1)%nat).
    assert (Heff3 : effects s3 = effects s2 ++ if (i <? len - 1)%nat then [sleeping 2000] else []).
    { unfold s3. destruct (i <? len - 1)%nat; [done|]. by rewrite app_nil_r. }
    destruct (IH (S i) s3) as ((turns & Hlt & Hquiet & Hgen & Heff) & Hc1 & Hc2 & Hc3); [lia|].
    rewrite Hstats3 in Hc1, Hc2, Hc3. rewrite Hs, Hf in Hc1. rewrite Hs in Hc2, Hc3.
    rewrite Hp in Hc2.
    change (stats s1) with (stats s) in *. change (effects s1)
      with (effects s ++ [turnLine i len (lit "処理中...")]) in He.
    split; [|split; [cbn [length]; lia|split; [|lia]]].
    + exists ((turnLine i len (lit "処理中...") :: generating i (inputOfMatch m) :: block)
                :: turns).
      split; [cbn [length]; lia|]. split.
      { apply Forall_cons. split; [|done]. apply Forall_cons. split; [done|].
        apply Forall_cons. split; [done|]. eapply Forall_impl; [exact Hq|]. by intros ? [? _]. }
      split.
      { intros [|k] turn Hk.
        - injection Hk as <-. exists m. split; [done|].
          rewrite Nat.add_0_r. rewrite filter_cons, decide_False by done.
          rewrite filter_cons, decide_True by done. f_equal.
          clear -Hq. induction Hq as [|e block [_ He] _ IH]; [done|].
          rewrite filter_cons, decide_False by (by rewrite He). done.
        - cbn [lookup list_lookup] in Hk. destruct (Hgen k turn Hk) as (m' & Hm' & Hf').
          exists m'. split; [done|]. rewrite Hf'. do 2 f_equal. lia. }
      rewrite Heff, Heff3, He. destruct turns as [|turn turns].
      * destruct rest; [|done]. replace (i <? len - 1)%nat with false
          by (symmetry; apply Nat.ltb_ge; cbn [length] in Hlen; lia).
        cbn [paced]. by rewrite !app_nil_r, <- !app_assoc.
      * destruct rest; [done|]. replace (i <? len - 1)%nat with true
          by (symmetry; apply Nat.ltb_lt; cbn [length] in Hlen; lia).
        cbn [paced]. by rewrite <- !app_assoc.
    + destruct isLaravelHealthy; lia.
Qed.

(** X14.  Whatever the outcomes, every task is counted once as a success or
    a failure of generation, and every stored article once as published or
    not when the health check had passed; when it had failed the two
    publication counters stay at zero. *)
Theorem processAllArticles_counters (matches : list MatchData) (articlePath : file)
    (isLaravelHealthy : bool) :
  let st := stats (processAllArticles matches articlePath isLaravelHealthy) in
  (successCount st + failureCount st = length matches)%nat
  ∧ (publishedCount st + publishFailureCount st
     = if isLaravelHealthy then successCount st else 0)%nat.
Proof.
  cbn zeta. unfold GenerateArticles.processAllArticles.
  match goal with |- context [GenerateArticles.processLoop _ _ _ _ _ ?len ?i ?ms ?h ?s0] =>
    destruct (processLoop_spec len i ms h s0) as (_ & H1 & H2 & _); [done|] end.
  cbn [stats successCount failureCount publishedCount publishFailureCount] in H1, H2.
  split; [lia|]. destruct isLaravelHealthy; lia.
Qed.

(** X15.  The effects of a run are those of its turns, one turn for each
    task in order, with a pause of 2000 ms between every two successive
    turns whatever their outcome, and no pause after the last; the turn of
    task [k] calls [generateArticle] once, for that task. *)
Theorem processAllArticles_pauses (matches : list MatchData) (articlePath : file)
    (isLaravelHealthy : bool) :
  ∃ turns,
    length turns = length matches
    ∧ Forall (Forall (fun e => isSleeping e = false)) turns
    ∧ (∀ k turn, turns !! k = Some turn →
         ∃ m, matches !! k = Some m
           ∧ filter (fun e => isGenerating e = true) turn = [generating k (inputOfMatch m)])
    ∧ effects (processAllArticles matches articlePath isLaravelHealthy) = paced 2000 turns.
Proof.
  unfold GenerateArticles.processAllArticles.
  match goal with |- context [GenerateArticles.processLoop _ _ _ _ _ ?len ?i ?ms ?h ?s0] =>
    destruct (processLoop_spec len i ms h s0) as ((turns & H1 & H2 & H3 & H4) & _); [done|] end.
  exists turns. by repeat split.
Qed.

End Script.

End GenerateScriptFacts.

Module GenerateStoreFacts.

Import JSFacts CsvWriter CsvReader ArticlePipeline ArticlePublisher Notions StoreAux.
Import RoundTrip StoreClaims StoreRoundTrip StoreSequences SequenceFacts UpdateFacts Examples.
Import Scripts ScriptAux GenerateArticles GenerateScriptFacts MoreExamples StageExamples.

Lemma extended_refl (f : file) : extended f f.
Proof. by left. Qed.

Lemma extended_trans (f1 f2 f3 : file) : extended f1 f2 → extended f2 f3 → extended f1 f3.
Proof.
  intros [->|[a1 ->]] [->|[a2 ->]]; [by left|right; by exists a2|right; by exists a1|].
  right. exists (a1 ++ a2). cbn. by rewrite <- app_assoc.
Qed.

Lemma append_extends (f f' : file) (article : ArticleData) (r : result ArticleData) :
  appendArticleToCSV f article = (r, f') → extended f f'.
Proof.
  unfold appendArticleToCSV.
  destruct (appendLine _) as [csvLine|e]; intros [= _ <-]; [|by left].
  right. by eexists.
Qed.

(** The first record with the identifier that follows the largest one is
    the record that has just been appended. *)
Lemma find_appended (articles : list ArticleData) (a : ArticleData) :
  let n := (largest (existingIds articles) + 1)%Z in
  list_find (fun article => idIs (Int n) article) (articles ++ [withId a (Some (Int n))])
  = Some (length articles, withId a (Some (Int n))).
Proof.
  cbn zeta. apply list_find_Some. split; [by apply list_lookup_middle|]. split.
  - unfold idIs. cbn [withId id strictEq]. by rewrite Z.eqb_refl.
  - intros j b Hj Hlt Hb. rewrite lookup_app_l in Hj by done.
    apply Is_true_true, idIs_true in Hb as (z & Hid & [= Hz]).
    assert (Hin : z ∈ existingIds articles).
    { unfold existingIds. apply list_elem_of_omap. exists b.
      split; [by eapply list_elem_of_lookup_2|]. by rewrite Hid. }
    pose proof (proj1 (Forall_forall _ _) (largest_bound (existingIds articles)) z Hin) as Hle.
    cbn beta in Hle. lia.
Qed.

Section Script.

Variable generateArticle : nat → ArticleGenerationInput → result ArticleData.
Variable mockMode : bool.
Variable config : LaravelConfig.
Variable random : nat → Z.
Variable post : nat → result PostResponse.

Local Abbreviation processArticle :=
  (processArticle generateArticle mockMode config random post).
Local Abbreviation processLoop := (processLoop generateArticle mockMode config random post).
Local Abbreviation processAllArticles :=
  (processAllArticles generateArticle mockMode config random post).

Local Ltac state_simpl :=
  unfold failed;
  cbn [emit setFile setStats stats effects articleFile countSuccess countFailure
       countPublished countPublishFailure successCount failureCount publishedCount
       publishFailureCount].

Lemma processLoop_unhealthy (len i : nat) (matches : list MatchData)
    (s : state ProcessingStats) :
  let s' := processLoop len i matches false s in
  extended (articleFile s) (articleFile s')
  ∧ ∃ added, effects s' = effects s ++ added
      ∧ Forall (fun e => isPublishing e = false) added.
Proof.
  revert i s. induction matches as [|m rest IH]; intros i s; cbn zeta.
  - cbn [GenerateArticles.processLoop]. split; [by left|]. exists []. by rewrite app_nil_r.
  - cbn [GenerateArticles.processLoop].
    match goal with |- context [GenerateArticles.processLoop _ _ _ _ _ _ _ _ _ ?s0] =>
      destruct (IH (S i) s0) as (Hext & added & Heff & Hquiet); set (s3 := s0) in * end.
    assert (H3 : extended (articleFile s) (articleFile s3)
                 ∧ ∃ added, effects s3 = effects s ++ added
                     ∧ Forall (fun e => isPublishing e = false) added).
    { unfold s3, GenerateArticles.processArticle.
      destruct (generateArticle i _) as [article|e].
      - state_simpl.
        destruct (appendArticleToCSV (articleFile s) article) as [[savedArticle|e] f] eqn:Happ.
        + state_simpl. split; [destruct (i <? len - 1)%nat; by eapply append_extends|].
          destruct (i <? len - 1)%nat; state_simpl; eexists;
            (split; [by rewrite <- !app_assoc|]);
            by repeat (apply Forall_cons; split; [done|]).
        + state_simpl. split; [destruct (i <? len - 1)%nat; by left|].
          destruct (i <? len - 1)%nat; state_simpl; eexists;
            (split; [by rewrite <- !app_assoc|]);
            by repeat (apply Forall_cons; split; [done|]).
      - state_simpl. split; [destruct (i <? len - 1)%nat; by left|].
        destruct (i <? len - 1)%nat; state_simpl; eexists;
          (split; [by rewrite <- !app_assoc|]);
          by repeat (apply Forall_cons; split; [done|]). }
    destruct H3 as (Hext3 & added3 & Heff3 & Hquiet3).
    split; [by eapply extended_trans|].
    exists (added3 ++ added). rewrite Heff, Heff3, <- app_assoc. split; [done|].
    by apply Forall_app.
Qed.

(** X16.  When the health check had failed, a run never calls the
    publisher and never rewrites the store: the file is the old one, or the
    old one with text added at its end. *)
Theorem unhealthy_run_only_appends (matches : list MatchData) (articlePath : file) :
  let s := processAllArticles matches articlePath false in
  Forall (fun e => isPublishing e = false) (effects s)
  ∧ extended articlePath (articleFile s)
  ∧ publishedCount (stats s) = 0%nat ∧ publishFailureCount (stats s) = 0%nat.
Proof.
  cbn zeta. unfold GenerateArticles.processAllArticles.
  match goal with |- context [GenerateArticles.processLoop _ _ _ _ _ ?len ?i ?ms _ ?s0] =>
    destruct (processLoop_unhealthy len i ms s0) as (Hext & added & Heff & Hquiet);
    destruct (processLoop_spec generateArticle mockMode config random post len i ms false s0)
      as (_ & _ & Hc & _); [done|] end.
  cbn [effects articleFile app stats publishedCount publishFailureCount] in Heff, Hext, Hc.
  rewrite Heff. split; [done|]. split; [done|]. lia.
Qed.

(** X17.  One turn on a store file of storable records whose next
    identifier is a safe integer (below 2^53), the health check having
    passed: when generation gives a storable article without identifier,
    the record is stored with the next identifier, and its flag in the
    store is set exactly when the publisher reported success; the counters
    record the stored article and the outcome of the publication. *)
Theorem stored_flag_follows_publisher (index : nat) (m : MatchData)
    (articles : list ArticleData) (st : ProcessingStats) (es : list effect)
    (a : ArticleData) :
  Forall (fun a => storable a = true) articles →
  (largest (existingIds articles) + 1 < 2 ^ 53)%Z →
  generateArticle index (inputOfMatch m) = Return a →
  storable a = true → id a = None →
  let saved := withId a (Some (Int (largest (existingIds articles) + 1))) in
  let ok := published (publishArticleToLaravel mockMode (random index) config (post index)
                         saved) in
  let kept := if ok then posted saved else saved in
  let s' := processArticle index m true
              {| articleFile := Some (stored articles); stats := st; effects := es |} in
  articleFile s' = Some (stored (articles ++ [kept]))
  ∧ readArticlesFromCSV (articleFile s') = articles ++ [kept]
  ∧ stats s' = (if ok then countPublished else countPublishFailure) (countSuccess st).
Proof.
  intros Hall Hroom Hgen Ha Hid. cbn zeta.
  assert (Hsaved : savedAfter articles a
                   = withId a (Some (Int (largest (existingIds articles) + 1)))).
  { unfold savedAfter, idMissing. by rewrite Hid. }
  destruct (savedAfter_storable articles a Hroom Ha) as [Hst _]. rewrite Hsaved in Hst.
  set (saved := withId a (Some (Int (largest (existingIds articles) + 1)))) in *.
  assert (Hall1 : Forall (fun a => storable a = true) (articles ++ [saved])).
  { apply Forall_app. split; [done|]. by apply Forall_cons. }
  assert (Hall2 : Forall (fun a => storable a = true) (articles ++ [posted saved])).
  { apply Forall_app. split; [done|]. apply Forall_cons. split; [|done].
    by apply merge_storable. }
  unfold GenerateArticles.processArticle. fold (inputOfMatch m). rewrite Hgen.
  state_simpl. rewrite append_stored, Hsaved by done. fold saved.
  unfold publishAndUpdateArticle. state_simpl.
  destruct (publishArticleToLaravel mockMode (random index) config (post index) saved)
    as [publishResult|e]; cbn [published].
  - destruct (publish_success publishResult).
    + cbn [updateArticleOf saved withId id].
      destruct (update_found (Some (stored (articles ++ [saved])))
                  (largest (existingIds articles) + 1) markPosted (length articles) saved)
        as [Hupd _].
      { by rewrite read_stored. }
      { done. }
      { rewrite read_stored by done. apply find_appended. }
      rewrite Hupd. rewrite read_stored by done.
      rewrite insert_app_r_alt by done. rewrite Nat.sub_diag. cbn [insert list_insert].
      fold (posted saved).
      match goal with |- context [foldl _ ?s0 ?l] =>
        destruct (emits_effects s0 l) as (_ & Hs & Hf) end.
      state_simpl. rewrite Hf. state_simpl. rewrite Hs. state_simpl.
      split; [done|]. split; [by apply read_stored|done].
    + state_simpl. split; [done|]. split; [by apply read_stored|done].
  - state_simpl. split; [done|]. split; [by apply read_stored|done].
Qed.

End Script.

Lemma stored_flag_follows_publisher_witness :
  let s' := processArticle alwaysSecond true configured (fun _ => 7%Z) noPost 0 pair true
              {| articleFile := Some (stored [withId draft (Some (Int 1))]);
                 stats := {| successCount := 0; failureCount := 0; publishedCount := 0;
                             publishFailureCount := 0 |};
                 effects := [] |} in
  articleFile s'
  = Some (stored [withId draft (Some (Int 1)); posted (withId secondArticle (Some (Int 2)))])
  ∧ readArticlesFromCSV (articleFile s')
    = [withId draft (Some (Int 1)); posted (withId secondArticle (Some (Int 2)))]
  ∧ stats s' = {| successCount := 1; failureCount := 0; publishedCount := 1;
                  publishFailureCount := 0 |}.
Proof.
  apply (stored_flag_follows_publisher alwaysSecond true configured (fun _ => 7%Z) noPost
           0 pair [withId draft (Some (Int 1))]
           {| successCount := 0; failureCount := 0; publishedCount := 0;
              publishFailureCount := 0 |} [] secondArticle).
  - apply Forall_cons. split; [vm_compute; reflexivity|constructor].
  - vm_compute. reflexivity.
  - reflexivity.
  - vm_compute. reflexivity.
  - reflexivity.
Defined.

End GenerateStoreFacts.

Module PublishScriptFacts.

Import JSFacts CsvWriter CategoryMapper ArticlePipeline ArticlePublisher Notions StoreAux.
Import RoundTrip StoreClaims StoreRoundTrip StoreSequences SequenceFacts UpdateFacts Examples.
Import PipelineStages Scripts ScriptAux PublishArticles GenerateScriptFacts.

Section Script.

Variable notNumeric : str → bool.
Variable inheritedText : str → str.
Variable categoriesPath : str.
Variable c : catalog.
Variable mockMode : bool.
Variable config : LaravelConfig.
Variable random : nat → Z.
Variable post : nat → result PostResponse.

Local Abbreviation convertCategoryIdToNumber :=
  (convertCategoryIdToNumber notNumeric inheritedText categoriesPath c).
Local Abbreviation publishSingleArticle :=
  (publishSingleArticle notNumeric inheritedText categoriesPath c mockMode config random post).
Local Abbreviation publishLoop :=
  (publishLoop notNumeric inheritedText categoriesPath c mockMode config random post).
Local Abbreviation publishAllArticles :=
  (publishAllArticles notNumeric inheritedText categoriesPath c mockMode config random post).

Local Ltac state_simpl :=
  unfold failed;
  cbn [emit setFile setStats stats effects articleFile countSuccess countFailure
       successCount failureCount].

Local Ltac filter_steps :=
  repeat first [ rewrite filter_nil
               | rewrite filter_cons; first [rewrite decide_True by done
                                            | rewrite decide_False by done] ].

Lemma filter_quiet (es : list effect) :
  Forall (fun e => isPublishing e = false) es →
  filter (fun e => isPublishing e = true) es = [].
Proof.
  induction 1 as [|e es He _ IH]; [done|].
  rewrite filter_cons, decide_False by (by rewrite He). done.
Qed.

Lemma convert_quiet (categoryId : option str) :
  Forall (fun e => isSleeping e = false ∧ isPublishing e = false)
    (convertCategoryIdToNumber categoryId).2.
Proof.
  unfold PublishArticles.convertCategoryIdToNumber. destruct categoryId as [text|]; [|done].
  destruct (notNumeric text); [|done].
  destruct (getCategoryIdFromPersona categoriesPath c text); [|done].
  by apply Forall_cons.
Qed.

(** What one turn does to the counters and the effects: nothing sleeps,
    and the publisher is called once, for the article, unless its category
    could not be converted. *)
Lemma publishSingleArticle_spec (index : nat) (article : ArticleData)
    (s : state PublishStats) :
  let s' := publishSingleArticle index article s in
  (∃ block, effects s' = effects s ++ block
     ∧ Forall (fun e => isSleeping e = false) block
     ∧ filter (fun e => isPublishing e = true) block
       = publisherCalls (convertCategoryIdToNumber (category_id article)).1 index article)
  ∧ (successCount (stats s') + failureCount (stats s')
     = S (successCount (stats s) + failureCount (stats s)))%nat.
Proof.
  cbn zeta. unfold PublishArticles.publishSingleArticle, prepareArticleForPublish.
  pose proof (convert_quiet (category_id article)) as Hq.
  destruct (convertCategoryIdToNumber (category_id article)) as [[numericId|e] trace];
    cbn [fst snd publisherCalls] in *;
    destruct (emits_effects s trace) as (He & Hs & Hf).
  all: assert (Hsleep : Forall (fun e => isSleeping e = false) trace)
         by (eapply Forall_impl; [exact Hq|]; by intros ? [? _]).
  all: assert (Hcalls : filter (fun e => isPublishing e = true) trace = [])
         by (apply filter_quiet; eapply Forall_impl; [exact Hq|]; by intros ? [_ ?]).
  - cbn [stored_article].
    destruct (publishArticleToLaravel mockMode (random index) config (post index) article)
      as [result|e].
    + destruct (publish_success result).
      * state_simpl. rewrite Hf.
        destruct (updateArticleOf (articleFile s) (id article) markPosted) as [[[]|e] f].
        -- match goal with |- context [foldl _ ?s0 (articleIdLine ?l)] =>
             destruct (emits_effects s0 (articleIdLine l)) as (He' & Hs' & _) end.
           state_simpl. rewrite He', Hs'. state_simpl. rewrite He, Hs.
           split; [|lia]. eexists. split; [by rewrite <- !app_assoc|]. split.
           ++ apply Forall_app. split; [done|]. apply Forall_cons. split; [done|].
              apply Forall_cons. split; [done|].
              eapply Forall_impl; [apply articleIdLine_quiet|]. by intros ? (? & _).
           ++ rewrite filter_app, Hcalls. cbn [app]. filter_steps. f_equal.
              apply filter_quiet. eapply Forall_impl; [apply articleIdLine_quiet|].
              by intros ? (_ & _ & ?).
        -- state_simpl. rewrite He, Hs. split; [|lia]. eexists.
           split; [by rewrite <- !app_assoc|]. split.
           ++ apply Forall_app. split; [done|].
              by repeat (apply Forall_cons; split; [done|]).
           ++ rewrite filter_app, Hcalls. cbn [app]. by filter_steps.
      * state_simpl. rewrite He, Hs. split; [|lia]. eexists.
        split; [by rewrite <- !app_assoc|]. split.
        -- apply Forall_app. split; [done|].
           by repeat (apply Forall_cons; split; [done|]).
        -- rewrite filter_app, Hcalls. cbn [app]. by filter_steps.
    + state_simpl. rewrite He, Hs. split; [|lia]. eexists.
      split; [by rewrite <- !app_assoc|]. split.
      * apply Forall_app. split; [done|].
        by repeat (apply Forall_cons; split; [done|]).
      * rewrite filter_app, Hcalls. cbn [app]. by filter_steps.
  - state_simpl. rewrite He, Hs. split; [|lia]. eexists.
    split; [by rewrite <- !app_assoc|]. split.
    + apply Forall_app. split; [done|].
      by repeat (apply Forall_cons; split; [done|]).
    + rewrite filter_app, Hcalls. cbn [app]. by filter_steps.
Qed.

Lemma publishLoop_spec (len i : nat) (unpublishedArticles : list ArticleData)
    (s : state PublishStats) :
  len = (i + length unpublishedArticles)%nat →
  let s' := publishLoop len i unpublishedArticles s in
  (∃ turns,
     length turns = length unpublishedArticles
     ∧ Forall (Forall (fun e => isSleeping e = false)) turns
     ∧ (∀ k turn, turns !! k = Some turn →
          ∃ article rest, unpublishedArticles !! k = Some article
            ∧ turn = turnLine (i + k) len (lit "投稿中...")
                     :: console info (lit "  タイトル: " ++ templateText (title article))
                     :: rest
            ∧ filter (fun e => isPublishing e = true) turn
              = publisherCalls (convertCategoryIdToNumber (category_id article)).1
                  (i + k) article)
     ∧ effects s' = effects s ++ paced 1000 turns)
  ∧ (successCount (stats s') + failureCount (stats s')
     = successCount (stats s) + failureCount (stats s) + length unpublishedArticles)%nat.
Proof.
  revert i s. induction unpublishedArticles as [|a rest IH]; intros i s Hlen; cbn zeta.
  - cbn [PublishArticles.publishLoop length]. split; [|lia].
    exists []. split; [done|]. split; [done|]. split; [by intros k turn ?|].
    cbn [paced]. by rewrite app_nil_r.
  - cbn [PublishArticles.publishLoop].
    set (s1 := emit (console info (lit "  タイトル: " ++ templateText (title a)))
                 (emit (turnLine i len (lit "投稿中...")) s)).
    destruct (publishSingleArticle_spec i a s1) as ((block & He & Hq & Hcalls) & Hc).
    set (s2 := publishSingleArticle i a s1) in *.
    set (s3 := if (i <? len - 1)%nat then emit (sleeping 1000) s2 else s2).
    cbn [length] in Hlen.
    assert (Hstats3 : stats s3 = stats s2) by (unfold s3; by destruct (i <? len - 1)%nat).
    assert (Heff3 : effects s3 = effects s2 ++ if (i <? len - 1)%nat then [sleeping 1000] else []).
    { unfold s3. destruct (i <? len - 1)%nat; [done|]. by rewrite app_nil_r. }
    destruct (IH (S i) s3) as ((turns & Hlt & Hquiet & Hturns & Heff) & Hc1); [lia|].
    rewrite Hstats3 in Hc1.
    change (stats s1) with (stats s) in *.
    change (effects s1)
      with ((effects s ++ [turnLine i len (lit "投稿中...")])
            ++ [console info (lit "  タイトル: " ++ templateText (title a))]) in He.
    split; [|cbn [length]; lia].
    exists ((turnLine i len (lit "投稿中...")
             :: console info (lit "  タイトル: " ++ templateText (title a)) :: block) :: turns).
    split; [cbn [length]; lia|]. split.
    { apply Forall_cons. split; [|done]. by repeat (apply Forall_cons; split; [done|]). }
    split.
    { intros [|k] turn Hk.
      - injection Hk as <-. exists a, block. rewrite Nat.add_0_r.
        split; [done|]. split; [done|]. by filter_steps.
      - cbn [lookup list_lookup] in Hk.
        destruct (Hturns k turn Hk) as (article & more & Hk' & Hturn & Hfilter).
        exists article, more. replace (i + S k)%nat with (S i + k)%nat by lia.
        by repeat split. }
    rewrite Heff, Heff3, He. destruct turns as [|turn turns].
    + destruct rest; [|done]. replace (i <? len - 1)%nat with false
        by (symmetry; apply Nat.ltb_ge; cbn [length] in Hlen; lia).
      cbn [paced]. by rewrite !app_nil_r, <- !app_assoc.
    + destruct rest; [done|]. replace (i <? len - 1)%nat with true
        by (symmetry; apply Nat.ltb_lt; cbn [length] in Hlen; lia).
      cbn [paced]. by rewrite <- !app_assoc.
Qed.

(** X18.  The publishing script counts every article once, as a success
    or a failure.  Its effects are those of its turns, one turn for each
    article in order, with a pause of 1000 ms between every two successive
    turns, whatever their outcome, and no pause after the last.  The turn
    of article [k] opens with its number and the title of that article, and
    calls the publisher once, for that article, unless the category of the
    article could not be converted, when it does not call it. *)
Theorem publishAllArticles_counters_and_pauses (unpublishedArticles : list ArticleData)
    (articlePath : file) :
  let s := publishAllArticles unpublishedArticles articlePath in
  (successCount (stats s) + failureCount (stats s) = length unpublishedArticles)%nat
  ∧ ∃ turns,
      length turns = length unpublishedArticles
      ∧ Forall (Forall (fun e => isSleeping e = false)) turns
      ∧ (∀ k turn, turns !! k = Some turn →
           ∃ article rest, unpublishedArticles !! k = Some article
             ∧ turn = turnLine k (length unpublishedArticles) (lit "投稿中...")
                      :: console info (lit "  タイトル: " ++ templateText (title article))
                      :: rest
             ∧ filter (fun e => isPublishing e = true) turn
               = publisherCalls (convertCategoryIdToNumber (category_id article)).1
                   k article)
      ∧ effects s = paced 1000 turns.
Proof.
  cbn zeta. unfold PublishArticles.publishAllArticles.
  match goal with |- context [PublishArticles.publishLoop _ _ _ _ _ _ _ _ ?len ?i ?l ?s0] =>
    destruct (publishLoop_spec len i l s0) as ((turns & H1 & H2 & H3 & H4) & Hc); [done|] end.
  cbn [stats successCount failureCount effects app] in Hc, H4.
  split; [lia|]. exists turns. by repeat split.
Qed.

End Script.

End PublishScriptFacts.

Module PublishRunFacts.

Import JSFacts CsvWriter CategoryMapper ArticlePipeline ArticlePublisher Notions StoreAux.
Import RoundTrip StoreClaims StoreRoundTrip StoreSequences SequenceFacts UpdateFacts Examples.
Import UnpublishedFacts PipelineStages Scripts ScriptAux PublishArticles GenerateScriptFacts.
Import MoreExamples StageExamples.

Lemma posted_fixed (a : ArticleData) : api_posted a = true → posted a = a.
Proof. destruct a. cbn. by intros ->. Qed.

Lemma existingIds_insert (l : list ArticleData) (i : nat) (a b : ArticleData) :
  l !! i = Some a → id b = id a → existingIds (<[i := b]> l) = existingIds l.
Proof.
  revert i. induction l as [|x l IH]; intros i Hi Hb; [done|].
  destruct i as [|i]; cbn in Hi.
  - injection Hi as ->. change (<[0%nat := b]> (a :: l)) with (b :: l).
    unfold existingIds. cbn [omap list_omap]. by rewrite Hb.
  - change (<[S i := b]> (x :: l)) with (x :: <[i := b]> l).
    unfold existingIds in *. cbn [omap list_omap]. by rewrite (IH i Hi Hb).
Qed.

Lemma existingIds_filter (P : ArticleData → Prop) `{∀ a, Decision (P a)}
    (l : list ArticleData) :
  NoDup (existingIds l) → NoDup (existingIds (filter P l)).
Proof.
  induction l as [|x l IH]; [done|]. intros Hnd.
  assert (Hl : NoDup (existingIds l)).
  { unfold existingIds in *. cbn [omap list_omap] in Hnd.
    destruct (id x) as [[|?|?]|]; try done. by apply NoDup_cons in Hnd as [_ ?]. }
  rewrite filter_cons. destruct (decide (P x)); [|by apply IH].
  unfold existingIds in *. cbn [omap list_omap] in Hnd |- *.
  destruct (id x) as [[|z|?]|]; try by apply IH.
  apply NoDup_cons in Hnd as [Hz _]. apply NoDup_cons. split; [|by apply IH].
  intros (b & Hb & Hidb)%list_elem_of_omap. apply Hz. apply list_elem_of_omap.
  exists b. split; [|done]. by apply list_elem_of_filter in Hb as [_ ?].
Qed.

Lemma filter_none {A} (P : A → Prop) `{∀ x, Decision (P x)} (l : list A) :
  filter P l = [] → Forall (fun x => ¬ P x) l.
Proof.
  induction l as [|x l IH]; [done|]. rewrite filter_cons.
  destruct (decide (P x)); [done|]. intros Hnil. apply Forall_cons. split; [done|by apply IH].
Qed.

Section Script.

Variable notNumeric : str → bool.
Variable inheritedText : str → str.
Variable categoriesPath : str.
Variable c : catalog.
Variable mockMode : bool.
Variable config : LaravelConfig.
Variable random : nat → Z.
Variable post : nat → result PostResponse.

Local Abbreviation convertCategoryIdToNumber :=
  (convertCategoryIdToNumber notNumeric inheritedText categoriesPath c).
Local Abbreviation publishSingleArticle :=
  (publishSingleArticle notNumeric inheritedText categoriesPath c mockMode config random post).
Local Abbreviation publishLoop :=
  (publishLoop notNumeric inheritedText categoriesPath c mockMode config random post).
Local Abbreviation publishAllArticles :=
  (publishAllArticles notNumeric inheritedText categoriesPath c mockMode config random post).

Local Ltac state_simpl :=
  unfold failed;
  cbn [emit setFile setStats stats effects articleFile countSuccess countFailure
       successCount failureCount].

(** A turn whose publication succeeds sets the flag of the first record
    with the identifier of the article. *)
Lemma publishSingleArticle_success (index : nat) (article : ArticleData)
    (s : state PublishStats) (z : Z) (n : categoryNumber) :
  Forall (fun a => storable a = true) (readArticlesFromCSV (articleFile s)) →
  article ∈ readArticlesFromCSV (articleFile s) → id article = Some (Int z) →
  (convertCategoryIdToNumber (category_id article)).1 = Return n →
  published (publishArticleToLaravel mockMode (random index) config (post index) article)
  = true →
  ∃ i0 a0,
    list_find (fun a => idIs (Int z) a) (readArticlesFromCSV (articleFile s)) = Some (i0, a0)
    ∧ articleFile (publishSingleArticle index article s)
      = Some (stored (<[i0 := merge a0 markPosted]> (readArticlesFromCSV (articleFile s))))
    ∧ stats (publishSingleArticle index article s) = countSuccess (stats s).
Proof.
  intros Hall Hin Hid Hprep Hpub.
  destruct (list_find (fun a => idIs (Int z) a) (readArticlesFromCSV (articleFile s)))
    as [[i0 a0]|] eqn:Hfind.
  2: { apply list_find_None in Hfind. apply (proj1 (Forall_forall _ _) Hfind) in Hin.
       destruct Hin. unfold idIs. rewrite Hid. cbn [strictEq]. by rewrite Z.eqb_refl. }
  exists i0, a0. split; [done|].
  destruct (update_found _ z markPosted i0 a0 Hall eq_refl Hfind) as [Hupd _].
  unfold PublishArticles.publishSingleArticle, prepareArticleForPublish.
  destruct (convertCategoryIdToNumber (category_id article)) as [[numericId|e] trace];
    [|done].
  destruct (emits_effects s trace) as (_ & Hs & Hf). cbn [stored_article].
  destruct (publishArticleToLaravel mockMode (random index) config (post index) article)
    as [result|e]; [|done].
  cbn [published] in Hpub. rewrite Hpub. state_simpl. rewrite Hf, Hid.
  cbn [updateArticleOf]. rewrite Hupd.
  match goal with |- context [foldl _ ?s0 (articleIdLine ?l)] =>
    destruct (emits_effects s0 (articleIdLine l)) as (_ & Hs' & Hf') end.
  state_simpl. rewrite Hf', Hs'. state_simpl. by rewrite Hs.
Qed.

Lemma publishLoop_complete (len i : nat) (todo : list ArticleData) (s : state PublishStats) :
  Forall (fun a => storable a = true) (readArticlesFromCSV (articleFile s)) →
  NoDup (existingIds (readArticlesFromCSV (articleFile s))) →
  filter (fun article => api_posted article = false) (readArticlesFromCSV (articleFile s))
  = todo →
  Forall (fun a => ∃ z, id a = Some (Int z)) todo →
  (∀ k a, todo !! k = Some a →
     (∃ n, (convertCategoryIdToNumber (category_id a)).1 = Return n)
     ∧ published (publishArticleToLaravel mockMode (random (i + k)) config (post (i + k)) a)
       = true) →
  let s' := publishLoop len i todo s in
  filter (fun article => api_posted article = false) (readArticlesFromCSV (articleFile s')) = []
  ∧ posted <$> readArticlesFromCSV (articleFile s')
    = posted <$> readArticlesFromCSV (articleFile s)
  ∧ Forall (fun a => storable a = true) (readArticlesFromCSV (articleFile s'))
  ∧ successCount (stats s') = (successCount (stats s) + length todo)%nat
  ∧ failureCount (stats s') = failureCount (stats s).
Proof.
  revert i s. induction todo as [|a rest IH]; intros i s Hall Hnd Htodo Hids Hok; cbn zeta.
  - cbn [PublishArticles.publishLoop length]. repeat split; [done..|lia].
  - cbn [PublishArticles.publishLoop].
    set (s1 := emit (console info (lit "  タイトル: " ++ templateText (title a)))
                 (emit (turnLine i len (lit "投稿中...")) s)).
    change (articleFile s) with (articleFile s1) in *.
    apply Forall_cons in Hids as [[z Hid] Hids].
    destruct (Hok 0%nat a eq_refl) as [[n Hprep] Hpub]. rewrite Nat.add_0_r in Hpub.
    assert (Hin : a ∈ readArticlesFromCSV (articleFile s1)).
    { assert (Hin : a ∈ a :: rest) by (by left). rewrite <- Htodo in Hin.
      by apply list_elem_of_filter in Hin as [_ ?]. }
    destruct (publishSingleArticle_success i a s1 z n Hall Hin Hid Hprep Hpub)
      as (i0 & a0 & Hfind & Hfile & Hstats).
    set (s2 := publishSingleArticle i a s1) in *.
    set (s3 := if (i <? len - 1)%nat then emit (sleeping 1000) s2 else s2).
    assert (Hfile3 : articleFile s3 = articleFile s2)
      by (unfold s3; by destruct (i <? len - 1)%nat).
    assert (Hstats3 : stats s3 = stats s2) by (unfold s3; by destruct (i <? len - 1)%nat).
    pose proof Hfind as (Hi0 & Ha0 & _)%list_find_Some.
    apply Is_true_true, idIs_true in Ha0 as (z' & Hida0 & [= <-]).
    set (cur := readArticlesFromCSV (articleFile s1)) in *.
    assert (Hall1 : Forall (fun a => storable a = true) (<[i0 := merge a0 markPosted]> cur)).
    { apply Forall_insert; [done|]. apply merge_storable; [|done].
      by eapply (proj1 (Forall_lookup _ _) Hall). }
    assert (Hread : readArticlesFromCSV (articleFile s3) = <[i0 := merge a0 markPosted]> cur).
    { rewrite Hfile3, Hfile. by apply read_stored. }
    assert (Hrest : Forall (fun b => id b ≠ Some (Int z)) rest).
    { pose proof (existingIds_filter (fun article => api_posted article = false) cur Hnd)
        as Hnd'. rewrite Htodo in Hnd'. unfold existingIds in Hnd'.
      cbn [omap list_omap] in Hnd'. rewrite Hid in Hnd'. apply NoDup_cons in Hnd' as [Hz _].
      apply Forall_forall. intros b Hb Hidb. apply Hz. by apply (existingIds_elem rest b z). }
    destruct (IH (S i) s3) as (H1 & H2 & H3 & H4 & H5).
    + by rewrite Hread.
    + rewrite Hread. by rewrite (existingIds_insert cur i0 a0).
    + rewrite Hread, (unposted_insert cur i0 a0 z) by done. rewrite Htodo.
      rewrite filter_cons, decide_False by (intros Hn; by apply Hn).
      by apply filter_all.
    + done.
    + intros k b Hk. destruct (Hok (S k) b Hk) as [Hp1 Hp2].
      split; [done|]. by replace (S i + k)%nat with (i + S k)%nat by lia.
    + split; [done|]. split; [|split; [done|]].
      * rewrite H2, Hread. rewrite list_fmap_insert. apply list_insert_id.
        rewrite list_lookup_fmap, Hi0. cbn [fmap option_fmap option_map]. f_equal.
      * rewrite H4, H5, Hstats3, Hstats. cbn [countSuccess successCount failureCount length].
        change (stats s1) with (stats s). split; [lia|done].
Qed.

(** X19.  A run in which every publication succeeds, on a store of storable
    records (their identifiers absent or non-zero safe integers, below
    2^53) with distinct identifiers whose unpublished records all have one:
    afterwards every record of the store has its flag set and is otherwise
    unchanged, nothing is left for [loadUnpublishedArticles], and every
    article has been counted as a success. *)
Theorem complete_run_leaves_nothing_unpublished (f : file) :
  Forall (fun a => storable a = true) (readArticlesFromCSV f) →
  NoDup (existingIds (readArticlesFromCSV f)) →
  let unpublished := (loadUnpublishedArticles f).1 in
  Forall (fun a => ∃ z, id a = Some (Int z)) unpublished →
  (∀ i a, unpublished !! i = Some a →
     (∃ n, (convertCategoryIdToNumber (category_id a)).1 = Return n)
     ∧ published (publishArticleToLaravel mockMode (random i) config (post i) a) = true) →
  let s := publishAllArticles unpublished f in
  readArticlesFromCSV (articleFile s) = posted <$> readArticlesFromCSV f
  ∧ (loadUnpublishedArticles (articleFile s)).1 = []
  ∧ stats s = {| successCount := length unpublished; failureCount := 0 |}.
Proof.
  cbn zeta. rewrite !loadUnpublished_filter. intros Hall Hnd Hids Hok.
  unfold PublishArticles.publishAllArticles.
  match goal with |- context [PublishArticles.publishLoop _ _ _ _ _ _ _ _ ?len ?i ?l ?s0] =>
    destruct (publishLoop_complete len i l s0) as (H1 & H2 & H3 & H4 & H5);
      [done..|set (s := PublishArticles.publishLoop _ _ _ _ _ _ _ _ len i l s0) in *] end.
  cbn [articleFile stats successCount failureCount] in H2, H4, H5.
  split; [|split; [done|]].
  - rewrite <- H2. symmetry. clear -H1. apply filter_none in H1.
    induction H1 as [|a l Ha _ IH]; [done|]. cbn [fmap list_fmap]. f_equal; [|done].
    apply posted_fixed. by destruct (api_posted a).
  - destruct (stats s). cbn in H4, H5. by subst.
Qed.

End Script.

Lemma complete_run_leaves_nothing_unpublished_witness :
  let s := publishAllArticles notDigits nativeText categoriesPath threeCategories true
             configured (fun _ => 7%Z) noPost (loadUnpublishedArticles twoArticles).1
             twoArticles in
  readArticlesFromCSV (articleFile s) = posted <$> readArticlesFromCSV twoArticles
  ∧ (loadUnpublishedArticles (articleFile s)).1 = []
  ∧ stats s = {| successCount := length (loadUnpublishedArticles twoArticles).1;
                 failureCount := 0 |}.
Proof.
  assert (Hun : (loadUnpublishedArticles twoArticles).1
                = [withId draft (Some (Int 1)); withId draft (Some (Int 2))])
    by (vm_compute; reflexivity).
  apply (complete_run_leaves_nothing_unpublished notDigits nativeText categoriesPath
           threeCategories true configured (fun _ => 7%Z) noPost twoArticles).
  - apply (bool_decide_unpack _). vm_compute. exact I.
  - apply (bool_decide_unpack _). vm_compute. exact I.
  - rewrite Hun. apply Forall_cons. split; [by exists 1%Z|].
    apply Forall_cons. split; [by exists 2%Z|constructor].
  - rewrite Hun. intros [|[|i]] a Ha; [| |done].
    + injection Ha as <-. split; [eexists; vm_compute; reflexivity|reflexivity].
    + injection Ha as <-. split; [eexists; vm_compute; reflexivity|reflexivity].
Defined.

End PublishRunFacts.

Module ResolverMore.

Import CategoryMapper Notions MoreExamples StageExamples ResolverAux ResolverFacts.

Lemma idOfName_found (categories : list ArticleCategory) (categoryName : str) :
  is_Some (idOfName categories categoryName) →
  ∃ i category, list_find (fun cat => name cat = categoryName) categories = Some (i, category).
Proof.
  unfold idOfName. destruct (list_find _ categories) as [[i category]|]; [by eauto|].
  by intros [? ?].
Qed.

Lemma fillMapping_total (categories : list ArticleCategory) (entries : list (str * str))
    (mapping : list (str * Z)) :
  Forall (fun row => is_Some (idOfName categories row.2)) entries →
  ∃ filled, fillMapping categories entries mapping = Return filled.
Proof.
  intros Hall. revert mapping. induction Hall as [|[label categoryName] rest Hrow _ IH];
    intros mapping; cbn [fillMapping]; [by eexists|].
  cbn [snd] in Hrow. apply idOfName_found in Hrow as (i & category & ->). apply IH.
Qed.

Lemma fillMapping_missing (categories : list ArticleCategory) (before after : list (str * str))
    (row : str * str) (mapping : list (str * Z)) :
  Forall (fun row => is_Some (idOfName categories row.2)) before →
  idOfName categories row.2 = None →
  fillMapping categories (before ++ row :: after) mapping
  = Throw (Error (categoryNameMissing row.2 row.1)).
Proof.
  intros Hall Hrow. revert mapping.
  induction Hall as [|[label categoryName] rest Hfound _ IH]; intros mapping; cbn [app fillMapping].
  - destruct row as [label categoryName]. cbn [fst snd] in *. unfold idOfName in Hrow.
    by destruct (list_find _ categories) as [[i category]|].
  - cbn [snd] in Hfound. apply idOfName_found in Hfound as (i & category & ->). apply IH.
Qed.

(** X20.  When the catalog holds every name of the static table, each label
    of the table resolves to the id of the first catalog entry that has the
    label's name. *)
Theorem complete_catalog_resolves_table (categoriesPath : str)
    (categories : list ArticleCategory) (label categoryName : str) :
  Forall (fun row => is_Some (idOfName categories row.2)) PERSONA_TO_CATEGORY_NAME →
  (label, categoryName) ∈ PERSONA_TO_CATEGORY_NAME →
  ∃ i category,
    list_find (fun cat => name cat = categoryName) categories = Some (i, category)
    ∧ getCategoryIdFromPersona categoriesPath (Some categories) label
      = Return (Own (category_number category)).
Proof.
  intros Hall Hlabel.
  destruct (fillMapping_total categories PERSONA_TO_CATEGORY_NAME [] Hall) as [mapping Hm].
  destruct (resolver_known_label categoriesPath categories mapping label categoryName)
    as (n & Hn & Hres); [done|done|].
  destruct (idOfName_found categories categoryName) as (i & category & Hfind);
    [by rewrite Hn|].
  exists i, category. split; [done|]. rewrite Hres. unfold idOfName in Hn.
  rewrite Hfind in Hn. by injection Hn as <-.
Qed.

Lemma complete_catalog_resolves_table_witness :
  ∃ i category,
    list_find (fun cat => name cat = lit "訪問介護") (default [] threeCategories)
    = Some (i, category)
    ∧ getCategoryIdFromPersona categoriesPath (Some (default [] threeCategories))
        (lit "収入・条件重視")
      = Return (Own (category_number category)).
Proof.
  apply (complete_catalog_resolves_table categoriesPath (default [] threeCategories)
           (lit "収入・条件重視") (lit "訪問介護")).
  - apply (bool_decide_unpack _). vm_compute. exact I.
  - apply (bool_decide_unpack _). vm_compute. exact I.
Defined.

(** X21.  When a name of the static table is missing from the catalog, every
    resolution fails, also that of a label whose own name is there, and the
    error tells the first row of the table whose name is missing. *)
Theorem first_missing_name_fails_every_label (categoriesPath : str)
    (categories : list ArticleCategory) (before after : list (str * str))
    (row : str * str) (label : str) :
  PERSONA_TO_CATEGORY_NAME = before ++ row :: after →
  Forall (fun row => is_Some (idOfName categories row.2)) before →
  idOfName categories row.2 = None →
  getCategoryIdFromPersona categoriesPath (Some categories) label
  = Throw (Error (categoryNameMissing row.2 row.1)).
Proof.
  intros Htable Hbefore Hrow.
  unfold getCategoryIdFromPersona, getPersonaCategoryMapping, loadArticleCategories.
  cbn [mbind result_bind]. rewrite Htable.
  by rewrite (fillMapping_missing categories before after row [] Hbefore Hrow).
Qed.

Lemma first_missing_name_fails_every_label_witness :
  getCategoryIdFromPersona categoriesPath (Some (default [] twoCategories))
    (lit "現役施設介護士")
  = Throw (Error (categoryNameMissing (lit "介護資格") (lit "潜在有資格者"))).
Proof.
  apply (first_missing_name_fails_every_label categoriesPath (default [] twoCategories)
           [(lit "現役施設介護士", lit "お仕事の相談")] [(lit "収入・条件重視", lit "訪問介護")]
           (lit "潜在有資格者", lit "介護資格") (lit "現役施設介護士")).
  - reflexivity.
  - apply Forall_cons. split; [by vm_compute; eexists|constructor].
  - vm_compute. reflexivity.
Defined.

(** X22.  When the catalog holds every name of the static table, a label
    that is neither in the table nor a name of [Object.prototype] is
    refused, and the error lists the labels of the table in its order. *)
Theorem unknown_label_is_refused (categoriesPath : str)
    (categories : list ArticleCategory) (label : str) :
  Forall (fun row => is_Some (idOfName categories row.2)) PERSONA_TO_CATEGORY_NAME →
  label ∉ labels → label ∉ objectPrototypeKeys →
  getCategoryIdFromPersona categoriesPath (Some categories) label
  = Throw (Error (lit "Persona category " ++ [QUOTE] ++ label ++ [QUOTE]
                  ++ lit " not found. Available categories: "
                  ++ join (lit ", ") (PERSONA_TO_CATEGORY_NAME.*1))).
Proof.
  intros Hall Hlabel Hproto.
  destruct (fillMapping_total categories PERSONA_TO_CATEGORY_NAME [] Hall) as [mapping Hm].
  rewrite (resolver_unknown_label categoriesPath categories mapping label); [|done..].
  reflexivity.
Qed.

Lemma unknown_label_is_refused_witness :
  getCategoryIdFromPersona categoriesPath (Some (default [] threeCategories))
    (lit "Unknown Category")
  = Throw (Error (lit "Persona category " ++ [QUOTE] ++ lit "Unknown Category" ++ [QUOTE]
                  ++ lit " not found. Available categories: "
                  ++ join (lit ", ") (PERSONA_TO_CATEGORY_NAME.*1))).
Proof.
  apply (unknown_label_is_refused categoriesPath (default [] threeCategories)
           (lit "Unknown Category")).
  - apply (bool_decide_unpack _). vm_compute. exact I.
  - apply (bool_decide_unpack _). vm_compute. exact I.
  - apply (bool_decide_unpack _). vm_compute. exact I.
Defined.

End ResolverMore.

Module BatchFacts.

Import ArticlePipeline PipelineAux PipelineFacts ScriptAux.

Section Batch.

Variable generateArticle : nat → ArticleGenerationInput → result ArticleData.

Local Ltac filter_steps :=
  repeat first
    [ rewrite filter_nil
    | rewrite filter_cons;
      first [rewrite decide_True by done | rewrite decide_False by done] ].

Lemma turns_calls (len i : nat) (inputs : list ArticleGenerationInput) :
  filter (fun e => isCall e = true) (turns generateArticle len i inputs) = calls i inputs
  ∧ (length (filter (fun e => isPause e = true) (turns generateArticle len i inputs))
     ≤ length (successes generateArticle i inputs))%nat.
Proof.
  revert i. induction inputs as [|input rest IH]; intros i; [done|].
  cbn [turns calls successes]. unfold turn, generated. destruct (IH (S i)) as [IH1 IH2].
  rewrite !filter_app, IH1.
  destruct (generateArticle i input) as [article|e]; [destruct (i <? len - 1)%nat|];
    filter_steps; (split; [done|]); cbn [app length]; lia.
Qed.

(** X23.  The batch driver calls [generateArticle] once for every input, in
    order, whatever the outcome of the other calls; it returns the articles
    of the calls that succeeded, in order; and it pauses no more often than
    it has succeeded. *)
Theorem batch_attempts_every_task (inputs : list ArticleGenerationInput) :
  let run := generateMultipleArticles generateArticle inputs in
  filter (fun e => isCall e = true) run.2 = calls 0 inputs
  ∧ run.1 = successes generateArticle 0 inputs
  ∧ (length (filter (fun e => isPause e = true) run.2) ≤ length run.1 ≤ length inputs)%nat.
Proof.
  cbn zeta. rewrite generateMultipleArticles_spec. cbn [fst snd].
  destruct (turns_calls (length inputs) 0 inputs) as [H1 H2].
  rewrite !filter_app, H1. filter_steps.
  split; [by rewrite app_nil_r|]. split; [done|]. cbn [app]. rewrite app_nil_r.
  split; [done|].
  clear H1 H2. generalize 0%nat. induction inputs as [|input rest IH]; intros i; [done|].
  cbn [successes length]. specialize (IH (S i)).
  destruct (generated generateArticle i input); cbn [length]; lia.
Qed.

End Batch.

End BatchFacts.
